(** * NaNoGenMoGen: the yearly bootstrap tool of NaNoGenMo

    A shallow embedding of [nanogenmogen.py] and the verification of its
    text-processing core: the memoised year resolver, the command runner,
    the README roll-forward and the two issue bodies.

    Python strings are lists of characters, here the code points below
    256; the builtin string methods the program calls ([str.replace],
    [str.splitlines], [in], [textwrap.dedent], the formatting of an [int]
    in an f-string) are written out below with the behaviour CPython
    gives them. *)

From Stdlib Require Import List String Ascii ZArith Lia Bool Arith.
From Stdlib Require Import DecimalString.
Import ListNotations.

Open Scope list_scope.

(** [length] is the length of a list throughout. *)
Abbreviation length := List.length (only parsing).

(* ================================================================== *)
(** * Python strings *)
(* ================================================================== *)

(** A Python [str]: the sequence of its characters. *)
Definition str : Type := list ascii.

(** String literals are written ['"..."]. *)
Notation "' s" := (list_ascii_of_string s) (at level 1, s at level 0, format "' s").

(** [str(n)] for an [int], which is what [f"{n}"] interpolates. *)
Definition str_of_int (n : Z) : str :=
  list_ascii_of_string (NilZero.string_of_int (Z.to_int n)).

(** [s.startswith(p)]. *)
Fixpoint startswith (p s : str) : bool :=
  match p, s with
  | [], _ => true
  | _ :: _, [] => false
  | a :: p', b :: s' => Ascii.eqb a b && startswith p' s'
  end.

(** [p in s]: [p] occurs in [s] as a contiguous substring. *)
Fixpoint infix (p s : str) : bool :=
  startswith p s ||
  match s with
  | [] => false
  | _ :: s' => infix p s'
  end.

(** [s.count(p)] were it to count overlapping occurrences too: the number
    of positions of [s] at which [p] begins. *)
Fixpoint occurrences (p s : str) : nat :=
  (if startswith p s then 1 else 0) +
  match s with
  | [] => 0
  | _ :: s' => occurrences p s'
  end.

(** [sep.join(segs)]. *)
Fixpoint join (sep : str) (segs : list str) : str :=
  match segs with
  | [] => []
  | [s] => s
  | s :: rest => s ++ sep ++ join sep rest
  end.

(** The left-to-right scan of [str.replace] for a non-empty [old]:
    [skip] counts the characters of the current match still to drop. *)
Fixpoint replace_scan (old new : str) (skip : nat) (s : str) : str :=
  match s with
  | [] => []
  | c :: s' =>
      match skip with
      | S k => replace_scan old new k s'
      | O =>
          if startswith old s
          then new ++ replace_scan old new (length old - 1) s'
          else c :: replace_scan old new 0 s'
      end
  end.

(** [s.replace(old, new)]: every non-overlapping occurrence of [old], found
    from the left, becomes [new].  An empty [old] matches before every
    character and at the end. *)
Definition replace (old new s : str) : str :=
  match old with
  | [] => new ++ flat_map (fun c => c :: new) s
  | _ :: _ => replace_scan old new 0 s
  end.

(** Prepend a character to the first piece of a list of pieces. *)
Definition cons_head (c : ascii) (segs : list str) : list str :=
  match segs with
  | [] => [[c]]
  | seg :: rest => (c :: seg) :: rest
  end.

(** The pieces of [s] between the occurrences that [replace] rewrites
    ([s.split(old)] for a non-empty [old]). *)
Fixpoint split_scan (old : str) (skip : nat) (s : str) : list str :=
  match s with
  | [] => [[]]
  | c :: s' =>
      match skip with
      | S k => split_scan old k s'
      | O =>
          if startswith old s
          then [] :: split_scan old (length old - 1) s'
          else cons_head c (split_scan old 0 s')
      end
  end.

Definition split_on (old s : str) : list str := split_scan old 0 s.

(** The line boundaries of [str.splitlines] among the first 256 code
    points: LF, VT, FF, CR, FS, GS, RS and NEL. *)
Definition is_linebreak (c : ascii) : bool :=
  let n := nat_of_ascii c in
  (Nat.leb 10 n && Nat.leb n 13) || (Nat.leb 28 n && Nat.leb n 30) ||
  Nat.eqb n 133.

Definition LF : ascii := ascii_of_nat 10.
Definition CR : ascii := ascii_of_nat 13.
Definition TAB : ascii := ascii_of_nat 9.
Definition SP : ascii := ascii_of_nat 32.

(** [s.splitlines()]: the lines of [s] without their terminators; CR LF is
    one terminator, and a final terminator opens no further line. *)
Fixpoint splitlines (s : str) : list str :=
  match s with
  | [] => []
  | c :: s' =>
      if is_linebreak c then
        match s' with
        | d :: s'' =>
            if Ascii.eqb c CR && Ascii.eqb d LF
            then [] :: splitlines s''
            else [] :: splitlines s'
        | [] => [[]]
        end
      else cons_head c (splitlines s')
  end.

(** [s.split("\n")]. *)
Fixpoint split_nl (s : str) : list str :=
  match s with
  | [] => [[]]
  | c :: s' =>
      if Ascii.eqb c LF then [] :: split_nl s' else cons_head c (split_nl s')
  end.

Definition is_sp_tab (c : ascii) : bool := Ascii.eqb c SP || Ascii.eqb c TAB.

(** A line of spaces and tabs only becomes empty
    ([_whitespace_only_re.sub('', text)]). *)
Definition blank_to_empty (line : str) : str :=
  if forallb is_sp_tab line then [] else line.

(** The leading run of spaces and tabs of a line. *)
Fixpoint indent_of (line : str) : str :=
  match line with
  | c :: l' => if is_sp_tab c then c :: indent_of l' else []
  | [] => []
  end.

(** The longest common prefix, as the [zip] loop of [dedent] finds it. *)
Fixpoint common_prefix (a b : str) : str :=
  match a, b with
  | x :: a', y :: b' => if Ascii.eqb x y then x :: common_prefix a' b' else []
  | _, _ => []
  end.

(** One round of the margin loop of [textwrap.dedent]. *)
Definition margin_step (margin : option str) (indent : str) : option str :=
  match margin with
  | None => Some indent
  | Some m =>
      if startswith m indent then Some m
      else if startswith indent m then Some indent
      else Some (common_prefix m indent)
  end.

Definition strip_margin (m line : str) : str :=
  if startswith m line then skipn (length m) line else line.

(** The lines of [textwrap.dedent(text)]: lines of spaces and tabs only
    are emptied, and the whitespace prefix common to all other lines is
    removed from each of them. *)
Definition dedent_lines (text : str) : list str :=
  let lines := map blank_to_empty (split_nl text) in
  let indents :=
    map indent_of (filter (fun l => negb (Nat.eqb (length l) 0)) lines) in
  match fold_left margin_step indents None with
  | Some (c :: m) => map (strip_margin (c :: m)) lines
  | _ => lines
  end.

(** [textwrap.dedent(text)]. *)
Definition dedent (text : str) : str := join [LF] (dedent_lines text).

(** The line holds a character other than space and tab. *)
Definition has_text (line : str) : bool :=
  existsb (fun c => negb (is_sp_tab c)) line.

(** The line holds no LF. *)
Definition no_lf (line : str) : bool :=
  forallb (fun c => negb (Ascii.eqb c LF)) line.

(** The only line terminator of the text is LF. *)
Definition lf_only (text : str) : bool :=
  forallb (fun c => negb (is_linebreak c) || Ascii.eqb c LF) text.

(* ================================================================== *)
(** * The process and its environment *)
(* ================================================================== *)

(** What the program asks of the operating system.  [W] is the state of
    the outside world; a shell command returns its exit status and the
    world it leaves behind, and file operations may fail. *)
Class OS (W : Type) : Type := {
  now_year : W -> Z;                        (* dt.datetime.now().year *)
  sh : str -> W -> Z * W;                   (* a command run by the shell *)
  os_chdir : str -> W -> option W;          (* os.chdir(path) *)
  read_text : str -> W -> option str;       (* open(path).read() *)
  write_text : str -> str -> W -> option W  (* open(path, "w").write(text) *)
}.

(** What the process does that can be observed. *)
Inductive event : Type :=
| Print (line : str)
| Run (command : str)
| Wrote (path : str) (text : str).

(** The exceptions that end a run. *)
Inductive exn : Type :=
| CalledProcessError (returncode : Z) (cmd : str)
| OSError (path : str).

Inductive result (A : Type) : Type :=
| Ok (a : A)
| Raise (e : exn).
Arguments Ok {A} a.
Arguments Raise {A} e.

(** The state of one run: the world, the two [functools.cache] tables
    (each function takes no argument, so each table holds at most one
    entry) and the events so far. *)
Record proc (W : Type) : Type := mkProc {
  world : W;
  this_year_cache : option Z;
  last_year_cache : option Z;
  trace : list event
}.
Arguments mkProc {W}.
Arguments world {W}.
Arguments this_year_cache {W}.
Arguments last_year_cache {W}.
Arguments trace {W}.

(** A fresh process: nothing cached, nothing done yet. *)
Definition start {W : Type} (w : W) : proc W := mkProc w None None [].

(** Computations that read and change the process and may raise. *)
Definition M (W A : Type) : Type := proc W -> result A * proc W.

Definition ret {W A : Type} (a : A) : M W A := fun p => (Ok a, p).

Definition raise {W A : Type} (e : exn) : M W A := fun p => (Raise e, p).

Definition bind {W A B : Type} (m : M W A) (f : A -> M W B) : M W B :=
  fun p =>
    match m p with
    | (Ok a, p') => f a p'
    | (Raise e, p') => (Raise e, p')
    end.

Notation "x <- m ;; f" := (bind m (fun x => f))
  (at level 61, m at next level, right associativity).
Notation "m ;; f" := (bind m (fun _ => f))
  (at level 61, right associativity).

Definition emit {W : Type} (e : event) : M W unit :=
  fun p => (Ok tt, mkProc (world p) (this_year_cache p) (last_year_cache p)
                          (trace p ++ [e])).

Definition set_world {W : Type} (w : W) : M W unit :=
  fun p => (Ok tt, mkProc w (this_year_cache p) (last_year_cache p) (trace p)).

Definition get_world {W : Type} : M W W := fun p => (Ok (world p), p).

Section Program.

Context {W : Type} `{OS W}.

(** ** Year resolver *)

(** [this_year()] under [@cache]: the clock is read on the first call only. *)
Definition this_year : M W Z :=
  fun p =>
    match this_year_cache p with
    | Some y => (Ok y, p)
    | None =>
        let y := now_year (world p) in
        (Ok y, mkProc (world p) (Some y) (last_year_cache p) (trace p))
    end.

(** [last_year()] under [@cache]: [this_year() - 1], computed once. *)
Definition last_year : M W Z :=
  fun p =>
    match last_year_cache p with
    | Some y => (Ok y, p)
    | None =>
        (y <- this_year ;;
         (fun q => (Ok (y - 1)%Z,
                    mkProc (world q) (this_year_cache q) (Some (y - 1)%Z)
                           (trace q)))) p
    end.

(** ** Command runner *)

Definition print (line : str) : M W unit := emit (Print line).

(** [subprocess.run(command, shell=True, check=True)]: the shell runs the
    command and a status other than 0 raises [CalledProcessError].  What
    [subprocess.run] raises before any shell runs (a [ValueError] for a
    command that holds a NUL character) is not modelled: [sh] gives every
    command a status. *)
Definition subprocess_run (command : str) : M W unit :=
  w <- get_world ;;
  let '(status, w') := sh command w in
  set_world w' ;;
  emit (Run command) ;;
  if Z.eqb status 0 then ret tt
  else raise (CalledProcessError status command).

(** The [for] loop of [run_commands] over the lines of the block. *)
Fixpoint run_lines (lines : list str) : M W unit :=
  match lines with
  | [] => ret tt
  | command :: rest =>
      match command with
      | [] => run_lines rest
      | _ :: _ => print command ;; subprocess_run command ;; run_lines rest
      end
  end.

Definition run_commands (commands : str) : M W unit :=
  run_lines (splitlines (dedent commands)).

(** ** File access *)

Definition chdir (path : str) : M W unit :=
  w <- get_world ;;
  match os_chdir path w with
  | Some w' => set_world w'
  | None => raise (OSError path)
  end.

(** [open(path).read()].  [read_text] gives [None] for a file that cannot
    be read, whatever the reason; the model raises [OSError] for it, also
    where the source raises another exception (a [UnicodeDecodeError] for
    bytes that cannot be decoded). *)
Definition read_file (path : str) : M W str :=
  w <- get_world ;;
  match read_text path w with
  | Some text => ret text
  | None => raise (OSError path)
  end.

Definition write_file (path text : str) : M W unit :=
  w <- get_world ;;
  match write_text path text w with
  | Some w' => set_world w' ;; emit (Wrote path text)
  | None => raise (OSError path)
  end.

End Program.

(* ================================================================== *)
(** * README updater *)
(* ================================================================== *)

Open Scope Z_scope.

(** The tuple of [(old, new)] pairs of [update_readme], in its order, for
    the values [this] and [last] of [this_year()] and [last_year()]. *)
Definition readme_replacements (this last : Z) : list (str * str) :=
  [ ('"# NaNoGenMo " ++ str_of_int last,
     '"# NaNoGenMo " ++ str_of_int this);
    ('"NaNoGenMo/" ++ str_of_int last ++ '"/issues?q=label",
     '"NaNoGenMo/" ++ str_of_int this ++ '"/issues?q=label");
    ('"This is the " ++ str_of_int last ++ '" edition.",
     '"This is the " ++ str_of_int this ++ '" edition.");
    ('"* [" ++ str_of_int (last - 1) ++ '"](https://github.com/NaNoGenMo/"
        ++ str_of_int (last - 1) ++ '")",
     '"* [" ++ str_of_int last ++ '"](https://github.com/NaNoGenMo/"
        ++ str_of_int last ++ '")" ++ [LF]
        ++ '"* [" ++ str_of_int (last - 1)
        ++ '"](https://github.com/NaNoGenMo/"
        ++ str_of_int (last - 1) ++ '")");
    ('"* [" ++ str_of_int (last - 1) ++ '"](https://github.com/NaNoGenMo/"
        ++ str_of_int (last - 1) ++ '"/issues/1)",
     '"* [" ++ str_of_int (last - 1) ++ '"](https://github.com/NaNoGenMo/"
        ++ str_of_int (last - 1) ++ '"/issues/1)" ++ [LF]
        ++ '"* [" ++ str_of_int last ++ '"](https://github.com/NaNoGenMo/"
        ++ str_of_int last ++ '"/issues/1)") ].

(** One round of the loop: [readme = readme.replace(old, new)]. *)
Definition replace_pair (readme : str) (pair : str * str) : str :=
  replace (fst pair) (snd pair) readme.

(** The [for old, new in (...)] loop of [update_readme]. *)
Definition apply_replacements (pairs : list (str * str)) (readme : str) : str :=
  fold_left replace_pair pairs readme.

Definition update_readme_text (this last : Z) (readme : str) : str :=
  apply_replacements (readme_replacements this last) readme.

Section Updater.

Context {W : Type} `{OS W}.

(** [update_readme()].  The f-strings call [this_year()] and [last_year()]
    many times; every call after the first returns the cached value, so
    each is called here where the source first needs it. *)
Definition update_readme : M W unit :=
  this <- this_year ;;
  chdir ('"/tmp/update-repo/" ++ str_of_int this) ;;
  readme <- read_file '"README.md" ;;
  last <- last_year ;;
  this <- this_year ;;
  let readme := update_readme_text this last readme in
  print readme ;;
  write_file '"README.md" readme ;;
  run_commands '"git add README.md" ;;
  last <- last_year ;;
  this <- this_year ;;
  run_commands ('"git commit -m '" ++ str_of_int last ++ '" -> "
                  ++ str_of_int this ++ '"'") ;;
  run_commands '"git push".

End Updater.

(* ================================================================== *)
(** * Issue seeder *)
(* ================================================================== *)

(** [range(start, stop, -1)]: from [start] down to [stop + 1]. *)
Definition range_down (start stop : Z) : list Z :=
  map (fun i => start - Z.of_nat i) (seq 0 (Z.to_nat (start - stop))).

Definition DQ : ascii := ascii_of_nat 34.

(** The triple-quoted literal that opens the text of issue 1. *)
Definition issue1_intro : str :=
  '"    This is an open issue where you can comment and add resources that might come in handy for NaNoGenMo."
  ++ [LF; LF]
  ++ '"    There are already a ton of resources on the old resources threads of previous editions:"
  ++ [LF; LF] ++ '"    ".

(** The line that the loop of issue 1 adds for [year]. *)
Definition issue1_line (year : Z) : str :=
  '"* [" ++ str_of_int year ++ '"](https://github.com/NaNoGenMo/"
    ++ str_of_int year ++ '"/issues/1)" ++ [LF].

(** The lines appended after the loop of issue 1. *)
Definition issue1_fixed : list str :=
  [ '"* [2015](https://github.com/dariusk/NaNoGenMo-2015/issues/1)" ++ [LF];
    '"* [2014](https://github.com/dariusk/nanogenmo-2014/issues/1)" ++ [LF];
    '"* [2013](https://github.com/dariusk/NaNoGenMo/issues/11)" ++ [LF] ].

(** The text written to [/tmp/issue1.txt] ("Resources"). *)
Definition issue1_text (last : Z) : str :=
  let text := dedent issue1_intro in
  let text :=
    fold_left (fun text year => text ++ issue1_line year)
              (range_down last (2016 - 1)) text in
  fold_left (fun text line => text ++ line) issue1_fixed text.

(** The line that the loop of issue 2 adds for [year]. *)
Definition issue2_line (year : Z) : str :=
  '"* [" ++ str_of_int year ++ '"](https://github.com/NaNoGenMo/"
    ++ str_of_int year ++ '"/issues/2)" ++ [LF].

(** The lines appended after the loop of issue 2. *)
Definition issue2_fixed : list str :=
  [ '"* [2016](https://github.com/NaNoGenMo/2016/issues/5)" ++ [LF];
    '"* [2015](https://github.com/dariusk/NaNoGenMo-2015/issues/9)" ++ [LF];
    '"* [2014](https://github.com/dariusk/NaNoGenMo-2014/issues/92)" ++ [LF] ].

(** The text written to [/tmp/issue2.txt] ("Press and other coverage"). *)
Definition issue2_text (last : Z) : str :=
  let text := '"Links to previous years:" ++ [LF; LF] in
  let text :=
    fold_left (fun text year => text ++ issue2_line year)
              (range_down last (2016 - 1)) text in
  fold_left (fun text line => text ++ line) issue2_fixed text.

Section Seeder.

Context {W : Type} `{OS W}.

(** [create_issues()]. *)
Definition create_issues : M W unit :=
  this <- this_year ;;
  chdir ('"/tmp/update-repo/" ++ str_of_int this) ;;
  last <- last_year ;;
  write_file '"/tmp/issue1.txt" (issue1_text last) ;;
  last <- last_year ;;
  write_file '"/tmp/issue2.txt" (issue2_text last) ;;
  run_commands ('"gh issue create --label " ++ [DQ] ++ '"admin" ++ [DQ]
                  ++ '" --body-file " ++ [DQ] ++ '"/tmp/issue1.txt" ++ [DQ]
                  ++ '" --title " ++ [DQ] ++ '"Resources" ++ [DQ]) ;;
  run_commands ('"gh issue create --label " ++ [DQ] ++ '"admin" ++ [DQ]
                  ++ '" --body-file " ++ [DQ] ++ '"/tmp/issue2.txt" ++ [DQ]
                  ++ '" --title " ++ [DQ] ++ '"Press and other coverage"
                  ++ [DQ]) ;;
  run_commands '"gh issue list".

End Seeder.

(* ================================================================== *)
(** * Occurrences that cannot meet *)
(* ================================================================== *)

Close Scope Z_scope.

(** [x] and [y] agree as far as both go: one is a prefix of the other. *)
Fixpoint agree (x y : str) : bool :=
  match x, y with
  | a :: x', b :: y' => Ascii.eqb a b && agree x' y'
  | _, _ => true
  end.

(** No non-empty suffix of [q] agrees with [c]. *)
Fixpoint tails_apart (q c : str) : bool :=
  match q with
  | [] => true
  | _ :: q' => negb (agree q c) && tails_apart q' c
  end.

(** [apart p c]: an occurrence of [p] can neither begin inside a copy of
    [c] nor begin before it and reach its first character.  So in any text
    an occurrence of [p] and a copy of [c] never share a character. *)
Definition apart (p c : str) : bool :=
  tails_apart c p && tails_apart (tl p) c.

(** The pieces that the scan of [replace] leaves between its matches: no
    occurrence of [old] begins inside a piece that a match follows, and
    the last piece holds none. *)
Fixpoint greedy (old : str) (segs : list str) : Prop :=
  match segs with
  | [] => True
  | seg :: rest =>
      match rest with
      | [] => infix old seg = false
      | _ :: _ => infix old (seg ++ removelast old) = false /\ greedy old rest
      end
  end.

(** ** The texts of one year *)

(** The characters of a formatted [int]: the digits and the minus sign. *)
Definition is_year_char (c : ascii) : bool :=
  let n := nat_of_ascii c in
  (Nat.leb 48 n && Nat.leb n 57) || Nat.eqb n 45.

(** The replacement list of [update_readme] with the three formatted years
    left open: [sP] for [last_year() - 1], [sL] for [last_year()] and [sT]
    for [this_year()]. *)
Definition readme_texts (sP sL sT : str) : list (str * str) :=
  [ ('"# NaNoGenMo " ++ sL,
     '"# NaNoGenMo " ++ sT);
    ('"NaNoGenMo/" ++ sL ++ '"/issues?q=label",
     '"NaNoGenMo/" ++ sT ++ '"/issues?q=label");
    ('"This is the " ++ sL ++ '" edition.",
     '"This is the " ++ sT ++ '" edition.");
    ('"* [" ++ sP ++ '"](https://github.com/NaNoGenMo/" ++ sP ++ '")",
     '"* [" ++ sL ++ '"](https://github.com/NaNoGenMo/" ++ sL ++ '")"
        ++ [LF]
        ++ '"* [" ++ sP ++ '"](https://github.com/NaNoGenMo/" ++ sP ++ '")");
    ('"* [" ++ sP ++ '"](https://github.com/NaNoGenMo/" ++ sP
        ++ '"/issues/1)",
     '"* [" ++ sP ++ '"](https://github.com/NaNoGenMo/" ++ sP
        ++ '"/issues/1)" ++ [LF]
        ++ '"* [" ++ sL ++ '"](https://github.com/NaNoGenMo/" ++ sL
        ++ '"/issues/1)") ].

(** The [k]-th old and new text of a replacement list. *)
Definition old_of (pairs : list (str * str)) (k : nat) : str :=
  fst (nth k pairs ([], [])).

Definition new_of (pairs : list (str * str)) (k : nat) : str :=
  snd (nth k pairs ([], [])).

(** [pairs_ok pairs]: the facts about the ten texts that the proofs below
    rest on.  There are five replacements and no old text is empty; an old
    text is apart from the new text of every earlier replacement; the
    first three old texts are apart from every new text; the new title is
    apart from every later old text; the last two replacements lengthen
    the text they replace. *)
Definition pairs_ok (pairs : list (str * str)) : bool :=
  Nat.eqb (length pairs) 5 &&
  forallb (fun k => negb (Nat.eqb (length (old_of pairs k)) 0)) (seq 0 5) &&
  forallb (fun k =>
    forallb (fun j =>
      if Nat.ltb k 3 || Nat.ltb j k
      then apart (old_of pairs k) (new_of pairs j)
      else true) (seq 0 5)) (seq 0 5) &&
  forallb (fun j => apart (new_of pairs 0) (old_of pairs j)) (seq 1 4) &&
  forallb (fun k =>
    Nat.ltb (length (old_of pairs k)) (length (new_of pairs k))) (seq 3 2) &&
  forallb (fun k => tails_apart (tl (old_of pairs k)) (old_of pairs k))
          (seq 0 5).

Definition str_eqb (a b : str) : bool :=
  Nat.eqb (length a) (length b) && agree a b.

(** What the proofs need of the three formatted years: they are non-empty
    and made of year characters, pairwise different, and the text of last
    year is no prefix of the text of this year nor the other way round. *)
Definition formatted_ok (sP sL sT : str) : bool :=
  forallb (fun s => negb (Nat.eqb (length s) 0) && forallb is_year_char s)
          [sP; sL; sT] &&
  negb (str_eqb sP sL) && negb (str_eqb sP sT) && negb (str_eqb sL sT) &&
  negb (agree sL sT).

Open Scope Z_scope.

Definition year_formats_ok (this : Z) : bool :=
  formatted_ok (str_of_int (this - 1 - 1)) (str_of_int (this - 1))
               (str_of_int this).

(** [count] integers from [first] upwards. *)
Fixpoint upto (first : Z) (count : nat) : list Z :=
  match count with
  | O => []
  | S n => first :: upto (first + 1) n
  end.

(** The years a [datetime] can hold: [MINYEAR .. MAXYEAR]. *)
Definition datetime_years : list Z := upto 1 (Z.to_nat 9999).

Close Scope Z_scope.

(* ================================================================== *)
(** * Templates: a README with its year-dependent places marked *)
(* ================================================================== *)

(** A README under roll-forward is plain text around marked places, each
    holding the old or the new text of one replacement. *)
Inductive item : Type :=
| Txt (text : str)
| Pat (k : nat).

(** The text of an item once the first [done] replacements have run. *)
Definition render_item (pairs : list (str * str)) (done : nat) (it : item)
  : str :=
  match it with
  | Txt text => text
  | Pat k => if Nat.ltb k done then new_of pairs k else old_of pairs k
  end.

Definition render (pairs : list (str * str)) (done : nat) (tpl : list item)
  : str :=
  flat_map (render_item pairs done) tpl.

Definition is_pat (k : nat) (it : item) : bool :=
  match it with
  | Txt _ => false
  | Pat j => Nat.eqb j k
  end.

(** The stretches of a template between the places marked [Pat k]. *)
Fixpoint cut (k : nat) (tpl : list item) : list (list item) :=
  match tpl with
  | [] => [[]]
  | it :: rest =>
      if is_pat k it then [] :: cut k rest
      else match cut k rest with
           | [] => [[it]]
           | piece :: pieces => (it :: piece) :: pieces
           end
  end.

(** [marked pairs tpl]: the places marked in [tpl] are exactly where the
    scan of each replacement finds its old text in the README as it is
    before the update. *)
Definition marked (pairs : list (str * str)) (tpl : list item) : Prop :=
  forall k, k < length pairs ->
    split_on (old_of pairs k) (render pairs 0 tpl)
    = map (render pairs 0) (cut k tpl).

(** A template filled in with the texts of last year, and with the texts
    of this year. *)
Definition old_readme (this : Z) (tpl : list item) : str :=
  render (readme_replacements this (this - 1)) 0 tpl.

Definition new_readme (this : Z) (tpl : list item) : str :=
  render (readme_replacements this (this - 1)) 5 tpl.

(** The [k]-th old and new text of the README updater in year [this]. *)
Definition old_text (this : Z) (k : nat) : str :=
  old_of (readme_replacements this (this - 1)) k.

Definition new_text (this : Z) (k : nat) : str :=
  new_of (readme_replacements this (this - 1)) k.

(** ** The five places as the specification names them *)

(** The text at place [k] of the README of the [edition] edition: the
    title line, the issue-query link, the edition sentence, the newest
    line of the list of past editions and the newest line of the list of
    past resource threads.  Written out from the specification's
    description, not taken from [readme_replacements]. *)
Definition edition_pattern (edition : Z) (k : nat) : str :=
  match k with
  | 0 => '"# NaNoGenMo " ++ str_of_int edition
  | 1 => '"NaNoGenMo/" ++ str_of_int edition ++ '"/issues?q=label"
  | 2 => '"This is the " ++ str_of_int edition ++ '" edition."
  | 3 => '"* [" ++ str_of_int (edition - 1)
           ++ '"](https://github.com/NaNoGenMo/" ++ str_of_int (edition - 1)
           ++ '")"
  | 4 => '"* [" ++ str_of_int (edition - 1)
           ++ '"](https://github.com/NaNoGenMo/" ++ str_of_int (edition - 1)
           ++ '"/issues/1)"
  | _ => []
  end.

(** What is expected at place [k] once the README is rolled forward to
    the [edition] edition.  The first three places hold the pattern of
    the new edition.  In the two lists the line of the new edition is
    inserted next to the line that was the newest: above it in the list
    of editions, below it in the list of resource threads. *)
Definition rolled_place (edition : Z) (k : nat) : str :=
  match k with
  | 3 => edition_pattern edition 3 ++ [LF] ++ edition_pattern (edition - 1) 3
  | 4 => edition_pattern (edition - 1) 4 ++ [LF] ++ edition_pattern edition 4
  | _ => edition_pattern edition k
  end.

(** A template with the text [texts k] at every place [Pat k]. *)
Definition fill (texts : nat -> str) (tpl : list item) : str :=
  flat_map (fun it => match it with
                      | Txt text => text
                      | Pat k => texts k
                      end) tpl.

(** The README of the [edition] edition made from [tpl] holds exactly the
    expected patterns: each of the five patterns is found, by the scan of
    [str.replace], at the places marked for it and nowhere else. *)
Definition holds_exactly (edition : Z) (tpl : list item) : Prop :=
  forall k, k < 5 ->
    split_on (edition_pattern edition k) (fill (edition_pattern edition) tpl)
    = map (fill (edition_pattern edition)) (cut k tpl).

(** The README after the first [m] replacements. *)
Definition stage (pairs : list (str * str)) (m : nat) (readme : str) : str :=
  apply_replacements (firstn m pairs) readme.

(** The replacement list with its [k]-th pair left out. *)
Definition without (k : nat) (pairs : list (str * str)) : list (str * str) :=
  firstn k pairs ++ skipn (S k) pairs.

(* ================================================================== *)
(** * What a run is expected to do *)
(* ================================================================== *)

(** The lines of a command block that are not empty once it is dedented. *)
Definition command_lines (commands : str) : list str :=
  filter (fun line => negb (Nat.eqb (length line) 0))
         (splitlines (dedent commands)).

(** What running a list of commands leaves in the trace: each command is
    printed, then run. *)
Definition events_of (cmds : list str) : list event :=
  flat_map (fun c => [Print c; Run c]) cmds.

(** The files written in a trace, oldest first. *)
Fixpoint writes (tr : list event) : list (str * str) :=
  match tr with
  | [] => []
  | Wrote path text :: rest => (path, text) :: writes rest
  | _ :: rest => writes rest
  end.

(** A computation that writes no file. *)
Definition quiet {W A : Type} (m : M W A) : Prop :=
  forall p, writes (trace (snd (m p))) = writes (trace p).

Section Expected.

Context {W : Type} `{OS W}.

(** Every command of the list exits with status 0 when run in turn. *)
Fixpoint all_succeed (cmds : list str) (w : W) : Prop :=
  match cmds with
  | [] => True
  | c :: rest => fst (sh c w) = 0%Z /\ all_succeed rest (snd (sh c w))
  end.

(** The world after the commands of the list have run in turn. *)
Fixpoint world_after (cmds : list str) (w : W) : W :=
  match cmds with
  | [] => w
  | c :: rest => world_after rest (snd (sh c w))
  end.

(** What a run may do with the year resolver: call either function, or
    let the world, its clock included, move on. *)
Inductive call : Type :=
| CallThisYear
| CallLastYear
| Elapse (change : W -> W).

Inductive answer : Type :=
| ThisYearIs (y : Z)
| LastYearIs (y : Z).

(** The values that the calls of a run return, in order. *)
Fixpoint answers (calls : list call) (p : proc W) : list answer :=
  match calls with
  | [] => []
  | CallThisYear :: rest =>
      match this_year p with
      | (Ok y, p') => ThisYearIs y :: answers rest p'
      | (Raise _, _) => []
      end
  | CallLastYear :: rest =>
      match last_year p with
      | (Ok y, p') => LastYearIs y :: answers rest p'
      | (Raise _, _) => []
      end
  | Elapse change :: rest =>
      answers rest (mkProc (change (world p)) (this_year_cache p)
                           (last_year_cache p) (trace p))
  end.

(** The process once the calls of a run have been made. *)
Fixpoint after_calls (calls : list call) (p : proc W) : proc W :=
  match calls with
  | [] => p
  | CallThisYear :: rest => after_calls rest (snd (this_year p))
  | CallLastYear :: rest => after_calls rest (snd (last_year p))
  | Elapse change :: rest =>
      after_calls rest (mkProc (change (world p)) (this_year_cache p)
                               (last_year_cache p) (trace p))
  end.

Definition is_last_year_call (c : call) : bool :=
  match c with
  | CallLastYear => true
  | _ => false
  end.

(** The year on the clock when the first call is made. *)
Fixpoint first_reading (calls : list call) (w : W) : Z :=
  match calls with
  | Elapse change :: rest => first_reading rest (change w)
  | _ => now_year w
  end.

Definition is_call (c : call) : bool :=
  match c with
  | Elapse _ => false
  | _ => true
  end.

(** An answer fits the year [y]: this year is [y], last year [y - 1]. *)
Definition fits (y : Z) (a : answer) : Prop :=
  match a with
  | ThisYearIs v => v = y
  | LastYearIs v => v = (y - 1)%Z
  end.

(** The caches of a process once [this_year()] has returned [y]. *)
Definition settled (y : Z) (p : proc W) : Prop :=
  this_year_cache p = Some y /\
  (last_year_cache p = None \/ last_year_cache p = Some (y - 1)%Z).

End Expected.

(* ================================================================== *)
(** * A small world to run the program in *)
(* ================================================================== *)

(** A clock, the files by path, and the commands run so far.  The command
    [false] fails with status 1 as in a shell; every other command
    succeeds. *)
Record sim : Type := mkSim {
  sim_year : Z;
  sim_files : list (str * str);
  sim_ran : list str
}.

Fixpoint lookup (path : str) (files : list (str * str)) : option str :=
  match files with
  | [] => None
  | (name, text) :: rest =>
      if str_eqb name path then Some text else lookup path rest
  end.

#[export] Instance sim_OS : OS sim := {
  now_year w := sim_year w;
  sh cmd w :=
    (if str_eqb cmd '"false" then 1%Z else 0%Z,
     mkSim (sim_year w) (sim_files w) (sim_ran w ++ [cmd]));
  os_chdir path w := Some w;
  read_text path w := lookup path (sim_files w);
  write_text path text w :=
    Some (mkSim (sim_year w) ((path, text) :: sim_files w) (sim_ran w))
}.

(** A README of the 2023 edition with its five year-dependent places. *)
Definition sample_template : list item :=
  [ Pat 0; Txt [LF; LF];
    Pat 2;
    Txt ('" For previous years see:" ++ [LF; LF]
           ++ '"* [2021](https://github.com/NaNoGenMo/2021)" ++ [LF]);
    Pat 3;
    Txt ([LF; LF] ++ '"## Novels" ++ [LF; LF] ++ '"https://github.com/");
    Pat 1;
    Txt ('"%3Acompleted" ++ [LF; LF] ++ '"## Resources" ++ [LF; LF]
           ++ '"* [2021](https://github.com/NaNoGenMo/2021/issues/1)" ++ [LF]);
    Pat 4; Txt [LF] ].

Definition sample_readme : str := old_readme 2024 sample_template.

(** A block of three commands around blank lines; the second one fails. *)
Definition sample_block : str :=
  '"    git status" ++ [LF; LF] ++ '"    false" ++ [LF] ++ '"  " ++ [LF]
    ++ '"    git push" ++ [LF] ++ '"    ".

(** A block whose commands all succeed. *)
Definition sample_good_block : str :=
  '"    git add README.md" ++ [LF; LF] ++ '"      git push" ++ [LF]
    ++ '"    ".

(* ================================================================== *)
(** * The other operations *)
(* ================================================================== *)

(** What the remaining operations ask of the file system. *)
Class FS (W : Type) : Type := {
  (* Path(path).mkdir(parents=True, exist_ok=True) *)
  os_mkdir : str -> W -> option W;
  (* shutil.rmtree(path, ignore_errors=True) *)
  os_rmtree : str -> W -> W
}.

(** The switches of the command line, as [parse_args] returns them. *)
Record args : Type := mkArgs {
  arg_create_repo : bool;
  arg_clone_repo : bool;
  arg_update_readme : bool;
  arg_create_labels : bool;
  arg_create_issues : bool
}.

(** The labels that [create_labels] deletes, in its order. *)
Definition default_labels : list str :=
  [ '"bug"; '"documentation"; '"duplicate"; '"enhancement";
    '"good first issue"; '"help wanted"; '"invalid"; '"question";
    '"wontfix" ].

(** The first block of commands of [create_repo]. *)
Definition create_repo_block (this last : Z) : str :=
  '"    # Create destination repo on GitHub" ++ [LF]
  ++ '"    gh repo create " ++ str_of_int this ++ '" --private" ++ [LF]
  ++ [LF]
  ++ '"    # Make a bare clone of the repository" ++ [LF]
  ++ '"    git clone --bare https://github.com/NaNoGenMo/" ++ str_of_int last
  ++ '".git" ++ [LF]
  ++ '"    ".

(** The second block of commands of [create_repo]. *)
Definition push_block (this : Z) : str :=
  '"    # Mirror-push to the new repository" ++ [LF]
  ++ '"    git push --mirror https://github.com/hugovk/" ++ str_of_int this
  ++ '".git" ++ [LF]
  ++ '"    ".

(** The command of [clone_repo]. *)
Definition clone_command (this : Z) : str :=
  '"git clone https://github.com/hugovk/" ++ str_of_int this
  ++ '" /tmp/update-repo/" ++ str_of_int this.

(** The command that deletes the label [old]. *)
Definition delete_command (old : str) : str :=
  '"gh label delete --yes " ++ [DQ] ++ old ++ [DQ].

Section Operations.

Context {W : Type} `{OS W} `{FS W}.

Definition mkdir (path : str) : M W unit :=
  w <- get_world ;;
  match os_mkdir path w with
  | Some w' => set_world w'
  | None => raise (OSError path)
  end.

Definition rmtree (path : str) : M W unit :=
  w <- get_world ;;
  set_world (os_rmtree path w).

(** [create_repo()]. *)
Definition create_repo : M W unit :=
  this <- this_year ;;
  let repo := '"hugovk/" ++ str_of_int this in
  print ('"Creating https://github.com/" ++ repo ++ '"...") ;;
  print [] ;;
  mkdir '"/tmp/create-repo" ;;
  chdir '"/tmp/create-repo" ;;
  this <- this_year ;;
  last <- last_year ;;
  run_commands (create_repo_block this last) ;;
  last <- last_year ;;
  chdir ('"/tmp/create-repo/" ++ str_of_int last ++ '".git") ;;
  this <- this_year ;;
  run_commands (push_block this) ;;
  rmtree '"/tmp/create-repo/" ;;
  print ('"Created: https://github.com/" ++ repo).

(** [clone_repo()]. *)
Definition clone_repo : M W unit :=
  mkdir '"/tmp/update-repo" ;;
  this <- this_year ;;
  again <- this_year ;;
  run_commands ('"git clone https://github.com/hugovk/" ++ str_of_int this
                  ++ '" /tmp/update-repo/" ++ str_of_int again).

(** A [for] loop over a tuple. *)
Fixpoint for_each {A : Type} (body : A -> M W unit) (items : list A)
  : M W unit :=
  match items with
  | [] => ret tt
  | x :: rest => body x ;; for_each body rest
  end.

(** [create_labels()]. *)
Definition create_labels : M W unit :=
  this <- this_year ;;
  chdir ('"/tmp/update-repo/" ++ str_of_int this) ;;
  last <- last_year ;;
  run_commands ('"gh label clone NaNoGenMo/" ++ str_of_int last) ;;
  run_commands '"gh label list" ;;
  for_each (fun old => run_commands (delete_command old)) default_labels ;;
  run_commands '"gh label list" ;;
  this <- this_year ;;
  print ('"https://github.com/hugovk/" ++ str_of_int this ++ '"/labels").

(** One [if args.flag: operation()] of [main]. *)
Definition when (flag : bool) (operation : M W unit) : M W unit :=
  if flag then operation else ret tt.

(** [main()], from the parsed switches on. *)
Definition main (a : args) : M W unit :=
  when (arg_create_repo a) create_repo ;;
  when (arg_clone_repo a) clone_repo ;;
  when (arg_update_readme a) update_readme ;;
  when (arg_create_labels a) create_labels ;;
  when (arg_create_issues a) create_issues.

(** A computation that leaves a resolved year as it is. *)
Definition keeps_year {A : Type} (m : M W A) : Prop :=
  forall y p, settled y p -> settled y (snd (m p)).

End Operations.

(** In the small world every directory can be made, and removing a
    directory removes the files below it. *)
#[export] Instance sim_FS : FS sim := {
  os_mkdir path w := Some w;
  os_rmtree path w :=
    mkSim (sim_year w)
          (filter (fun f => negb (startswith path (fst f))) (sim_files w))
          (sim_ran w)
}.

(** A rougher world: chosen commands fail with status 1, and while chosen
    commands run the clock moves on to the next year. *)
Record rough : Type := mkRough {
  rough_sim : sim;
  rough_failing : list str;
  rough_new_year : list str
}.

#[export] Instance rough_OS : OS rough := {
  now_year w := sim_year (rough_sim w);
  sh cmd w :=
    (if existsb (str_eqb cmd) (rough_failing w) then 1%Z else 0%Z,
     mkRough
       (mkSim (if existsb (str_eqb cmd) (rough_new_year w)
               then (sim_year (rough_sim w) + 1)%Z
               else sim_year (rough_sim w))
              (sim_files (rough_sim w))
              (sim_ran (rough_sim w) ++ [cmd]))
       (rough_failing w) (rough_new_year w));
  os_chdir path w := Some w;
  read_text path w := lookup path (sim_files (rough_sim w));
  write_text path text w :=
    Some (mkRough
            (mkSim (sim_year (rough_sim w))
                   ((path, text) :: sim_files (rough_sim w))
                   (sim_ran (rough_sim w)))
            (rough_failing w) (rough_new_year w))
}.

#[export] Instance rough_FS : FS rough := {
  os_mkdir path w := Some w;
  os_rmtree path w :=
    mkRough (os_rmtree path (rough_sim w)) (rough_failing w)
            (rough_new_year w)
}.

(** The working copy of 2024 before the update: the sample README. *)
Definition sample_world : sim :=
  mkSim 2024 [('"README.md", sample_readme)] [].

(** The same working copy once the updated README is written. *)
Definition sample_world_written : sim :=
  mkSim 2024
        [('"README.md", update_readme_text 2024 2023 sample_readme);
         ('"README.md", sample_readme)] [].

(* ================================================================== *)
(** * Blocks of commands *)
(* ================================================================== *)

(** A line as [run_commands] will see it: nothing for a line of spaces
    and tabs, else the line without the margin [m]. *)
Definition body_of (m raw : str) : str :=
  if forallb is_sp_tab raw then [] else skipn (length m) raw.

(** A line of a block is blank, or the margin [m] and then a character
    other than space and tab. *)
Definition well_indented (m raw : str) : bool :=
  forallb is_sp_tab raw ||
  (startswith m raw &&
   match skipn (length m) raw with
   | c :: _ => negb (is_sp_tab c)
   | [] => false
   end).

(** The line begins with a character other than space and tab. *)
Definition starts_plain (line : str) : bool :=
  match line with
  | c :: _ => negb (is_sp_tab c)
  | [] => false
  end.

(** A line without any line terminator. *)
Definition one_line (raw : str) : bool :=
  forallb (fun c => negb (is_linebreak c)) raw.

(** A block of spaces, tabs and line feeds only. *)
Definition all_blank (commands : str) : bool :=
  forallb (fun c => is_sp_tab c || Ascii.eqb c LF) commands.

Definition nonempty (line : str) : bool := negb (Nat.eqb (length line) 0).

(** ** The lines of a block, said without [dedent] *)

(** [m] is the common margin of [lines]: it is made of spaces and tabs,
    every line begins with it, and the lines do not all go on with the
    same space or tab after it.  (Of no lines, any run of spaces and tabs
    is a margin.) *)
Definition is_margin (m : str) (lines : list str) : bool :=
  forallb is_sp_tab m && forallb (startswith m) lines &&
  match lines with
  | [] => true
  | _ :: _ =>
      negb (forallb (startswith (m ++ [SP])) lines) &&
      negb (forallb (startswith (m ++ [TAB])) lines)
  end.

(** The lines of a block that are not blank, as they are written: the
    block is cut at its line feeds, and the lines that hold a character
    other than space and tab are kept. *)
Definition nonblank_lines (commands : str) : list str :=
  filter has_text (split_nl commands).

(** A block with CR LF line ends and a line of two spaces. *)
Definition crlf_block : str :=
  '"git status" ++ [CR; LF] ++ '"  " ++ [CR; LF] ++ '"git push" ++ [CR; LF].

(** ** The commands of each operation *)

Definition create_repo_commands (this last : Z) : list str :=
  [ '"# Create destination repo on GitHub";
    '"gh repo create " ++ str_of_int this ++ '" --private";
    '"# Make a bare clone of the repository";
    '"git clone --bare https://github.com/NaNoGenMo/" ++ str_of_int last
      ++ '".git" ].

Definition push_commands (this : Z) : list str :=
  [ '"# Mirror-push to the new repository";
    '"git push --mirror https://github.com/hugovk/" ++ str_of_int this
      ++ '".git" ].

Definition label_commands (last : Z) : list str :=
  [ '"gh label clone NaNoGenMo/" ++ str_of_int last; '"gh label list" ]
  ++ map delete_command default_labels ++ [ '"gh label list" ].

Definition git_commands (this last : Z) : list str :=
  [ '"git add README.md";
    '"git commit -m '" ++ str_of_int last ++ '" -> " ++ str_of_int this
      ++ '"'";
    '"git push" ].

Definition issue_commands : list str :=
  [ '"gh issue create --label " ++ [DQ] ++ '"admin" ++ [DQ]
      ++ '" --body-file " ++ [DQ] ++ '"/tmp/issue1.txt" ++ [DQ]
      ++ '" --title " ++ [DQ] ++ '"Resources" ++ [DQ];
    '"gh issue create --label " ++ [DQ] ++ '"admin" ++ [DQ]
      ++ '" --body-file " ++ [DQ] ++ '"/tmp/issue2.txt" ++ [DQ]
      ++ '" --title " ++ [DQ] ++ '"Press and other coverage" ++ [DQ];
    '"gh issue list" ].

(** ** From one year to the next *)

(** [carry_ok pairs next]: what lets next year's update find its texts in
    this year's result.  The new text of each replacement holds next
    year's old text; an old text is apart from the old texts replaced
    before it; next year's old text is apart from the old texts replaced
    after it. *)
Definition carry_ok (pairs next : list (str * str)) : bool :=
  forallb (fun k =>
    infix (old_of next k) (new_of pairs k) &&
    forallb (fun j =>
      if Nat.ltb j k then apart (old_of pairs k) (old_of pairs j)
      else if Nat.ltb k j then apart (old_of next k) (old_of pairs j)
      else true) (seq 0 5)) (seq 0 5).

(* ================================================================== *)
(** * Lemmas on strings *)
(* ================================================================== *)

Lemma ascii_eqb_true (a b : ascii) : Ascii.eqb a b = true -> a = b.
Proof. apply Ascii.eqb_eq. Qed.

Lemma startswith_app (p t : str) : startswith p (p ++ t) = true.
Proof.
  induction p as [|a p IH]; simpl; [reflexivity|].
  now rewrite Ascii.eqb_refl.
Qed.

Lemma startswith_inv (p s : str) :
  startswith p s = true -> exists t, s = p ++ t.
Proof.
  revert s; induction p as [|a p IH]; intros s Hs.
  - now exists s.
  - destruct s as [|b s]; simpl in Hs; [discriminate|].
    apply andb_prop in Hs as [Hab Hps].
    apply ascii_eqb_true in Hab; subst b.
    destruct (IH _ Hps) as [t ->].
    now exists t.
Qed.

Lemma startswith_skipn (p t : str) : skipn (length p) (p ++ t) = t.
Proof. induction p; simpl; auto. Qed.

Lemma startswith_longer (p x y : str) :
  startswith p (x ++ y) = true -> length p <= length x ->
  startswith p x = true.
Proof.
  revert x; induction p as [|a p IH]; intros x Hs Hl; [reflexivity|].
  destruct x as [|b x]; simpl in *; [lia|].
  apply andb_prop in Hs as [-> Hs]; simpl.
  apply IH; [assumption | lia].
Qed.

Lemma startswith_weaken (p x y : str) :
  startswith p x = true -> startswith p (x ++ y) = true.
Proof.
  intros Hs; destruct (startswith_inv _ _ Hs) as [t ->].
  rewrite <- app_assoc; apply startswith_app.
Qed.

Lemma infix_cons (p : str) (c : ascii) (s : str) :
  infix p (c :: s) = startswith p (c :: s) || infix p s.
Proof. reflexivity. Qed.

Lemma infix_startswith (p s : str) : startswith p s = true -> infix p s = true.
Proof. intros Hs; destruct s; simpl in *; rewrite Hs; reflexivity. Qed.

Lemma infix_intro (a p b : str) : infix p (a ++ p ++ b) = true.
Proof.
  induction a as [|c a IH]; simpl.
  - apply infix_startswith, startswith_app.
  - rewrite IH; apply orb_true_r.
Qed.

Lemma infix_inv (p s : str) :
  infix p s = true -> exists a b, s = a ++ p ++ b.
Proof.
  induction s as [|c s IH]; simpl; intros Hi.
  - rewrite orb_false_r in Hi.
    destruct (startswith_inv _ _ Hi) as [t Ht]; now exists [], t.
  - apply orb_prop in Hi as [Hs | Hi].
    + destruct (startswith_inv _ _ Hs) as [t Ht]; now exists [], t.
    + destruct (IH Hi) as (a & b & ->); now exists (c :: a), b.
Qed.

Lemma infix_app_l (p a b : str) : infix p a = true -> infix p (a ++ b) = true.
Proof.
  intros Hi; destruct (infix_inv _ _ Hi) as (u & v & ->).
  rewrite <- !app_assoc; apply infix_intro.
Qed.

Lemma infix_app_r (p a b : str) : infix p b = true -> infix p (a ++ b) = true.
Proof.
  intros Hi; destruct (infix_inv _ _ Hi) as (u & v & ->).
  rewrite app_assoc; apply infix_intro.
Qed.

Lemma infix_false_app_l (p a b : str) :
  infix p (a ++ b) = false -> infix p a = false.
Proof.
  intros Hf; destruct (infix p a) eqn:E; [|reflexivity].
  now rewrite (infix_app_l _ _ b E) in Hf.
Qed.

Lemma infix_false_app_r (p a b : str) :
  infix p (a ++ b) = false -> infix p b = false.
Proof.
  intros Hf; destruct (infix p b) eqn:E; [|reflexivity].
  now rewrite (infix_app_r _ a _ E) in Hf.
Qed.

Lemma infix_length (p s : str) : infix p s = true -> length p <= length s.
Proof.
  intros Hi; destruct (infix_inv _ _ Hi) as (a & b & ->).
  rewrite !length_app; lia.
Qed.

Lemma infix_removelast (old : str) :
  old <> [] -> infix old (removelast old) = false.
Proof.
  intros Hne; destruct (infix old (removelast old)) eqn:E; [|reflexivity].
  apply infix_length in E.
  rewrite (app_removelast_last SP Hne) in E at 1.
  rewrite length_app in E; simpl in E; lia.
Qed.

(* ================================================================== *)
(** * The scan of [replace] *)
(* ================================================================== *)

Lemma replace_scan_skip (old new : str) (k : nat) (s : str) :
  replace_scan old new k s = replace_scan old new 0 (skipn k s).
Proof.
  revert k; induction s as [|c s IH]; intros [|k]; try reflexivity.
  simpl; apply IH.
Qed.

Lemma split_scan_skip (old : str) (k : nat) (s : str) :
  split_scan old k s = split_scan old 0 (skipn k s).
Proof.
  revert k; induction s as [|c s IH]; intros [|k]; try reflexivity.
  simpl; apply IH.
Qed.

Section Scan.

Variables old new : str.
Hypothesis old_nonempty : old <> [].

Lemma replace_nil : replace old new [] = [].
Proof. destruct old; [contradiction | reflexivity]. Qed.

(** At a match the scan writes [new] and goes on after the match. *)
Lemma replace_at_match (t : str) :
  replace old new (old ++ t) = new ++ replace old new t.
Proof.
  destruct old as [|a o] eqn:E; [contradiction|].
  unfold replace.
  change ((a :: o) ++ t) with (a :: (o ++ t)).
  change (replace_scan (a :: o) new 0 (a :: o ++ t))
    with (if startswith (a :: o) (a :: o ++ t)
          then new ++ replace_scan (a :: o) new (length (a :: o) - 1) (o ++ t)
          else a :: replace_scan (a :: o) new 0 (o ++ t)).
  change (a :: o ++ t) with ((a :: o) ++ t).
  rewrite startswith_app, replace_scan_skip.
  replace (length (a :: o) - 1) with (length o) by (simpl; lia).
  now rewrite startswith_skipn.
Qed.

(** Where no match begins the scan copies one character. *)
Lemma replace_no_match (c : ascii) (s : str) :
  startswith old (c :: s) = false ->
  replace old new (c :: s) = c :: replace old new s.
Proof.
  intros Hs; destruct old as [|a o] eqn:E; [contradiction|].
  unfold replace.
  change (replace_scan (a :: o) new 0 (c :: s))
    with (if startswith (a :: o) (c :: s)
          then new ++ replace_scan (a :: o) new (length (a :: o) - 1) s
          else c :: replace_scan (a :: o) new 0 s).
  now rewrite Hs.
Qed.

Lemma split_on_nil : split_on old [] = [[]].
Proof. reflexivity. Qed.

Lemma split_on_at_match (t : str) :
  split_on old (old ++ t) = [] :: split_on old t.
Proof.
  destruct old as [|a o] eqn:E; [contradiction|].
  unfold split_on.
  change ((a :: o) ++ t) with (a :: (o ++ t)).
  change (split_scan (a :: o) 0 (a :: o ++ t))
    with (if startswith (a :: o) (a :: o ++ t)
          then [] :: split_scan (a :: o) (length (a :: o) - 1) (o ++ t)
          else cons_head a (split_scan (a :: o) 0 (o ++ t))).
  change (a :: o ++ t) with ((a :: o) ++ t).
  rewrite startswith_app, split_scan_skip.
  replace (length (a :: o) - 1) with (length o) by (simpl; lia).
  now rewrite startswith_skipn.
Qed.

Lemma split_on_no_match (c : ascii) (s : str) :
  startswith old (c :: s) = false ->
  split_on old (c :: s) = cons_head c (split_on old s).
Proof.
  intros Hs; unfold split_on.
  change (split_scan old 0 (c :: s))
    with (if startswith old (c :: s)
          then [] :: split_scan old (length old - 1) s
          else cons_head c (split_scan old 0 s)).
  now rewrite Hs.
Qed.

(** Induction along the scan: at each position either a match begins, and
    the scan jumps over it, or it moves on by one character. *)
Lemma scan_ind (P : str -> Prop) :
  P [] ->
  (forall t, P t -> P (old ++ t)) ->
  (forall c s, startswith old (c :: s) = false -> P s -> P (c :: s)) ->
  forall s, P s.
Proof.
  intros Hnil Hmatch Hstep s.
  remember (length s) as n eqn:Hn.
  revert s Hn; induction n as [n IH] using lt_wf_ind; intros s Hn.
  destruct s as [|c s]; [exact Hnil|].
  destruct (startswith old (c :: s)) eqn:E.
  - destruct (startswith_inv _ _ E) as [t Ht]; rewrite Ht.
    apply Hmatch, (IH (length t)); [|reflexivity].
    subst n; rewrite Ht, length_app.
    destruct old; [contradiction | simpl; lia].
  - apply Hstep; [exact E|].
    apply (IH (length s)); [subst n; simpl; lia | reflexivity].
Qed.

Lemma split_on_nonempty (s : str) : split_on old s <> [].
Proof.
  induction s as [|t IH|c s Hs IH] using scan_ind.
  - discriminate.
  - rewrite split_on_at_match; discriminate.
  - rewrite split_on_no_match by assumption.
    destruct (split_on old s); discriminate.
Qed.

Lemma join_cons_head (sep : str) (c : ascii) (segs : list str) :
  segs <> [] -> join sep (cons_head c segs) = c :: join sep segs.
Proof.
  destruct segs as [|seg rest]; [contradiction|intros _].
  destruct rest; reflexivity.
Qed.

Lemma join_cons (sep seg : str) (rest : list str) :
  rest <> [] -> join sep (seg :: rest) = seg ++ sep ++ join sep rest.
Proof. destruct rest; [contradiction | reflexivity]. Qed.

(** The pieces joined by [old] give the string back. *)
Lemma join_split_on (s : str) : join old (split_on old s) = s.
Proof.
  induction s as [|t IH|c s Hs IH] using scan_ind.
  - reflexivity.
  - rewrite split_on_at_match, join_cons by apply split_on_nonempty.
    now rewrite IH.
  - rewrite split_on_no_match, join_cons_head
      by (assumption || apply split_on_nonempty).
    now rewrite IH.
Qed.

(** [replace] joins the same pieces by [new]. *)
Lemma replace_join_split (s : str) :
  replace old new s = join new (split_on old s).
Proof.
  induction s as [|t IH|c s Hs IH] using scan_ind.
  - apply replace_nil.
  - rewrite replace_at_match, split_on_at_match, join_cons
      by apply split_on_nonempty.
    now rewrite IH.
  - rewrite replace_no_match, split_on_no_match, join_cons_head
      by (assumption || apply split_on_nonempty).
    now rewrite IH.
Qed.

(** A string without [old] is left as it is. *)
Lemma replace_absent (s : str) : infix old s = false -> replace old new s = s.
Proof.
  induction s as [|c s IH]; intros Hi; [apply replace_nil|].
  rewrite infix_cons in Hi; apply orb_false_elim in Hi as [Hs Hi].
  rewrite replace_no_match by assumption.
  now rewrite IH.
Qed.

(** If no occurrence of [old] begins inside [a], the first match in
    [a ++ old ++ b] is the marked one. *)
Lemma replace_first_match (a b : str) :
  infix old (a ++ removelast old) = false ->
  replace old new (a ++ old ++ b) = a ++ new ++ replace old new b.
Proof.
  induction a as [|c a IH]; intros Hi; [apply replace_at_match|].
  simpl in Hi; apply orb_false_elim in Hi as [Hs Hi].
  change ((c :: a) ++ old ++ b) with (c :: (a ++ old ++ b)).
  rewrite replace_no_match; [now simpl; rewrite IH|].
  destruct (startswith old (c :: a ++ old ++ b)) eqn:E; [|reflexivity].
  rewrite <- Hs; symmetry.
  rewrite (app_removelast_last SP old_nonempty) in E at 2.
  rewrite <- app_assoc, app_comm_cons, app_assoc in E.
  apply startswith_longer in E; [exact E|].
  simpl; rewrite length_app.
  rewrite (app_removelast_last SP old_nonempty) at 1.
  rewrite length_app; simpl; lia.
Qed.

Lemma greedy_tail (seg : str) (rest : list str) :
  greedy old (seg :: rest) -> greedy old rest.
Proof. destruct rest; simpl; [trivial | tauto]. Qed.

(** Along pieces that are [greedy] the scan finds exactly the copies of
    [old] that join them. *)
Lemma replace_join_greedy (segs : list str) :
  greedy old segs -> replace old new (join old segs) = join new segs.
Proof.
  induction segs as [|seg rest IH]; intros Hg; [apply replace_nil|].
  destruct rest as [|seg' rest].
  - simpl in *; now apply replace_absent.
  - destruct Hg as [Hseg Hrest].
    rewrite !join_cons by discriminate.
    rewrite replace_first_match by assumption.
    now rewrite IH.
Qed.

(** In a greedy list no piece holds [old]. *)
Lemma greedy_pieces (segs : list str) :
  greedy old segs -> Forall (fun seg => infix old seg = false) segs.
Proof.
  induction segs as [|seg rest IH]; intros Hg; constructor.
  - destruct rest; simpl in Hg; [assumption|].
    destruct Hg as [Hseg _]; now apply infix_false_app_l in Hseg.
  - apply IH, (greedy_tail _ _ Hg).
Qed.

(** The pieces that the scan cuts are greedy. *)
Lemma greedy_split_on (s : str) : greedy old (split_on old s).
Proof.
  induction s as [|t IH|c s Hs IH] using scan_ind.
  - simpl. destruct old; [contradiction | reflexivity].
  - rewrite split_on_at_match.
    pose proof (split_on_nonempty t) as Hne.
    destruct (split_on old t) as [|seg rest]; [contradiction|].
    split; [apply infix_removelast, old_nonempty | exact IH].
  - rewrite split_on_no_match by assumption.
    pose proof (split_on_nonempty s) as Hne.
    pose proof (join_split_on s) as Hj.
    destruct (split_on old s) as [|seg rest]; [contradiction|].
    destruct rest as [|seg' rest]; simpl cons_head.
    + simpl in IH, Hj; subst seg.
      simpl; rewrite Hs, IH; reflexivity.
    + destruct IH as [Hseg Hrest]; split; [|exact Hrest].
      simpl; rewrite Hseg, orb_false_r.
      destruct (startswith old (c :: seg ++ removelast old)) eqn:E;
        [|reflexivity].
      rewrite <- Hs, <- Hj, join_cons by discriminate.
      rewrite (app_removelast_last SP old_nonempty) at 2.
      rewrite <- !app_assoc, app_comm_cons, 2!app_assoc, <- app_assoc.
      change (c :: seg ++ removelast old) with ((c :: seg) ++ removelast old)
        in E.
      symmetry; rewrite <- app_assoc.
      rewrite app_assoc.
      now apply startswith_weaken.
Qed.

End Scan.

(* ================================================================== *)
(** * Texts that are apart *)
(* ================================================================== *)

Lemma agree_sym (x y : str) : agree x y = agree y x.
Proof.
  revert y; induction x as [|a x IH]; intros [|b y]; simpl; try reflexivity.
  now rewrite IH, Ascii.eqb_sym.
Qed.

(** Two strings that begin the same text agree. *)
Lemma agree_app_eq (p v x y : str) : x ++ y = p ++ v -> agree p x = true.
Proof.
  revert x; induction p as [|a p IH]; intros [|b x] E; simpl; try reflexivity.
  injection E as -> E.
  rewrite Ascii.eqb_refl; simpl; now apply IH.
Qed.

Lemma tails_apart_suffix (q c q1 q2 : str) :
  tails_apart q c = true -> q = q1 ++ q2 -> q2 <> [] -> agree q2 c = false.
Proof.
  revert q; induction q1 as [|x q1 IH]; intros q Ht -> Hne.
  - destruct q2 as [|y q2]; [contradiction|].
    simpl in Ht; apply andb_prop in Ht as [Ht _].
    now apply negb_true_iff in Ht.
  - simpl in Ht; apply andb_prop in Ht as [_ Ht].
    now apply (IH _ Ht).
Qed.

(** An occurrence of [p] in a text around a copy of [c] lies wholly before
    or wholly after the copy when [p] is apart from [c]. *)
Lemma apart_split (p c a b : str) :
  apart p c = true -> infix p (a ++ c ++ b) = true ->
  infix p a = true \/ infix p b = true.
Proof.
  intros Hap Hi; apply andb_prop in Hap as [Hin Hrun].
  destruct (infix_inv _ _ Hi) as (u & v & E).
  destruct (app_eq_app _ _ _ _ E) as [l [[Ea Ev] | [Eu Ec]]].
  - destruct (app_eq_app _ _ _ _ Ev) as [l' [[Ep Ecb] | [El Ev']]].
    + destruct l' as [|x l'].
      * left; rewrite app_nil_r in Ep; subst l a.
        rewrite <- (app_nil_r p) at 2; apply infix_intro.
      * destruct l as [|y l].
        -- simpl in Ep; subst p.
           destruct c as [|z c].
           ++ right; simpl in Ecb; rewrite Ecb.
              apply (infix_intro [] (x :: l') v).
           ++ exfalso.
              pose proof (tails_apart_suffix _ _ [] (z :: c) Hin eq_refl
                            ltac:(discriminate)) as Hno.
              rewrite agree_sym, (agree_app_eq _ v _ b Ecb) in Hno.
              discriminate.
        -- exfalso; subst p.
           pose proof (tails_apart_suffix _ _ l (x :: l') Hrun eq_refl
                         ltac:(discriminate)) as Hno.
           rewrite agree_sym, (agree_app_eq c b (x :: l') v) in Hno;
             [discriminate | now symmetry].
    + left; subst a l; apply infix_intro.
  - destruct (app_eq_app _ _ _ _ Ec) as [l' [[Ec' Epv] | [El Eb]]].
    + destruct l' as [|x l'].
      * right; simpl in Epv; rewrite <- Epv.
        apply (infix_intro [] p v).
      * exfalso.
        pose proof (tails_apart_suffix _ _ l (x :: l') Hin Ec'
                      ltac:(discriminate)) as Hno.
        rewrite (agree_app_eq (x :: l') b p v) in Hno;
          [discriminate | exact Epv].
    + right; subst b; apply infix_intro.
Qed.

Lemma infix_join_member (p sep : str) (segs : list str) :
  Exists (fun seg => infix p seg = true) segs ->
  infix p (join sep segs) = true.
Proof.
  induction segs as [|seg rest IH]; intros Hex; inversion Hex; subst.
  - destruct rest; [assumption|].
    rewrite join_cons by discriminate; now apply infix_app_l.
  - destruct rest as [|seg' rest]; [inversion H0|].
    rewrite join_cons by discriminate.
    now apply infix_app_r, infix_app_r, IH.
Qed.

(** An occurrence of [p] in pieces joined by copies of [c] lies inside one
    piece when [p] is apart from [c]. *)
Lemma infix_join_apart (p c : str) (segs : list str) :
  apart p c = true -> segs <> [] -> infix p (join c segs) = true ->
  Exists (fun seg => infix p seg = true) segs.
Proof.
  intros Hap; induction segs as [|seg rest IH]; intros Hne Hi;
    [contradiction|].
  destruct rest as [|seg' rest]; [now constructor|].
  rewrite join_cons in Hi by discriminate.
  destruct (apart_split _ _ _ _ Hap Hi) as [Hseg | Hrest].
  - now constructor.
  - apply Exists_cons_tl, IH; [discriminate | assumption].
Qed.

(** Inside a stretch none of whose suffixes agrees with [p], no occurrence
    of [p] begins. *)
Lemma occurrences_skip (p x t : str) :
  tails_apart x p = true -> occurrences p (x ++ t) = occurrences p t.
Proof.
  induction x as [|a x IH]; intros Hx; [reflexivity|].
  change (tails_apart (a :: x) p)
    with (negb (agree (a :: x) p) && tails_apart x p) in Hx.
  apply andb_prop in Hx as [Ha Hx].
  apply negb_true_iff in Ha.
  change (occurrences p ((a :: x) ++ t))
    with ((if startswith p ((a :: x) ++ t) then 1 else 0)
          + occurrences p (x ++ t)).
  rewrite (IH Hx).
  destruct (startswith p ((a :: x) ++ t)) eqn:E; [|reflexivity].
  destruct (startswith_inv _ _ E) as [v Hv].
  rewrite (agree_app_eq (a :: x) t p v) in Ha; [discriminate | now symmetry].
Qed.

(** When [old] does not overlap itself, the scan finds every occurrence:
    there is one more piece than there are occurrences. *)
Lemma split_on_occurrences (old s : str) :
  old <> [] -> tails_apart (tl old) old = true ->
  length (split_on old s) = S (occurrences old s).
Proof.
  intros Hne Hself.
  induction s as [|t IH|c s Hs IH] using (scan_ind old Hne).
  - destruct old; [contradiction | reflexivity].
  - rewrite split_on_at_match by assumption.
    destruct old as [|a o] eqn:E; [contradiction|].
    change (occurrences (a :: o) ((a :: o) ++ t))
      with ((if startswith (a :: o) ((a :: o) ++ t) then 1 else 0)
            + occurrences (a :: o) (o ++ t)).
    rewrite startswith_app, occurrences_skip by exact Hself.
    cbn [length Nat.add]; now rewrite IH.
  - rewrite split_on_no_match by assumption.
    change (occurrences old (c :: s))
      with ((if startswith old (c :: s) then 1 else 0) + occurrences old s).
    rewrite Hs; cbn [Nat.add]; rewrite <- IH.
    pose proof (split_on_nonempty old Hne s).
    destruct (split_on old s); [contradiction | reflexivity].
Qed.

Section Replace_apart.

Variables old new : str.
Hypothesis old_nonempty : old <> [].

(** After the replacement [old] is gone, if it is apart from [new]. *)
Lemma replace_removes (s : str) :
  apart old new = true -> infix old (replace old new s) = false.
Proof.
  intros Hap; destruct (infix old (replace old new s)) eqn:E; [|reflexivity].
  rewrite replace_join_split in E by assumption.
  apply infix_join_apart in E;
    [|assumption | now apply split_on_nonempty].
  pose proof (greedy_pieces old (split_on old s)
                (greedy_split_on old old_nonempty s)) as Hall.
  rewrite Forall_forall in Hall; rewrite Exists_exists in E.
  destruct E as (seg & Hin & Hseg).
  now rewrite (Hall seg Hin) in Hseg.
Qed.

(** The replacement creates no occurrence of a text apart from [new]. *)
Lemma replace_creates_none (p s : str) :
  apart p new = true -> infix p s = false ->
  infix p (replace old new s) = false.
Proof.
  intros Hap Hs; destruct (infix p (replace old new s)) eqn:E; [|reflexivity].
  rewrite replace_join_split in E by assumption.
  apply infix_join_apart in E;
    [|assumption | now apply split_on_nonempty].
  apply (infix_join_member p old) in E.
  rewrite join_split_on in E by assumption; congruence.
Qed.

(** The replacement destroys no occurrence of a text apart from [old]. *)
Lemma replace_keeps (q s : str) :
  apart q old = true -> infix q s = true ->
  infix q (replace old new s) = true.
Proof.
  intros Hap Hs.
  rewrite replace_join_split by assumption.
  apply infix_join_member, (infix_join_apart q old);
    [assumption | now apply split_on_nonempty|].
  now rewrite join_split_on.
Qed.

(** Where [old] occurs, [new] stands afterwards. *)
Lemma replace_puts_new (s : str) :
  infix old s = true -> infix new (replace old new s) = true.
Proof.
  induction s as [|t IH|c s Hs IH] using (scan_ind old old_nonempty);
    intros Hi.
  - destruct old; [contradiction | discriminate].
  - rewrite replace_at_match by assumption.
    apply (infix_intro [] new).
  - rewrite infix_cons, Hs in Hi; simpl in Hi.
    rewrite replace_no_match by assumption.
    rewrite infix_cons, (IH Hi); apply orb_true_r.
Qed.

End Replace_apart.

(* ================================================================== *)
(** * The texts of the README updater are apart *)
(* ================================================================== *)

Lemma year_char_neq (a y : ascii) :
  is_year_char a = true -> is_year_char y = false -> Ascii.eqb a y = false.
Proof.
  intros Ha Hy; destruct (Ascii.eqb a y) eqn:E; [|reflexivity].
  apply Ascii.eqb_eq in E; congruence.
Qed.

(** No suffix that begins inside a formatted year agrees with a text that
    begins with another kind of character. *)
Lemma tails_apart_years (s q D : str) (y : ascii) :
  forallb is_year_char s = true -> is_year_char y = false ->
  tails_apart (s ++ q) (y :: D) = tails_apart q (y :: D).
Proof.
  intros Hs Hy; induction s as [|a s IH]; [reflexivity|].
  simpl in Hs; apply andb_prop in Hs as [Ha Hs].
  simpl; rewrite (year_char_neq _ _ Ha Hy); simpl; now apply IH.
Qed.

Lemma tails_apart_years_end (s D : str) (y : ascii) :
  forallb is_year_char s = true -> is_year_char y = false ->
  tails_apart s (y :: D) = true.
Proof.
  intros Hs Hy; rewrite <- (app_nil_r s), tails_apart_years by assumption.
  reflexivity.
Qed.

Lemma agree_years_lit (s B D : str) (y : ascii) :
  s <> [] -> forallb is_year_char s = true -> is_year_char y = false ->
  agree (s ++ B) (y :: D) = false.
Proof.
  intros Hne Hs Hy; destruct s as [|a s]; [contradiction|].
  simpl in Hs; apply andb_prop in Hs as [Ha Hs].
  simpl; now rewrite (year_char_neq _ _ Ha Hy).
Qed.

Lemma agree_lit_years (s B D : str) (y : ascii) :
  s <> [] -> forallb is_year_char s = true -> is_year_char y = false ->
  agree (y :: D) (s ++ B) = false.
Proof. intros; rewrite agree_sym; now apply agree_years_lit. Qed.

Lemma agree_same_years (s B D : str) : agree (s ++ B) (s ++ D) = agree B D.
Proof.
  induction s as [|a s IH]; [reflexivity|].
  simpl; now rewrite Ascii.eqb_refl.
Qed.

(** Two different formatted years, each followed by a character of another
    kind, do not agree. *)
Lemma agree_other_years (s s' B D : str) (x y : ascii) :
  str_eqb s s' = false ->
  forallb is_year_char s = true -> forallb is_year_char s' = true ->
  is_year_char x = false -> is_year_char y = false ->
  agree (s ++ x :: B) (s' ++ y :: D) = false.
Proof.
  intros Hne Hs Hs' Hx Hy; revert s' Hne Hs'.
  induction s as [|a s IH]; intros [|b s'] Hne Hs'.
  - discriminate.
  - simpl in Hs'; apply andb_prop in Hs' as [Hb _].
    simpl; rewrite Ascii.eqb_sym, (year_char_neq _ _ Hb Hx); reflexivity.
  - simpl in Hs; apply andb_prop in Hs as [Ha _].
    simpl; rewrite (year_char_neq _ _ Ha Hy); reflexivity.
  - simpl in Hs, Hs'.
    apply andb_prop in Hs as [Ha Hs]; apply andb_prop in Hs' as [Hb Hs'].
    simpl; destruct (Ascii.eqb a b) eqn:E; [simpl|reflexivity].
    apply IH; try assumption.
    unfold str_eqb in *; simpl in Hne; rewrite E in Hne; exact Hne.
Qed.

Lemma str_eqb_sym (a b : str) : str_eqb a b = str_eqb b a.
Proof. unfold str_eqb; now rewrite Nat.eqb_sym, agree_sym. Qed.

Section Texts.

Variables sP sL sT : str.
Hypothesis formats : formatted_ok sP sL sT = true.

Lemma formatted_facts :
  (sP <> [] /\ forallb is_year_char sP = true) /\
  (sL <> [] /\ forallb is_year_char sL = true) /\
  (sT <> [] /\ forallb is_year_char sT = true) /\
  str_eqb sP sL = false /\ str_eqb sP sT = false /\
  str_eqb sL sT = false /\ agree sL sT = false.
Proof.
  pose proof formats as Hok; unfold formatted_ok in Hok.
  repeat (apply andb_prop in Hok as [Hok ?]).
  simpl in Hok.
  repeat (apply andb_prop in Hok as [? Hok]).
  repeat match goal with
         | H : _ && _ = true |- _ => apply andb_prop in H as [? ?]
         end.
  repeat match goal with
         | H : negb _ = true |- _ => apply negb_true_iff in H
         end.
  repeat match goal with
         | H : Nat.eqb (List.length ?s) 0 = false |- _ =>
             assert (s <> []) by (intros ->; discriminate); clear H
         end.
  tauto.
Qed.

(** One step of the comparison of two texts with open years: past a year,
    or to a verdict where a year meets a character of the text. *)
Ltac years_step Hprefix :=
  first
  [ rewrite tails_apart_years by (assumption || reflexivity)
  | rewrite (tails_apart_years_end sP) by (assumption || reflexivity)
  | rewrite (tails_apart_years_end sL) by (assumption || reflexivity)
  | rewrite (tails_apart_years_end sT) by (assumption || reflexivity)
  | rewrite agree_same_years
  | rewrite agree_years_lit by (assumption || reflexivity)
  | rewrite agree_lit_years by (assumption || reflexivity)
  | rewrite agree_other_years by (assumption || reflexivity)
  | rewrite Hprefix
  | rewrite (agree_sym sT sL), Hprefix ].

(** Whatever the three years are, their texts satisfy [pairs_ok]. *)
Lemma pairs_ok_texts : pairs_ok (readme_texts sP sL sT) = true.
Proof.
  destruct formatted_facts
    as ((HP0 & HP) & (HL0 & HL) & (HT0 & HT) & HPL & HPT & HLT & Hprefix).
  assert (HLP : str_eqb sL sP = false) by now rewrite str_eqb_sym.
  assert (HTP : str_eqb sT sP = false) by now rewrite str_eqb_sym.
  assert (HTL : str_eqb sT sL = false) by now rewrite str_eqb_sym.
  unfold pairs_ok.
  rewrite !andb_true_iff.
  repeat match goal with |- _ /\ _ => split end.
  - reflexivity.
  - reflexivity.
  - cbn [forallb seq Nat.ltb Nat.leb orb].
    unfold old_of, new_of, readme_texts, nth, fst, snd.
    repeat (apply andb_true_intro; split); try reflexivity.
    all: unfold apart.
    all: repeat (cbn; try years_step Hprefix); reflexivity.
  - cbn [forallb seq].
    unfold old_of, new_of, readme_texts, nth, fst, snd.
    repeat (apply andb_true_intro; split); try reflexivity.
    all: unfold apart.
    all: repeat (cbn; try years_step Hprefix); reflexivity.
  - cbn [forallb seq].
    unfold old_of, new_of, readme_texts, nth, fst, snd.
    repeat (apply andb_true_intro; split); try reflexivity.
    all: apply Nat.ltb_lt; repeat rewrite length_app; simpl; lia.
  - cbn [forallb seq].
    unfold old_of, new_of, readme_texts, nth, fst, snd.
    repeat (apply andb_true_intro; split); try reflexivity.
    all: repeat (cbn; try years_step Hprefix); reflexivity.
Qed.

End Texts.

Lemma upto_In (y first : Z) (count : nat) :
  (first <= y < first + Z.of_nat count)%Z -> In y (upto first count).
Proof.
  revert first; induction count as [|n IH]; intros first Hy; [lia|].
  simpl; destruct (Z.eq_dec first y) as [->|Hne]; [now left|right].
  apply IH; lia.
Qed.

Lemma datetime_years_formats : forallb year_formats_ok datetime_years = true.
Proof. vm_compute; reflexivity. Qed.

(** In every year of the calendar the texts of the updater satisfy
    [pairs_ok]. *)
Lemma year_pairs_ok (this : Z) :
  (1 <= this <= 9999)%Z ->
  pairs_ok (readme_replacements this (this - 1)) = true.
Proof.
  intros Hy.
  apply (pairs_ok_texts (str_of_int (this - 1 - 1)) (str_of_int (this - 1))
           (str_of_int this)).
  pose proof datetime_years_formats as Hall.
  rewrite forallb_forall in Hall; apply Hall.
  apply upto_In; lia.
Qed.

(* ================================================================== *)
(** * The loop of replacements *)
(* ================================================================== *)

Lemma firstn_snoc (pairs : list (str * str)) (m : nat) :
  m < length pairs ->
  firstn (S m) pairs = firstn m pairs ++ [nth m pairs ([], [])].
Proof.
  revert m; induction pairs as [|pr pairs IH]; intros m Hm; simpl in Hm.
  - lia.
  - destruct m as [|m]; [reflexivity|].
    change (firstn (S (S m)) (pr :: pairs)) with (pr :: firstn (S m) pairs).
    rewrite IH by lia; reflexivity.
Qed.

Lemma stage_0 (pairs : list (str * str)) (r : str) : stage pairs 0 r = r.
Proof. reflexivity. Qed.

(** One more round of the loop is one more [replace]. *)
Lemma stage_S (pairs : list (str * str)) (m : nat) (r : str) :
  m < length pairs ->
  stage pairs (S m) r
  = replace (old_of pairs m) (new_of pairs m) (stage pairs m r).
Proof.
  intros Hm; unfold stage, apply_replacements.
  rewrite firstn_snoc, fold_left_app by assumption; reflexivity.
Qed.

Lemma stage_all (pairs : list (str * str)) (r : str) :
  stage pairs (length pairs) r = apply_replacements pairs r.
Proof. unfold stage; now rewrite firstn_all. Qed.

Lemma apply_from_stage (pairs : list (str * str)) (m : nat) (r : str) :
  apply_replacements pairs r
  = apply_replacements (skipn m pairs) (stage pairs m r).
Proof.
  unfold stage, apply_replacements.
  now rewrite <- fold_left_app, firstn_skipn.
Qed.

Lemma replace_absent_any (old new s : str) :
  old <> [] -> infix old s = false -> replace old new s = s.
Proof. intros; now apply replace_absent. Qed.

Section Pipeline.

Variable pairs : list (str * str).
Hypothesis ok : pairs_ok pairs = true.

Lemma pairs_ok_facts :
  length pairs = 5 /\
  (forall k, k < 5 -> old_of pairs k <> []) /\
  (forall k j, k < 5 -> j < 5 -> k < 3 \/ j < k ->
     apart (old_of pairs k) (new_of pairs j) = true) /\
  (forall j, 1 <= j < 5 -> apart (new_of pairs 0) (old_of pairs j) = true) /\
  (forall k, 3 <= k < 5 ->
     length (old_of pairs k) < length (new_of pairs k)) /\
  (forall k, k < 5 ->
     tails_apart (tl (old_of pairs k)) (old_of pairs k) = true).
Proof.
  pose proof ok as H; unfold pairs_ok in H.
  rewrite !andb_true_iff, !forallb_forall in H.
  destruct H as (((((Hlen & Hne) & Hap) & Htitle) & Hlong) & Hself).
  repeat match goal with |- _ /\ _ => split end.
  - now apply Nat.eqb_eq.
  - intros k Hk E.
    specialize (Hne k ltac:(apply in_seq; lia)).
    rewrite E in Hne; discriminate.
  - intros k j Hk Hj Hkj.
    specialize (Hap k ltac:(apply in_seq; lia)).
    rewrite forallb_forall in Hap.
    specialize (Hap j ltac:(apply in_seq; lia)).
    destruct Hkj as [H3 | Hjk].
    + apply Nat.ltb_lt in H3; now rewrite H3 in Hap.
    + apply Nat.ltb_lt in Hjk; now rewrite Hjk, orb_true_r in Hap.
  - intros j Hj; apply Htitle, in_seq; lia.
  - intros k Hk; apply Nat.ltb_lt, Hlong, in_seq; lia.
  - intros k Hk; apply Hself, in_seq; lia.
Qed.

Lemma pairs_length : length pairs = 5.
Proof. apply pairs_ok_facts. Qed.

Lemma old_nonempty (k : nat) : k < 5 -> old_of pairs k <> [].
Proof. apply pairs_ok_facts. Qed.

Lemma apart_old_new (k j : nat) :
  k < 5 -> j < 5 -> k < 3 \/ j < k ->
  apart (old_of pairs k) (new_of pairs j) = true.
Proof. apply pairs_ok_facts. Qed.

(** An old text absent from the README is still absent when its turn
    comes: the earlier rounds do not create it. *)
Lemma stage_creates_none (k m : nat) (r : str) :
  k < 5 -> m <= k -> infix (old_of pairs k) r = false ->
  infix (old_of pairs k) (stage pairs m r) = false.
Proof.
  intros Hk; induction m as [|m IH]; intros Hm Hr; [exact Hr|].
  rewrite stage_S by (rewrite pairs_length; lia).
  apply replace_creates_none.
  - apply old_nonempty; lia.
  - apply apart_old_new; lia.
  - apply IH; [lia | exact Hr].
Qed.

(** Once its round has run, each of the first three old texts is gone and
    no later round brings it back. *)
Lemma stage_removes (k m : nat) (r : str) :
  k < 3 -> k < m -> m <= 5 ->
  infix (old_of pairs k) (stage pairs m r) = false.
Proof.
  intros Hk; induction m as [|m IH]; intros Hkm Hm; [lia|].
  rewrite stage_S by (rewrite pairs_length; lia).
  destruct (Nat.eq_dec m k) as [->|Hne].
  - apply replace_removes; [apply old_nonempty | apply apart_old_new]; lia.
  - apply replace_creates_none.
    + apply old_nonempty; lia.
    + apply apart_old_new; lia.
    + apply IH; lia.
Qed.

(** The new title, once written, survives the later rounds. *)
Lemma stage_keeps_title (m : nat) (r : str) :
  1 <= m <= 5 -> infix (old_of pairs 0) r = true ->
  infix (new_of pairs 0) (stage pairs m r) = true.
Proof.
  induction m as [|m IH]; intros Hm Hr; [lia|].
  rewrite stage_S by (rewrite pairs_length; lia).
  destruct m as [|m].
  - apply replace_puts_new; [apply old_nonempty; lia | exact Hr].
  - apply replace_keeps.
    + apply old_nonempty; lia.
    + apply pairs_ok_facts; lia.
    + apply IH; [lia | exact Hr].
Qed.

End Pipeline.

(* ================================================================== *)
(** * Templates under the loop *)
(* ================================================================== *)

Lemma join_app_head (sep x y : str) (ps : list str) :
  join sep ((x ++ y) :: ps) = x ++ join sep (y :: ps).
Proof. destruct ps; simpl; [reflexivity | now rewrite <- app_assoc]. Qed.

Lemma cut_nonempty (k : nat) (tpl : list item) : cut k tpl <> [].
Proof.
  destruct tpl as [|it rest]; simpl; [discriminate|].
  destruct (is_pat k it); [discriminate|].
  destruct (cut k rest); discriminate.
Qed.

Lemma is_pat_true (k : nat) (it : item) : is_pat k it = true -> it = Pat k.
Proof.
  destruct it as [t|j]; simpl; [discriminate|].
  intros E; apply Nat.eqb_eq in E; now subst.
Qed.

Lemma render_item_other (pairs : list (str * str)) (k : nat) (it : item) :
  is_pat k it = false ->
  render_item pairs (S k) it = render_item pairs k it.
Proof.
  destruct it as [t|j]; simpl; [reflexivity|]; intros E.
  apply Nat.eqb_neq in E.
  destruct (Nat.ltb j (S k)) eqn:E1, (Nat.ltb j k) eqn:E2; try reflexivity.
  - apply Nat.ltb_lt in E1; apply Nat.ltb_ge in E2; lia.
  - apply Nat.ltb_ge in E1; apply Nat.ltb_lt in E2; lia.
Qed.

Lemma render_item_old (pairs : list (str * str)) (k : nat) :
  render_item pairs k (Pat k) = old_of pairs k.
Proof. simpl; now rewrite Nat.ltb_irrefl. Qed.

Lemma render_item_new (pairs : list (str * str)) (k : nat) :
  render_item pairs (S k) (Pat k) = new_of pairs k.
Proof.
  simpl; destruct (Nat.ltb k (S k)) eqn:E; [reflexivity|].
  apply Nat.ltb_ge in E; lia.
Qed.

(** A rendered template is its stretches between the places marked
    [Pat k], joined by the text that stands at those places. *)
Lemma render_cut (pairs : list (str * str)) (m k : nat) (tpl : list item) :
  render pairs m tpl
  = join (render_item pairs m (Pat k)) (map (render pairs m) (cut k tpl)).
Proof.
  induction tpl as [|it rest IH]; [reflexivity|].
  change (render pairs m (it :: rest))
    with (render_item pairs m it ++ render pairs m rest).
  simpl cut; destruct (is_pat k it) eqn:E.
  - apply is_pat_true in E; subst it.
    change (map (render pairs m) ([] :: cut k rest))
      with ([] :: map (render pairs m) (cut k rest)).
    rewrite join_cons.
    + now rewrite <- IH.
    + pose proof (cut_nonempty k rest); destruct (cut k rest);
        [contradiction | discriminate].
  - pose proof (cut_nonempty k rest) as Hne.
    destruct (cut k rest) as [|piece pieces]; [contradiction|].
    change (map (render pairs m) ((it :: piece) :: pieces))
      with ((render_item pairs m it ++ render pairs m piece)
              :: map (render pairs m) pieces).
    rewrite join_app_head, IH; reflexivity.
Qed.

Lemma cut_no_pat (k : nat) (tpl : list item) :
  Forall (fun piece => forallb (fun it => negb (is_pat k it)) piece = true)
         (cut k tpl).
Proof.
  induction tpl as [|it rest IH]; simpl; [repeat constructor|].
  destruct (is_pat k it) eqn:E; [now constructor|].
  destruct (cut k rest) as [|piece pieces]; [repeat constructor; simpl|].
  - now rewrite E.
  - inversion IH; subst; constructor; [simpl|assumption].
    now rewrite E.
Qed.

Lemma render_no_pat (pairs : list (str * str)) (k : nat) (piece : list item) :
  forallb (fun it => negb (is_pat k it)) piece = true ->
  render pairs (S k) piece = render pairs k piece.
Proof.
  induction piece as [|it rest IH]; intros Hall; [reflexivity|].
  simpl in Hall; apply andb_prop in Hall as [Hit Hrest].
  apply negb_true_iff in Hit.
  change (render pairs (S k) (it :: rest))
    with (render_item pairs (S k) it ++ render pairs (S k) rest).
  now rewrite render_item_other, IH.
Qed.

(** A round whose new text is apart from [p] creates no occurrence of [p]
    anywhere in a template. *)
Lemma render_step_infix (pairs : list (str * str)) (p : str) (m : nat)
      (items : list item) (a z : str) :
  apart p (new_of pairs m) = true ->
  infix p (a ++ render pairs (S m) items ++ z) = true ->
  infix p (a ++ render pairs m items ++ z) = true.
Proof.
  intros Hap; revert a; induction items as [|it rest IH]; intros a Hi;
    [exact Hi|].
  change (render pairs (S m) (it :: rest))
    with (render_item pairs (S m) it ++ render pairs (S m) rest) in Hi.
  change (render pairs m (it :: rest))
    with (render_item pairs m it ++ render pairs m rest).
  destruct (is_pat m it) eqn:E.
  - apply is_pat_true in E; subst it.
    rewrite render_item_new in Hi; rewrite render_item_old.
    rewrite <- app_assoc in Hi.
    destruct (apart_split _ _ _ _ Hap Hi) as [Ha | Hrest].
    + now apply infix_app_l.
    + apply infix_app_r; rewrite <- app_assoc; apply infix_app_r.
      now apply (IH []).
  - rewrite render_item_other in Hi by assumption.
    rewrite <- app_assoc, app_assoc in Hi.
    rewrite <- app_assoc, app_assoc.
    now apply IH.
Qed.

Lemma render_infix_0 (pairs : list (str * str)) (p : str) (m : nat)
      (items : list item) (z : str) :
  (forall j, j < m -> apart p (new_of pairs j) = true) ->
  infix p (render pairs 0 items ++ z) = false ->
  infix p (render pairs m items ++ z) = false.
Proof.
  induction m as [|m IH]; intros Hap H0; [exact H0|].
  destruct (infix p (render pairs (S m) items ++ z)) eqn:E; [|reflexivity].
  apply (render_step_infix pairs p m items [] z) in E;
    [|apply Hap; lia].
  simpl in E; rewrite IH in E; [discriminate | | exact H0].
  intros j Hj; apply Hap; lia.
Qed.

(** Stretches that are greedy before the update are still greedy when the
    round of their old text comes. *)
Lemma greedy_render (pairs : list (str * str)) (old : str) (m : nat)
      (pieces : list (list item)) :
  (forall j, j < m -> apart old (new_of pairs j) = true) ->
  greedy old (map (render pairs 0) pieces) ->
  greedy old (map (render pairs m) pieces).
Proof.
  intros Hap; induction pieces as [|piece rest IH]; intros Hg; [exact I|].
  destruct rest as [|piece' rest].
  - simpl in *.
    rewrite <- (app_nil_r (render pairs m piece)).
    apply render_infix_0; [exact Hap | now rewrite app_nil_r].
  - destruct Hg as [Hpiece Hrest]; split.
    + now apply render_infix_0.
    + now apply IH.
Qed.

Section Marked.

Variable pairs : list (str * str).
Hypothesis ok : pairs_ok pairs = true.
Variable tpl : list item.
Hypothesis places : marked pairs tpl.

(** The round of the [k]-th pair rewrites exactly the places marked
    [Pat k]. *)
Lemma replace_marked (k : nat) :
  k < 5 ->
  replace (old_of pairs k) (new_of pairs k) (render pairs k tpl)
  = render pairs (S k) tpl.
Proof.
  intros Hk.
  pose proof (old_nonempty pairs ok k Hk) as Hne.
  rewrite (render_cut pairs k k tpl), render_item_old.
  rewrite replace_join_greedy; [|exact Hne|].
  - rewrite (render_cut pairs (S k) k tpl), render_item_new.
    f_equal.
    pose proof (cut_no_pat k tpl) as Hall.
    induction Hall as [|piece pieces Hpiece _ IH]; [reflexivity|].
    simpl; now rewrite IH, render_no_pat.
  - apply greedy_render.
    + intros j Hj; apply (apart_old_new pairs ok); lia.
    + rewrite <- places by (rewrite (pairs_length pairs ok); exact Hk).
      now apply greedy_split_on.
Qed.

Lemma stage_marked (m : nat) :
  m <= 5 -> stage pairs m (render pairs 0 tpl) = render pairs m tpl.
Proof.
  induction m as [|m IH]; intros Hm; [reflexivity|].
  rewrite stage_S by (rewrite (pairs_length pairs ok); lia).
  rewrite IH by lia.
  apply replace_marked; lia.
Qed.

End Marked.

(* ================================================================== *)
(** * Year resolver *)
(* ================================================================== *)

Section Years.

Context {W : Type} `{OS W}.

Lemma this_year_settled (y : Z) (p : proc W) :
  settled y p -> this_year p = (Ok y, p).
Proof. intros [Ht _]; unfold this_year; now rewrite Ht. Qed.

Lemma last_year_settled (y : Z) (p : proc W) :
  settled y p ->
  exists p', last_year p = (Ok (y - 1)%Z, p') /\ settled y p' /\
             world p' = world p.
Proof.
  intros [Ht Hl]; unfold last_year.
  destruct Hl as [Hl | Hl]; rewrite Hl.
  - unfold bind, this_year; rewrite Ht.
    eexists; split; [reflexivity|].
    split; [split; simpl; auto | reflexivity].
  - exists p; repeat split; auto.
Qed.

Lemma answers_settled (y : Z) (calls : list call) (p : proc W) :
  settled y p ->
  Forall (fits y) (answers calls p) /\
  length (answers calls p) = length (filter is_call calls).
Proof.
  revert p; induction calls as [|c calls IH]; intros p Hp;
    [split; [constructor | reflexivity]|].
  destruct c as [| |change]; simpl.
  - rewrite (this_year_settled y p Hp).
    destruct (IH p Hp) as [Hall Hlen].
    split; [constructor; [reflexivity | exact Hall] | simpl; now rewrite Hlen].
  - destruct (last_year_settled y p Hp) as (p' & -> & Hp' & _).
    destruct (IH p' Hp') as [Hall Hlen].
    split; [constructor; [reflexivity | exact Hall] | simpl; now rewrite Hlen].
  - apply IH; exact Hp.
Qed.

(** Once this year is cached, the caches only fill: the cache of last
    year is filled by the first call of [last_year] and kept. *)
Lemma after_calls_cached (y : Z) (l : option Z) (calls : list call) (w : W)
      (tr : list event) :
  l = None \/ l = Some (y - 1)%Z ->
  this_year_cache (after_calls calls (mkProc w (Some y) l tr)) = Some y /\
  last_year_cache (after_calls calls (mkProc w (Some y) l tr))
  = if existsb is_last_year_call calls then Some (y - 1)%Z else l.
Proof.
  revert l w; induction calls as [|c calls IH]; intros l w Hl;
    [now split|].
  destruct c as [| |change].
  - exact (IH l w Hl).
  - change (existsb is_last_year_call (CallLastYear :: calls)) with true.
    destruct Hl as [-> | ->].
    + destruct (IH (Some (y - 1)%Z) w (or_intror eq_refl)) as [Ht Hc].
      split; [exact Ht|].
      change (after_calls (CallLastYear :: calls) (mkProc w (Some y) None tr))
        with (after_calls calls (mkProc w (Some y) (Some (y - 1)%Z) tr)).
      rewrite Hc; now destruct (existsb is_last_year_call calls).
    + destruct (IH (Some (y - 1)%Z) w (or_intror eq_refl)) as [Ht Hc].
      split; [exact Ht|].
      change (after_calls (CallLastYear :: calls)
                (mkProc w (Some y) (Some (y - 1)%Z) tr))
        with (after_calls calls (mkProc w (Some y) (Some (y - 1)%Z) tr)).
      rewrite Hc; now destruct (existsb is_last_year_call calls).
  - exact (IH l (change w) Hl).
Qed.

(** C8: whatever calls a run makes to [this_year()] and [last_year()], in
    whatever order and however the world and its clock change between
    them, no call fails, every call of [this_year()] returns the year that
    the clock showed at the first call, and every call of [last_year()]
    returns that year minus one.  Both values are computed once and kept:
    when the calls are over the cache of [this_year] holds the year of the
    first call if a call was made and is empty otherwise, and the cache of
    [last_year] holds that year minus one if [last_year()] was called and
    is empty otherwise. *)
Theorem years_are_memoised (calls : list call) (w : W) :
  Forall (fits (first_reading calls w)) (answers calls (start w)) /\
  length (answers calls (start w)) = length (filter is_call calls) /\
  this_year_cache (after_calls calls (start w))
  = (if existsb is_call calls then Some (first_reading calls w) else None) /\
  last_year_cache (after_calls calls (start w))
  = (if existsb is_last_year_call calls
     then Some (first_reading calls w - 1)%Z else None).
Proof.
  revert w; induction calls as [|c calls IH]; intros w;
    [repeat split; constructor|].
  destruct c as [| |change].
  - assert (Hp : settled (now_year w)
                   (mkProc w (Some (now_year w)) None [])).
    { split; [reflexivity | now left]. }
    destruct (answers_settled _ calls _ Hp) as [Hall Hlen].
    destruct (after_calls_cached (now_year w) None calls w []
                (or_introl eq_refl)) as [Ht Hl].
    split; [constructor; [reflexivity | exact Hall]|].
    split; [simpl; now rewrite <- Hlen|].
    split; [exact Ht | exact Hl].
  - assert (Hp : settled (now_year w)
                   (mkProc w (Some (now_year w))
                           (Some (now_year w - 1)%Z) [])).
    { split; [reflexivity | now right]. }
    destruct (answers_settled _ calls _ Hp) as [Hall Hlen].
    destruct (after_calls_cached (now_year w) (Some (now_year w - 1)%Z)
                calls w [] (or_intror eq_refl)) as [Ht Hl].
    split; [constructor; [reflexivity | exact Hall]|].
    split; [simpl; now rewrite <- Hlen|].
    split; [exact Ht|].
    change (existsb is_last_year_call (CallLastYear :: calls)) with true.
    change (first_reading (CallLastYear :: calls) w) with (now_year w).
    change (after_calls (CallLastYear :: calls) (start w))
      with (after_calls calls
              (mkProc w (Some (now_year w)) (Some (now_year w - 1)%Z) [])).
    rewrite Hl; now destruct (existsb is_last_year_call calls).
  - apply (IH (change w)).
Qed.

End Years.

(* ================================================================== *)
(** * Lines of a dedented block *)
(* ================================================================== *)

Lemma cons_head_nonempty (c : ascii) (segs : list str) :
  cons_head c segs <> [].
Proof. destruct segs; discriminate. Qed.

Lemma splitlines_nil (u : str) : splitlines u = [] -> u = [].
Proof.
  destruct u as [|c u]; [reflexivity|]; simpl.
  destruct (is_linebreak c).
  - destruct u as [|d u]; [discriminate|].
    destruct (Ascii.eqb c CR && Ascii.eqb d LF); discriminate.
  - intros E; now apply cons_head_nonempty in E.
Qed.

(** On a text whose only terminator is LF, [splitlines] returns the lines
    of [split("\n")], short of a last empty one. *)
Lemma splitlines_prefix (u : str) :
  lf_only u = true -> exists rest, split_nl u = splitlines u ++ rest.
Proof.
  induction u as [|c u IH]; intros Hu; [now exists [[]]|].
  unfold lf_only in Hu; simpl in Hu; apply andb_prop in Hu as [Hc Hu].
  destruct (IH Hu) as [rest Hrest].
  change (split_nl (c :: u))
    with (if Ascii.eqb c LF then [] :: split_nl u
          else cons_head c (split_nl u)).
  change (splitlines (c :: u))
    with (if is_linebreak c then
            match u with
            | d :: u' =>
                if Ascii.eqb c CR && Ascii.eqb d LF
                then [] :: splitlines u' else [] :: splitlines u
            | [] => [[]]
            end
          else cons_head c (splitlines u)).
  destruct (Ascii.eqb c LF) eqn:E.
  - apply Ascii.eqb_eq in E; subst c.
    change (is_linebreak LF) with true; cbv iota.
    destruct u as [|d u]; [now exists [[]]|].
    change (Ascii.eqb LF CR) with false; cbv iota beta.
    cbn [andb]; exists rest; now rewrite Hrest.
  - rewrite orb_false_r in Hc; apply negb_true_iff in Hc; rewrite Hc.
    destruct (splitlines u) as [|x X] eqn:EX.
    + apply splitlines_nil in EX; subst u; now exists [].
    + exists rest; rewrite Hrest; reflexivity.
Qed.

Lemma split_nl_nonempty (t : str) : split_nl t <> [].
Proof.
  destruct t as [|c t]; simpl; [discriminate|].
  destruct (Ascii.eqb c LF); [discriminate | apply cons_head_nonempty].
Qed.

(** The lines of [split("\n")] keep the characters of the text. *)
Lemma split_nl_chars (Q : ascii -> bool) (t : str) :
  forallb Q t = true -> Forall (fun l => forallb Q l = true) (split_nl t).
Proof.
  induction t as [|c t IH]; intros Ht; [repeat constructor|].
  simpl in Ht; apply andb_prop in Ht as [Hc Ht]; specialize (IH Ht).
  simpl; destruct (Ascii.eqb c LF); [now constructor|].
  destruct (split_nl t) as [|l ls]; [repeat constructor; simpl; now rewrite Hc|].
  inversion IH; subst; constructor; [simpl; now rewrite Hc | assumption].
Qed.

Lemma split_nl_no_lf (t : str) :
  Forall (fun l => no_lf l = true) (split_nl t).
Proof.
  induction t as [|c t IH]; [repeat constructor|].
  simpl; destruct (Ascii.eqb c LF) eqn:E; [now constructor|].
  destruct (split_nl t) as [|l ls].
  - repeat constructor; unfold no_lf; simpl; now rewrite E.
  - inversion IH; subst; constructor; [|assumption].
    unfold no_lf in *; simpl; now rewrite E.
Qed.

Lemma split_nl_line (l : str) : no_lf l = true -> split_nl l = [l].
Proof.
  induction l as [|c l IH]; intros Hl; [reflexivity|].
  unfold no_lf in Hl; simpl in Hl; apply andb_prop in Hl as [Hc Hl].
  apply negb_true_iff in Hc; simpl; rewrite Hc, (IH Hl); reflexivity.
Qed.

Lemma split_nl_app (l rest : str) :
  no_lf l = true -> split_nl (l ++ LF :: rest) = l :: split_nl rest.
Proof.
  induction l as [|c l IH]; intros Hl; [reflexivity|].
  unfold no_lf in Hl; simpl in Hl; apply andb_prop in Hl as [Hc Hl].
  apply negb_true_iff in Hc; simpl; rewrite Hc, (IH Hl); reflexivity.
Qed.

(** Joining lines by LF and splitting at LF gives the lines back. *)
Lemma split_nl_join (L : list str) :
  L <> [] -> Forall (fun l => no_lf l = true) L ->
  split_nl (join [LF] L) = L.
Proof.
  induction L as [|l L IH]; intros Hne Hall; [contradiction|].
  inversion Hall; subst.
  destruct L as [|l' L]; [now apply split_nl_line|].
  rewrite join_cons by discriminate.
  change ([LF] ++ join [LF] (l' :: L)) with (LF :: join [LF] (l' :: L)).
  rewrite split_nl_app by assumption.
  rewrite IH; [reflexivity | discriminate | assumption].
Qed.

Lemma forallb_skipn (Q : ascii -> bool) (n : nat) (l : str) :
  forallb Q l = true -> forallb Q (skipn n l) = true.
Proof.
  revert l; induction n as [|n IH]; intros [|c l] Hl; try assumption.
  simpl in Hl; apply andb_prop in Hl as [_ Hl]; now apply IH.
Qed.

Lemma blank_to_empty_chars (Q : ascii -> bool) (l : str) :
  forallb Q l = true -> forallb Q (blank_to_empty l) = true.
Proof. unfold blank_to_empty; now destruct (forallb is_sp_tab l). Qed.

Lemma strip_margin_chars (Q : ascii -> bool) (m l : str) :
  forallb Q l = true -> forallb Q (strip_margin m l) = true.
Proof.
  unfold strip_margin; destruct (startswith m l); [|trivial].
  apply forallb_skipn.
Qed.

(** The lines of [dedent] keep the characters of the text. *)
Lemma dedent_lines_chars (Q : ascii -> bool) (text : str) :
  forallb Q text = true ->
  Forall (fun l => forallb Q l = true) (dedent_lines text).
Proof.
  intros Ht.
  assert (Hlines : Forall (fun l => forallb Q l = true)
                          (map blank_to_empty (split_nl text))).
  { apply Forall_map.
    eapply Forall_impl; [|apply (split_nl_chars Q text Ht)].
    intros l; apply blank_to_empty_chars. }
  unfold dedent_lines.
  destruct (fold_left margin_step _ None) as [[|c m]|]; try exact Hlines.
  apply Forall_map.
  eapply Forall_impl; [|apply Hlines].
  intros l Hl; now apply strip_margin_chars.
Qed.

Lemma dedent_lines_no_lf (text : str) :
  Forall (fun l => no_lf l = true) (dedent_lines text).
Proof.
  pose proof (split_nl_no_lf text) as Hlines0.
  assert (Hlines : Forall (fun l => no_lf l = true)
                          (map blank_to_empty (split_nl text))).
  { apply Forall_map.
    eapply Forall_impl; [|apply Hlines0].
    intros l; apply blank_to_empty_chars. }
  unfold dedent_lines.
  destruct (fold_left margin_step _ None) as [[|c m]|]; try exact Hlines.
  apply Forall_map.
  eapply Forall_impl; [|apply Hlines].
  intros l Hl; now apply strip_margin_chars.
Qed.

Lemma dedent_lines_nonempty (text : str) : dedent_lines text <> [].
Proof.
  unfold dedent_lines.
  pose proof (split_nl_nonempty text) as Hne.
  destruct (split_nl text) as [|l ls]; [contradiction|].
  destruct (fold_left margin_step _ None) as [[|c m]|]; discriminate.
Qed.

Lemma join_chars (Q : ascii -> bool) (sep : str) (L : list str) :
  forallb Q sep = true -> Forall (fun l => forallb Q l = true) L ->
  forallb Q (join sep L) = true.
Proof.
  intros Hsep; induction L as [|l L IH]; intros Hall; [reflexivity|].
  inversion Hall as [|? ? Hl HL]; subst.
  destruct L as [|l' L]; [assumption|].
  rewrite join_cons by discriminate.
  now rewrite !forallb_app, Hsep, Hl, IH.
Qed.

Lemma dedent_lf_only (text : str) :
  lf_only text = true -> lf_only (dedent text) = true.
Proof.
  intros Ht; unfold lf_only, dedent.
  apply join_chars; [reflexivity | now apply dedent_lines_chars].
Qed.

(** ** No line of a dedented block is blank without being empty *)

Lemma indent_of_blank (l : str) : forallb is_sp_tab (indent_of l) = true.
Proof.
  induction l as [|c l IH]; [reflexivity|].
  simpl; destruct (is_sp_tab c) eqn:E; [simpl; now rewrite E|reflexivity].
Qed.

Lemma common_prefix_chars (Q : ascii -> bool) (a b : str) :
  forallb Q a = true -> forallb Q (common_prefix a b) = true.
Proof.
  revert b; induction a as [|x a IH]; intros [|y b] Ha; try reflexivity.
  simpl in Ha; apply andb_prop in Ha as [Hx Ha].
  simpl; destruct (Ascii.eqb x y); [simpl; now rewrite Hx, IH|reflexivity].
Qed.

(** The margin that [dedent] removes is made of spaces and tabs. *)
Lemma margin_blank (indents : list str) (margin : option str) (m : str) :
  Forall (fun i => forallb is_sp_tab i = true) indents ->
  (forall m0, margin = Some m0 -> forallb is_sp_tab m0 = true) ->
  fold_left margin_step indents margin = Some m ->
  forallb is_sp_tab m = true.
Proof.
  revert margin; induction indents as [|i indents IH];
    intros margin Hall Hm Hfold.
  - now apply Hm.
  - inversion Hall; subst; simpl in Hfold.
    apply (IH _ H2) in Hfold; [exact Hfold|].
    intros m0 E; destruct margin as [m1|]; simpl in E.
    + destruct (startswith m1 i); [injection E as <-; now apply Hm|].
      destruct (startswith i m1); injection E as <-; [assumption|].
      apply common_prefix_chars; now apply Hm.
    + now injection E as <-.
Qed.

Lemma has_text_app (a b : str) : has_text (a ++ b) = has_text a || has_text b.
Proof. apply existsb_app. Qed.

Lemma blank_has_no_text (m : str) :
  forallb is_sp_tab m = true -> has_text m = false.
Proof.
  induction m as [|c m IH]; intros Hm; [reflexivity|].
  simpl in Hm; apply andb_prop in Hm as [Hc Hm].
  unfold has_text; simpl; rewrite Hc; simpl; now apply IH.
Qed.

Lemma not_blank_has_text (l : str) :
  forallb is_sp_tab l = false -> has_text l = true.
Proof.
  induction l as [|c l IH]; intros Hl; [discriminate|].
  unfold has_text; simpl in *.
  destruct (is_sp_tab c); [simpl in *; now apply IH | reflexivity].
Qed.

(** Every line of a dedented text is empty or holds a character other
    than space and tab. *)
Lemma dedent_lines_text (text : str) :
  Forall (fun l => l = [] \/ has_text l = true) (dedent_lines text).
Proof.
  assert (Hlines : Forall (fun l => l = [] \/ has_text l = true)
                          (map blank_to_empty (split_nl text))).
  { apply Forall_map, Forall_forall; intros l _.
    unfold blank_to_empty; destruct (forallb is_sp_tab l) eqn:E;
      [now left | right; now apply not_blank_has_text]. }
  unfold dedent_lines.
  destruct (fold_left margin_step _ None) as [m|] eqn:Em;
    [|exact Hlines].
  destruct m as [|c m]; [exact Hlines|].
  assert (Hm : forallb is_sp_tab (c :: m) = true).
  { apply (margin_blank _ None _) in Em; [exact Em | | discriminate].
    apply Forall_map, Forall_forall; intros l _; apply indent_of_blank. }
  apply Forall_map.
  eapply Forall_impl; [|apply Hlines].
  intros l Hl; unfold strip_margin.
  destruct (startswith (c :: m) l) eqn:E; [|exact Hl].
  destruct (startswith_inv _ _ E) as [t Ht].
  rewrite Ht, startswith_skipn.
  destruct Hl as [Hl | Hl]; [rewrite Hl in Ht; discriminate|].
  rewrite Ht, has_text_app, (blank_has_no_text _ Hm) in Hl.
  now right.
Qed.

(** In a block whose only line terminator is LF, every command that is
    run holds a character other than space and tab: a line of whitespace
    alone is not a command. *)
Lemma command_lines_text (commands : str) :
  lf_only commands = true ->
  Forall (fun c => has_text c = true) (command_lines commands).
Proof.
  intros Hlf; apply Forall_forall; intros c Hc.
  apply filter_In in Hc as [Hin Hne].
  destruct (splitlines_prefix _ (dedent_lf_only _ Hlf)) as [rest Hrest].
  assert (Hin' : In c (split_nl (dedent commands)))
    by (rewrite Hrest; apply in_or_app; now left).
  unfold dedent in Hin'.
  rewrite split_nl_join in Hin'
    by (apply dedent_lines_nonempty || apply dedent_lines_no_lf).
  pose proof (dedent_lines_text commands) as Hall.
  rewrite Forall_forall in Hall.
  destruct (Hall c Hin') as [-> | Ht]; [discriminate | exact Ht].
Qed.

(* ================================================================== *)
(** * Command runner *)
(* ================================================================== *)

Section Runner.

Context {W : Type} `{OS W}.

Lemma run_lines_filter (lines : list str) (p : proc W) :
  run_lines lines p
  = run_lines (filter (fun l => negb (Nat.eqb (length l) 0)) lines) p.
Proof.
  revert p; induction lines as [|l lines IH]; intros p; [reflexivity|].
  destruct l as [|c l]; [exact (IH p)|].
  simpl; unfold bind.
  destruct (print (c :: l) p) as [[[]|e] p1]; [|reflexivity].
  destruct (subprocess_run (c :: l) p1) as [[[]|e] p2]; [|reflexivity].
  apply IH.
Qed.

(** One round of the loop on a non-empty line. *)
Lemma run_lines_cons (c : str) (rest : list str) (p : proc W) :
  c <> [] ->
  run_lines (c :: rest) p
  = let after := mkProc (snd (sh c (world p))) (this_year_cache p)
                        (last_year_cache p) (trace p ++ [Print c; Run c]) in
    if Z.eqb (fst (sh c (world p))) 0 then run_lines rest after
    else (Raise (CalledProcessError (fst (sh c (world p))) c), after).
Proof.
  intros Hne; destruct c as [|a c]; [contradiction|].
  simpl; unfold bind, print, emit, subprocess_run, bind, get_world,
    set_world, emit; simpl.
  destruct (sh (a :: c) (world p)) as [status w']; simpl.
  rewrite <- app_assoc; simpl.
  destruct (Z.eqb status 0); reflexivity.
Qed.

Lemma run_lines_ok (cmds : list str) (p : proc W) :
  Forall (fun c => c <> []) cmds ->
  all_succeed cmds (world p) ->
  run_lines cmds p
  = (Ok tt, mkProc (world_after cmds (world p)) (this_year_cache p)
                   (last_year_cache p) (trace p ++ events_of cmds)).
Proof.
  revert p; induction cmds as [|c cmds IH]; intros p Hne Hok.
  - simpl; unfold ret; rewrite app_nil_r; now destruct p.
  - inversion Hne; subst; destruct Hok as [Hc Hrest].
    rewrite run_lines_cons by assumption; simpl.
    rewrite Hc; simpl.
    rewrite IH by assumption; simpl.
    now rewrite <- app_assoc.
Qed.

Lemma run_lines_fail (pre : list str) (c : str) (post : list str)
      (p : proc W) :
  Forall (fun c => c <> []) (pre ++ c :: post) ->
  all_succeed pre (world p) ->
  fst (sh c (world_after pre (world p))) <> 0%Z ->
  run_lines (pre ++ c :: post) p
  = (Raise (CalledProcessError (fst (sh c (world_after pre (world p)))) c),
     mkProc (snd (sh c (world_after pre (world p)))) (this_year_cache p)
            (last_year_cache p)
            (trace p ++ events_of pre ++ [Print c; Run c])).
Proof.
  revert p; induction pre as [|d pre IH]; intros p Hne Hok Hc.
  - simpl in Hne; inversion Hne; subst.
    change ([] ++ c :: post) with (c :: post).
    rewrite run_lines_cons by assumption; simpl.
    apply Z.eqb_neq in Hc; simpl in Hc; now rewrite Hc.
  - inversion Hne; subst; destruct Hok as [Hd Hrest].
    change ((d :: pre) ++ c :: post) with (d :: (pre ++ c :: post)).
    rewrite run_lines_cons by assumption; simpl.
    rewrite Hd; simpl.
    rewrite IH by assumption; simpl.
    now rewrite <- app_assoc.
Qed.

Lemma command_lines_nonempty (commands : str) :
  Forall (fun c => c <> []) (command_lines commands).
Proof.
  apply Forall_forall; intros c Hc.
  apply filter_In in Hc as [_ Hc].
  intros ->; discriminate.
Qed.

(** The trace of a run only grows, by commands taken from the lines. *)
Lemma run_lines_trace (cmds : list str) (p : proc W) :
  Forall (fun c => c <> []) cmds ->
  exists n, trace (snd (run_lines cmds p))
            = trace p ++ events_of (firstn n cmds).
Proof.
  revert p; induction cmds as [|c cmds IH]; intros p Hne.
  - exists 0; simpl; now rewrite app_nil_r.
  - inversion Hne; subst.
    rewrite run_lines_cons by assumption; simpl.
    destruct (Z.eqb (fst (sh c (world p))) 0).
    + destruct (IH (mkProc (snd (sh c (world p))) (this_year_cache p)
                           (last_year_cache p)
                           (trace p ++ [Print c; Run c])) H3) as [n Hn].
      exists (S n); rewrite Hn; simpl; now rewrite <- app_assoc.
    + exists 1; simpl; reflexivity.
Qed.

(** C7: if the commands before the N-th succeed and the N-th exits with a
    status other than 0, [run_commands] raises [CalledProcessError] with
    that status and that command, and the trace ends with the N-th
    command: none of the later commands is printed or run. *)
Theorem run_commands_stops_at_failure (commands : str) (p : proc W)
        (pre : list str) (c : str) (post : list str) :
  command_lines commands = pre ++ c :: post ->
  all_succeed pre (world p) ->
  fst (sh c (world_after pre (world p))) <> 0%Z ->
  run_commands commands p
  = (Raise (CalledProcessError (fst (sh c (world_after pre (world p)))) c),
     mkProc (snd (sh c (world_after pre (world p)))) (this_year_cache p)
            (last_year_cache p)
            (trace p ++ events_of pre ++ [Print c; Run c])).
Proof.
  intros Hlines Hpre Hc.
  unfold run_commands; rewrite run_lines_filter.
  fold (command_lines commands); rewrite Hlines.
  apply run_lines_fail; [|assumption..].
  rewrite <- Hlines; apply command_lines_nonempty.
Qed.

End Runner.

(** A run of [sample_block]: the second command fails, the third is never
    reached. *)
Lemma run_commands_stops_at_failure_witness :
  run_commands sample_block (start (mkSim 2024 [] []))
  = (Raise (CalledProcessError 1 '"false"),
     mkProc (mkSim 2024 [] ['"git status"; '"false"]) None None
            [Print '"git status"; Run '"git status";
             Print '"false"; Run '"false"]).
Proof.
  rewrite (run_commands_stops_at_failure
             sample_block (start (mkSim 2024 [] []))
             ['"git status"] '"false" ['"git push"]).
  - vm_compute; reflexivity.
  - vm_compute; reflexivity.
  - vm_compute; repeat split.
  - vm_compute; discriminate.
Defined.

(* ================================================================== *)
(** * README updater *)
(* ================================================================== *)

Lemma update_is_stage (this : Z) (readme : str) :
  (1 <= this <= 9999)%Z ->
  update_readme_text this (this - 1) readme
  = stage (readme_replacements this (this - 1)) 5 readme.
Proof.
  intros Hy; unfold update_readme_text.
  now rewrite <- stage_all.
Qed.

(** The texts of the updater are the patterns of the specification. *)
Lemma old_text_pattern (this : Z) (k : nat) :
  old_of (readme_replacements this (this - 1)) k
  = edition_pattern (this - 1) k.
Proof. do 5 (destruct k as [|k]; [reflexivity|]); now destruct k. Qed.

Lemma new_text_rolled (this : Z) (k : nat) :
  k < 5 ->
  new_of (readme_replacements this (this - 1)) k = rolled_place this k.
Proof.
  intros Hk.
  do 3 (destruct k as [|k]; [reflexivity|]).
  do 2 (destruct k as [|k];
        [unfold rolled_place, edition_pattern;
         now rewrite <- !app_assoc|]).
  lia.
Qed.

Lemma render_old_fill (this : Z) (tpl : list item) :
  render (readme_replacements this (this - 1)) 0 tpl
  = fill (edition_pattern (this - 1)) tpl.
Proof.
  unfold render, fill; apply flat_map_ext; intros [text|k]; [reflexivity|].
  apply old_text_pattern.
Qed.

Lemma render_new_fill (this : Z) (tpl : list item) :
  render (readme_replacements this (this - 1)) 5 tpl
  = fill (rolled_place this) tpl.
Proof.
  unfold render, fill; apply flat_map_ext; intros [text|k]; [reflexivity|].
  unfold render_item.
  destruct (Nat.ltb k 5) eqn:E.
  - apply new_text_rolled, Nat.ltb_lt, E.
  - apply Nat.ltb_ge in E; rewrite old_text_pattern.
    do 5 (destruct k as [|k]; [lia|]); reflexivity.
Qed.

(** C2: take a README of last year's edition, given as any text around
    marked places, that holds exactly the five expected patterns of that
    edition: the title line, the issue-query link, the edition sentence
    and the newest lines of the two lists, each at its marked places and
    nowhere else.  Then the updater returns the same text with, at every
    marked place, what is expected there for this year: this year's
    title, link and sentence, and in the two lists the line of the new
    edition inserted next to the line that was the newest. *)
Theorem update_readme_rolls_marked_places (this : Z) (tpl : list item) :
  (1 <= this <= 9999)%Z ->
  holds_exactly (this - 1) tpl ->
  update_readme_text this (this - 1) (fill (edition_pattern (this - 1)) tpl)
  = fill (rolled_place this) tpl.
Proof.
  intros Hy Hholds.
  rewrite update_is_stage by assumption.
  rewrite <- render_old_fill, <- render_new_fill.
  apply stage_marked; [now apply year_pairs_ok | | lia].
  intros k Hk.
  rewrite render_old_fill, old_text_pattern, (Hholds k Hk).
  apply map_ext; intros piece; now rewrite render_old_fill.
Qed.

Lemma sample_template_marked :
  marked (readme_replacements 2024 2023) sample_template.
Proof.
  intros k Hk; simpl in Hk.
  do 5 (destruct k as [|k]; [vm_compute; reflexivity|]).
  lia.
Qed.

(** The sample README of 2023 becomes the sample README of 2024. *)
Lemma update_readme_rolls_marked_places_witness :
  update_readme_text 2024 2023 (fill (edition_pattern 2023) sample_template)
  = fill (rolled_place 2024) sample_template /\
  infix ('"# NaNoGenMo 2024" ++ [LF]) (fill (rolled_place 2024) sample_template)
  = true /\
  infix ('"* [2023](https://github.com/NaNoGenMo/2023)" ++ [LF]
           ++ '"* [2022](https://github.com/NaNoGenMo/2022)")
        (fill (rolled_place 2024) sample_template)
  = true.
Proof.
  split; [|split; vm_compute; reflexivity].
  apply (update_readme_rolls_marked_places 2024 sample_template).
  - lia.
  - intros k Hk.
    do 5 (destruct k as [|k]; [vm_compute; reflexivity|]).
    lia.
Defined.

(** The title rolls forward in every README that has it. *)
Lemma title_rolls (this : Z) (readme : str) :
  (1 <= this <= 9999)%Z ->
  infix (old_text this 0) readme = true ->
  infix (new_text this 0) (update_readme_text this (this - 1) readme) = true /\
  infix (old_text this 0) (update_readme_text this (this - 1) readme) = false.
Proof.
  intros Hy Hr; rewrite update_is_stage by assumption.
  pose proof (year_pairs_ok this Hy) as ok; split.
  - apply stage_keeps_title; [exact ok | lia | exact Hr].
  - apply stage_removes; [exact ok | lia..].
Qed.



Lemma without_apply (pairs : list (str * str)) (k : nat) (r : str) :
  apply_replacements (without k pairs) r
  = apply_replacements (skipn (S k) pairs) (stage pairs k r).
Proof. unfold without, stage, apply_replacements; now rewrite fold_left_app. Qed.

Lemma skipn_S_nth (pairs : list (str * str)) (k : nat) :
  k < length pairs ->
  skipn k pairs = nth k pairs ([], []) :: skipn (S k) pairs.
Proof.
  revert k; induction pairs as [|pr pairs IH]; intros k Hk; simpl in Hk.
  - lia.
  - destruct k as [|k]; [reflexivity|].
    change (skipn (S k) (pr :: pairs)) with (skipn k pairs).
    rewrite IH by lia; reflexivity.
Qed.

Lemma stage_absent_all (pairs : list (str * str)) (m : nat) (r : str) :
  (forall k, k < m -> old_of pairs k <> []) ->
  (forall k, k < m -> infix (old_of pairs k) r = false) ->
  m <= length pairs -> stage pairs m r = r.
Proof.
  induction m as [|m IH]; intros Hne Habs Hm; [reflexivity|].
  rewrite stage_S by lia.
  rewrite IH by (auto; lia).
  apply replace_absent; [apply Hne | apply Habs]; lia.
Qed.

(** C9: a replacement whose old text is absent changes nothing and raises
    nothing.  If the old text of one replacement is absent from the
    README, the updater returns what the other four replacements alone
    return; if all five are absent, it returns the README as it is. *)
Theorem absent_pattern_is_noop (this : Z) (readme : str) :
  (1 <= this <= 9999)%Z ->
  (forall k s, k < 5 -> infix (old_text this k) s = false ->
     replace (old_text this k) (new_text this k) s = s) /\
  (forall k, k < 5 -> infix (old_text this k) readme = false ->
     update_readme_text this (this - 1) readme
     = apply_replacements (without k (readme_replacements this (this - 1)))
                          readme) /\
  ((forall k, k < 5 -> infix (old_text this k) readme = false) ->
   update_readme_text this (this - 1) readme = readme).
Proof.
  intros Hy.
  pose proof (year_pairs_ok this Hy) as ok.
  pose proof (pairs_length _ ok) as Hlen.
  repeat match goal with |- _ /\ _ => split end.
  - intros k s Hk Hs.
    apply replace_absent; [apply (old_nonempty _ ok k Hk) | exact Hs].
  - intros k Hk Habs.
    rewrite without_apply.
    unfold update_readme_text.
    rewrite (apply_from_stage _ k), (skipn_S_nth _ k) by lia.
    unfold apply_replacements at 1; simpl fold_left.
    unfold replace_pair at 2.
    fold (old_of (readme_replacements this (this - 1)) k).
    fold (new_of (readme_replacements this (this - 1)) k).
    rewrite replace_absent; [reflexivity | now apply (old_nonempty _ ok)|].
    apply (stage_creates_none _ ok); [exact Hk | lia | exact Habs].
  - intros Habs.
    rewrite update_is_stage by assumption.
    apply stage_absent_all; [|exact Habs | lia].
    intros k Hk; now apply (old_nonempty _ ok).
Qed.

(** A README without any of the five texts of 2023 comes back unchanged. *)
Lemma absent_pattern_is_noop_witness :
  update_readme_text 2024 2023 '"# NaNoGenMo 2019" = '"# NaNoGenMo 2019".
Proof.
  destruct (absent_pattern_is_noop 2024 '"# NaNoGenMo 2019" ltac:(lia))
    as (_ & _ & Hall).
  apply Hall; intros k Hk.
  do 5 (destruct k as [|k]; [vm_compute; reflexivity|]).
  lia.
Defined.

(** ** The second pass *)

Section Lengths.

Variables old new : str.
Hypothesis old_nonempty : old <> [].

Lemma replace_length_le (s : str) :
  length old <= length new -> length s <= length (replace old new s).
Proof.
  intros Hlen.
  induction s as [|t IH|c s Hs IH] using (scan_ind old old_nonempty).
  - rewrite replace_nil by assumption; lia.
  - rewrite replace_at_match by assumption.
    rewrite !length_app; lia.
  - rewrite replace_no_match by assumption; simpl; lia.
Qed.

(** A replacement by a longer text lengthens every string it changes. *)
Lemma replace_length_lt (s : str) :
  length old < length new -> infix old s = true ->
  length s < length (replace old new s).
Proof.
  intros Hlen.
  induction s as [|t IH|c s Hs IH] using (scan_ind old old_nonempty);
    intros Hi.
  - destruct old; [contradiction | discriminate].
  - rewrite replace_at_match by assumption.
    pose proof (replace_length_le t ltac:(lia)).
    rewrite !length_app; lia.
  - rewrite infix_cons, Hs in Hi; simpl in Hi.
    rewrite replace_no_match by assumption; simpl.
    specialize (IH Hi); lia.
Qed.

End Lengths.

Lemma last_two_rounds (pairs : list (str * str)) (r : str) :
  length pairs = 5 ->
  apply_replacements (skipn 3 pairs) r
  = replace (old_of pairs 4) (new_of pairs 4)
            (replace (old_of pairs 3) (new_of pairs 3) r).
Proof.
  intros Hlen.
  do 5 (destruct pairs as [|? pairs]; [discriminate|]).
  destruct pairs; [reflexivity | discriminate].
Qed.




(** ** The file that [update_readme] writes *)

Lemma writes_app (a b : list event) : writes (a ++ b) = writes a ++ writes b.
Proof.
  induction a as [|[line|cmd|path text] a IH]; simpl; try assumption.
  - reflexivity.
  - now rewrite IH.
Qed.

Lemma writes_events_of (cmds : list str) : writes (events_of cmds) = [].
Proof. induction cmds as [|c cmds IH]; [reflexivity | exact IH]. Qed.

Section Update.

Context {W : Type} `{OS W}.

Lemma quiet_bind {A B : Type} (m : M W A) (f : A -> M W B) :
  quiet m -> (forall a, quiet (f a)) -> quiet (bind m f).
Proof.
  intros Hm Hf p; unfold bind.
  specialize (Hm p); destruct (m p) as [[a|e] p']; simpl in *.
  - now rewrite Hf.
  - exact Hm.
Qed.

Lemma quiet_this_year : quiet this_year.
Proof. intros p; unfold this_year; now destruct (this_year_cache p). Qed.

Lemma quiet_last_year : quiet last_year.
Proof.
  intros p; unfold last_year, bind, this_year.
  destruct (last_year_cache p); [reflexivity|].
  now destruct (this_year_cache p).
Qed.

Lemma quiet_run_commands (commands : str) : quiet (run_commands commands).
Proof.
  intros p; unfold run_commands; rewrite run_lines_filter.
  destruct (run_lines_trace _ p (command_lines_nonempty commands))
    as [n Hn].
  fold (command_lines commands); rewrite Hn.
  now rewrite writes_app, writes_events_of, app_nil_r.
Qed.

Lemma bind_ok {A B : Type} (m : M W A) (f : A -> M W B) (p p' : proc W)
      (a : A) :
  m p = (Ok a, p') -> bind m f p = f a p'.
Proof. intros E; unfold bind; now rewrite E. Qed.

Lemma chdir_ok (path : str) (w w1 : W) (c1 c2 : option Z)
      (tr : list event) :
  os_chdir path w = Some w1 ->
  chdir path (mkProc w c1 c2 tr) = (Ok tt, mkProc w1 c1 c2 tr).
Proof.
  intros E; unfold chdir, bind, get_world; cbn [world]; now rewrite E.
Qed.

Lemma read_file_ok (path text : str) (w : W) (c1 c2 : option Z)
      (tr : list event) :
  read_text path w = Some text ->
  read_file path (mkProc w c1 c2 tr) = (Ok text, mkProc w c1 c2 tr).
Proof.
  intros E; unfold read_file, bind, get_world; cbn [world]; now rewrite E.
Qed.

Lemma write_file_ok (path text : str) (w w2 : W) (c1 c2 : option Z)
      (tr : list event) :
  write_text path text w = Some w2 ->
  write_file path text (mkProc w c1 c2 tr)
  = (Ok tt, mkProc w2 c1 c2 (tr ++ [Wrote path text])).
Proof.
  intros E; unfold write_file, bind, get_world; cbn [world]; now rewrite E.
Qed.

Lemma this_year_fresh (w : W) (l : option Z) (tr : list event) :
  this_year (mkProc w None l tr)
  = (Ok (now_year w), mkProc w (Some (now_year w)) l tr).
Proof. reflexivity. Qed.

Lemma this_year_cached (w : W) (y : Z) (l : option Z) (tr : list event) :
  this_year (mkProc w (Some y) l tr) = (Ok y, mkProc w (Some y) l tr).
Proof. reflexivity. Qed.

Lemma last_year_first (w : W) (y : Z) (tr : list event) :
  last_year (mkProc w (Some y) None tr)
  = (Ok (y - 1)%Z, mkProc w (Some y) (Some (y - 1)%Z) tr).
Proof. reflexivity. Qed.

Lemma print_ok (line : str) (p : proc W) :
  print line p
  = (Ok tt, mkProc (world p) (this_year_cache p) (last_year_cache p)
                   (trace p ++ [Print line])).
Proof. reflexivity. Qed.

(** What [update_readme] writes when the clock shows [this]: the README it
    read, rolled forward, to [README.md], and no other file. *)
Lemma update_readme_writes (w w1 : W) (readme : str) :
  os_chdir ('"/tmp/update-repo/" ++ str_of_int (now_year w)) w = Some w1 ->
  read_text '"README.md" w1 = Some readme ->
  write_text '"README.md"
             (update_readme_text (now_year w) (now_year w - 1) readme) w1
  <> None ->
  writes (trace (snd (update_readme (start w))))
  = [('"README.md",
      update_readme_text (now_year w) (now_year w - 1) readme)].
Proof.
  intros Hcd Hread Hwrite.
  destruct (write_text '"README.md"
              (update_readme_text (now_year w) (now_year w - 1) readme) w1)
    as [w2|] eqn:Hw; [clear Hwrite | contradiction].
  unfold update_readme, start.
  rewrite (bind_ok _ _ _ _ _ (this_year_fresh _ _ _)).
  rewrite (bind_ok _ _ _ _ _ (chdir_ok _ _ _ _ _ _ Hcd)).
  cbn [world this_year_cache last_year_cache trace].
  rewrite (bind_ok _ _ _ _ _ (read_file_ok _ _ _ _ _ _ Hread)).
  rewrite (bind_ok _ _ _ _ _ (last_year_first _ _ _)).
  rewrite (bind_ok _ _ _ _ _ (this_year_cached _ _ _ _)).
  rewrite (bind_ok _ _ _ _ _ (print_ok _ _)).
  cbn [world this_year_cache last_year_cache trace].
  rewrite (bind_ok _ _ _ _ _ (write_file_ok _ _ _ _ _ _ _ Hw)).
  cbn [world this_year_cache last_year_cache trace].
  match goal with
  | |- writes (trace (snd (?m ?p))) = _ =>
      assert (Hq : quiet m); [|rewrite (Hq p); reflexivity]
  end.
  apply quiet_bind; [apply quiet_run_commands | intros _].
  apply quiet_bind; [apply quiet_last_year | intros last].
  apply quiet_bind; [apply quiet_this_year | intros this].
  apply quiet_bind; [apply quiet_run_commands | intros _].
  apply quiet_run_commands.
Qed.

End Update.

(* ================================================================== *)
(** * Issue seeder *)
(* ================================================================== *)

Lemma fold_left_append {A : Type} (f : A -> str) (l : list A) (text : str) :
  fold_left (fun text x => text ++ f x) l text = text ++ flat_map f l.
Proof.
  revert text; induction l as [|x l IH]; intros text; simpl.
  - now rewrite app_nil_r.
  - now rewrite IH, <- app_assoc.
Qed.

(** The years that a loop [for year in range(start, stop, -1)] visits. *)
Lemma range_down_In (y start stop : Z) :
  In y (range_down start stop) <-> (stop < y <= start)%Z.
Proof.
  unfold range_down; rewrite in_map_iff; split.
  - intros (i & <- & Hi); apply in_seq in Hi; lia.
  - intros Hy; exists (Z.to_nat (start - y)); split; [lia|].
    apply in_seq; lia.
Qed.

(** Issue 1 is its introduction, one line for each year from last year
    down to 2016, and the three lines for 2015, 2014 and 2013. *)
Lemma issue1_text_shape (last : Z) :
  issue1_text last
  = dedent issue1_intro ++ flat_map issue1_line (range_down last 2015)
      ++ flat_map (fun line => line) issue1_fixed.
Proof.
  unfold issue1_text.
  rewrite (fold_left_append (fun line => line)), fold_left_append.
  now rewrite <- app_assoc.
Qed.

(** Issue 2 is built by the same loop, down to 2016 as well, before its
    own lines for 2016, 2015 and 2014. *)
Lemma issue2_text_shape (last : Z) :
  issue2_text last
  = '"Links to previous years:" ++ [LF; LF]
      ++ flat_map issue2_line (range_down last 2015)
      ++ flat_map (fun line => line) issue2_fixed.
Proof.
  unfold issue2_text.
  rewrite (fold_left_append (fun line => line)), fold_left_append.
  now rewrite <- !app_assoc.
Qed.

(** C4: for last year 2024 the text of the Resources issue is its two
    introductory sentences, one link line for each year from 2024 down to
    2016, and the three lines for 2015, 2014 and 2013, in this order and
    with nothing else. *)
Theorem resources_issue_2024 :
  issue1_text 2024
  = flat_map (fun line => line ++ [LF])
      [ '"This is an open issue where you can comment and add resources that might come in handy for NaNoGenMo.";
        [];
        '"There are already a ton of resources on the old resources threads of previous editions:";
        [];
        '"* [2024](https://github.com/NaNoGenMo/2024/issues/1)";
        '"* [2023](https://github.com/NaNoGenMo/2023/issues/1)";
        '"* [2022](https://github.com/NaNoGenMo/2022/issues/1)";
        '"* [2021](https://github.com/NaNoGenMo/2021/issues/1)";
        '"* [2020](https://github.com/NaNoGenMo/2020/issues/1)";
        '"* [2019](https://github.com/NaNoGenMo/2019/issues/1)";
        '"* [2018](https://github.com/NaNoGenMo/2018/issues/1)";
        '"* [2017](https://github.com/NaNoGenMo/2017/issues/1)";
        '"* [2016](https://github.com/NaNoGenMo/2016/issues/1)";
        '"* [2015](https://github.com/dariusk/NaNoGenMo-2015/issues/1)";
        '"* [2014](https://github.com/dariusk/nanogenmo-2014/issues/1)";
        '"* [2013](https://github.com/dariusk/NaNoGenMo/issues/11)" ].
Proof. vm_compute; reflexivity. Qed.

(** C5 fails on issue 2: for last year 2024 the loop writes a line for
    2016, and the lines appended after the loop begin with another line
    for 2016. *)
Theorem press_issue_2024 :
  issue2_text 2024
  = flat_map (fun line => line ++ [LF])
      [ '"Links to previous years:";
        [];
        '"* [2024](https://github.com/NaNoGenMo/2024/issues/2)";
        '"* [2023](https://github.com/NaNoGenMo/2023/issues/2)";
        '"* [2022](https://github.com/NaNoGenMo/2022/issues/2)";
        '"* [2021](https://github.com/NaNoGenMo/2021/issues/2)";
        '"* [2020](https://github.com/NaNoGenMo/2020/issues/2)";
        '"* [2019](https://github.com/NaNoGenMo/2019/issues/2)";
        '"* [2018](https://github.com/NaNoGenMo/2018/issues/2)";
        '"* [2017](https://github.com/NaNoGenMo/2017/issues/2)";
        '"* [2016](https://github.com/NaNoGenMo/2016/issues/2)";
        '"* [2016](https://github.com/NaNoGenMo/2016/issues/5)";
        '"* [2015](https://github.com/dariusk/NaNoGenMo-2015/issues/9)";
        '"* [2014](https://github.com/dariusk/NaNoGenMo-2014/issues/92)" ].
Proof. vm_compute; reflexivity. Qed.

(* ================================================================== *)
(** * Blocks of commands *)
(* ================================================================== *)

(** The text of an [int] is made of digits and at most a minus sign. *)
Lemma string_of_uint_chars (d : Decimal.uint) :
  forallb is_year_char
          (list_ascii_of_string (NilEmpty.string_of_uint d)) = true.
Proof. induction d; simpl; try assumption; reflexivity. Qed.

Lemma str_of_int_chars (n : Z) : forallb is_year_char (str_of_int n) = true.
Proof.
  unfold str_of_int, NilZero.string_of_int.
  destruct (Z.to_int n) as [d|d]; unfold NilZero.string_of_uint.
  - destruct d; try reflexivity; apply (string_of_uint_chars (_ d)) || idtac.
    all: apply string_of_uint_chars.
  - change (forallb is_year_char
              ("-"%char :: list_ascii_of_string
                 match d with
                 | Decimal.Nil => "0"%string
                 | _ => NilEmpty.string_of_uint d
                 end) = true).
    simpl; destruct d; try reflexivity; apply string_of_uint_chars.
Qed.

Lemma str_of_int_nonempty (n : Z) : str_of_int n <> [].
Proof.
  unfold str_of_int, NilZero.string_of_int.
  destruct (Z.to_int n) as [d|d]; unfold NilZero.string_of_uint.
  - destruct d; discriminate.
  - discriminate.
Qed.

(** A year character is no space, no tab and no line terminator. *)
Lemma year_char_plain (c : ascii) :
  is_year_char c = true -> is_sp_tab c = false /\ is_linebreak c = false.
Proof.
  destruct c as [[] [] [] [] [] [] [] []]; intros E;
    solve [discriminate E | split; reflexivity].
Qed.

Lemma years_one_line (s : str) :
  forallb is_year_char s = true -> one_line s = true.
Proof.
  induction s as [|c s IH]; intros Hs; [reflexivity|].
  simpl in Hs; apply andb_prop in Hs as [Hc Hs].
  unfold one_line; simpl.
  rewrite (proj2 (year_char_plain c Hc)); simpl; now apply IH.
Qed.

Lemma one_line_app (a b : str) :
  one_line (a ++ b) = one_line a && one_line b.
Proof. apply forallb_app. Qed.

Lemma one_line_no_lf (raw : str) : one_line raw = true -> no_lf raw = true.
Proof.
  unfold one_line, no_lf; rewrite !forallb_forall; intros Hl c Hc.
  specialize (Hl c Hc); apply negb_true_iff in Hl.
  destruct (Ascii.eqb c LF) eqn:E; [|reflexivity].
  apply Ascii.eqb_eq in E; subst c; discriminate.
Qed.

Lemma one_line_lf_only (raw : str) : one_line raw = true -> lf_only raw = true.
Proof.
  unfold one_line, lf_only; rewrite !forallb_forall; intros Hl c Hc.
  now rewrite (Hl c Hc).
Qed.

(** On a text whose only terminator is LF, [splitlines] and [split("\n")]
    have the same lines but for a last empty one. *)
Lemma splitlines_split_nl (u : str) :
  lf_only u = true ->
  exists rest, split_nl u = splitlines u ++ rest /\ (rest = [] \/ rest = [[]]).
Proof.
  induction u as [|c u IH]; intros Hu; [exists [[]]; now split; [|right]|].
  unfold lf_only in Hu; simpl in Hu; apply andb_prop in Hu as [Hc Hu].
  destruct (IH Hu) as (rest & Hrest & Hcase).
  change (split_nl (c :: u))
    with (if Ascii.eqb c LF then [] :: split_nl u
          else cons_head c (split_nl u)).
  change (splitlines (c :: u))
    with (if is_linebreak c then
            match u with
            | d :: u' =>
                if Ascii.eqb c CR && Ascii.eqb d LF
                then [] :: splitlines u' else [] :: splitlines u
            | [] => [[]]
            end
          else cons_head c (splitlines u)).
  destruct (Ascii.eqb c LF) eqn:E.
  - apply Ascii.eqb_eq in E; subst c.
    change (is_linebreak LF) with true; cbv iota.
    destruct u as [|d u]; [exists [[]]; now split; [|right]|].
    change (Ascii.eqb LF CR) with false; cbv iota beta.
    cbn [andb]; exists rest; now rewrite Hrest.
  - rewrite orb_false_r in Hc; apply negb_true_iff in Hc; rewrite Hc.
    destruct (splitlines u) as [|x X] eqn:EX.
    + apply splitlines_nil in EX; subst u; exists []; now split; [|left].
    + exists rest; rewrite Hrest; now split.
Qed.

Lemma filter_nonempty_rest (L rest : list str) :
  rest = [] \/ rest = [[]] -> filter nonempty (L ++ rest) = filter nonempty L.
Proof.
  intros [-> | ->]; [now rewrite app_nil_r|].
  rewrite filter_app; simpl; now rewrite app_nil_r.
Qed.

(** Where LF is the only line terminator, the commands of a block are the
    non-empty lines that [dedent] leaves. *)
Lemma command_lines_dedent (commands : str) :
  lf_only commands = true ->
  command_lines commands = filter nonempty (dedent_lines commands).
Proof.
  intros Hlf.
  destruct (splitlines_split_nl _ (dedent_lf_only _ Hlf))
    as (rest & Hrest & Hcase).
  unfold command_lines; fold nonempty.
  rewrite <- (filter_nonempty_rest _ rest Hcase), <- Hrest.
  unfold dedent; rewrite split_nl_join;
    [reflexivity | apply dedent_lines_nonempty | apply dedent_lines_no_lf].
Qed.

Lemma startswith_refl (m : str) : startswith m m = true.
Proof. rewrite <- (app_nil_r m) at 2; apply startswith_app. Qed.

Lemma indent_of_margin (m rest : str) (c : ascii) :
  forallb is_sp_tab m = true -> is_sp_tab c = false ->
  indent_of (m ++ c :: rest) = m.
Proof.
  intros Hm Hc; induction m as [|a m IH]; simpl.
  - now rewrite Hc.
  - simpl in Hm; apply andb_prop in Hm as [Ha Hm].
    now rewrite Ha, IH.
Qed.

(** A line that is not blank is the margin and its body. *)
Lemma well_indented_body (m raw : str) :
  well_indented m raw = true -> forallb is_sp_tab raw = false ->
  exists c rest, raw = m ++ c :: rest /\ is_sp_tab c = false.
Proof.
  unfold well_indented; intros Hw Hb; rewrite Hb in Hw; simpl in Hw.
  apply andb_prop in Hw as [Hs Hc].
  destruct (startswith_inv _ _ Hs) as [t Ht].
  rewrite Ht, startswith_skipn in Hc.
  destruct t as [|c rest]; [discriminate|].
  exists c, rest; split; [exact Ht | now apply negb_true_iff].
Qed.

Lemma fold_margin_same (m : str) (indents : list str) :
  Forall (fun i => i = m) indents ->
  fold_left margin_step indents (Some m) = Some m.
Proof.
  induction indents as [|i indents IH]; intros Hall; [reflexivity|].
  inversion Hall; subst; simpl.
  rewrite startswith_refl; now apply IH.
Qed.

Lemma indents_uniform (m : str) (raws : list str) :
  forallb is_sp_tab m = true ->
  Forall (fun raw => well_indented m raw = true) raws ->
  Forall (fun i => i = m)
    (map indent_of (filter nonempty (map blank_to_empty raws))).
Proof.
  intros Hm; induction raws as [|raw raws IH]; intros Hall; [constructor|].
  inversion Hall as [|? ? Hraw Hraws]; subst; specialize (IH Hraws).
  change (map blank_to_empty (raw :: raws))
    with (blank_to_empty raw :: map blank_to_empty raws).
  destruct (forallb is_sp_tab raw) eqn:Hb.
  - replace (blank_to_empty raw) with (@nil ascii)
      by (unfold blank_to_empty; now rewrite Hb).
    exact IH.
  - replace (blank_to_empty raw) with raw
      by (unfold blank_to_empty; now rewrite Hb).
    destruct (well_indented_body m raw Hraw Hb) as (c & rest & -> & Hc).
    change (filter nonempty ((m ++ c :: rest) :: map blank_to_empty raws))
      with (if nonempty (m ++ c :: rest)
            then (m ++ c :: rest) :: filter nonempty (map blank_to_empty raws)
            else filter nonempty (map blank_to_empty raws)).
    replace (nonempty (m ++ c :: rest)) with true
      by (destruct m; reflexivity).
    constructor; [now apply indent_of_margin | exact IH].
Qed.

(** What [dedent] makes of a block whose lines share the margin [m]. *)
Lemma dedent_lines_uniform (m : str) (raws : list str) :
  raws <> [] ->
  forallb is_sp_tab m = true ->
  Forall (fun raw => one_line raw = true) raws ->
  Forall (fun raw => well_indented m raw = true) raws ->
  dedent_lines (join [LF] raws) = map (body_of m) raws.
Proof.
  intros Hne Hm Hone Hind.
  unfold dedent_lines.
  rewrite split_nl_join;
    [|exact Hne
     |eapply Forall_impl; [|exact Hone]; intros l; apply one_line_no_lf].
  remember (map indent_of
              (filter (fun l : list ascii => negb (Nat.eqb (length l) 0))
                      (map blank_to_empty raws)))
    as indents eqn:Ei.
  assert (Hi : Forall (fun i => i = m) indents)
    by (rewrite Ei; exact (indents_uniform m raws Hm Hind)).
  assert (Hbody : forall raw, In raw raws ->
            forallb is_sp_tab raw = false ->
            startswith m raw = true /\ raw <> []).
  { intros raw Hin Hb; rewrite Forall_forall in Hind.
    destruct (well_indented_body m raw (Hind raw Hin) Hb)
      as (c & rest & -> & Hc).
    split; [apply startswith_app | destruct m; discriminate]. }
  destruct indents as [|i more].
  - simpl.
    apply map_ext_in; intros raw Hin.
    unfold blank_to_empty, body_of.
    destruct (forallb is_sp_tab raw) eqn:Hb; [reflexivity|].
    exfalso.
    assert (Hin' : In raw (filter nonempty (map blank_to_empty raws))).
    { apply filter_In; split.
      - apply in_map_iff; exists raw; split; [|exact Hin].
        unfold blank_to_empty; now rewrite Hb.
      - destruct raw; [discriminate Hb | reflexivity]. }
    apply (in_map indent_of) in Hin'.
    assert (Hnil : map indent_of
                     (filter nonempty (map blank_to_empty raws)) = [])
      by (symmetry; exact Ei).
    rewrite Hnil in Hin'; exact Hin'.
  - assert (Him : i = m) by now inversion Hi.
    assert (Hmore : Forall (fun i => i = m) more) by now inversion Hi.
    rewrite Him.
    change (fold_left margin_step (m :: more) None)
      with (fold_left margin_step more (Some m)).
    rewrite fold_margin_same by assumption.
    destruct m as [|a m].
    + apply map_ext_in; intros raw Hin.
      unfold blank_to_empty, body_of.
      now destruct (forallb is_sp_tab raw).
    + rewrite map_map; apply map_ext_in; intros raw Hin.
      unfold blank_to_empty, body_of, strip_margin.
      destruct (forallb is_sp_tab raw) eqn:Hb; [reflexivity|].
      now rewrite (proj1 (Hbody raw Hin Hb)).
Qed.

Lemma join_lf_only (raws : list str) :
  Forall (fun raw => one_line raw = true) raws ->
  lf_only (join [LF] raws) = true.
Proof.
  intros Hone; unfold lf_only; apply join_chars; [reflexivity|].
  eapply Forall_impl; [|exact Hone].
  intros raw Hraw; now apply one_line_lf_only.
Qed.

Section Blocks.

Context {W : Type} `{OS W}.

Lemma run_commands_lines (commands : str) (p : proc W) :
  run_commands commands p = run_lines (command_lines commands) p.
Proof. unfold run_commands; now rewrite run_lines_filter. Qed.

(** X2: a block of commands written as the program writes them, every
    line either blank or the common margin followed by a command that
    holds no line terminator, runs the commands behind the margin, in
    order and without the margin; the blank lines are dropped. *)
Theorem block_commands (m : str) (raws : list str) :
  forallb is_sp_tab m = true ->
  forallb (fun raw => one_line raw && well_indented m raw) raws = true ->
  command_lines (join [LF] raws) = filter nonempty (map (body_of m) raws) /\
  forall p : proc W,
    run_commands (join [LF] raws) p
    = run_lines (filter nonempty (map (body_of m) raws)) p.
Proof.
  intros Hm Hraws.
  assert (Hlines : command_lines (join [LF] raws)
                   = filter nonempty (map (body_of m) raws)).
  { destruct raws as [|raw raws]; [reflexivity|].
    rewrite forallb_forall in Hraws.
    assert (Hone : Forall (fun raw => one_line raw = true) (raw :: raws)).
    { apply Forall_forall; intros r Hr.
      now destruct (andb_prop _ _ (Hraws r Hr)). }
    assert (Hind : Forall (fun r => well_indented m r = true) (raw :: raws)).
    { apply Forall_forall; intros r Hr.
      now destruct (andb_prop _ _ (Hraws r Hr)). }
    rewrite command_lines_dedent by now apply join_lf_only.
    rewrite (dedent_lines_uniform m) by (assumption || discriminate).
    reflexivity. }
  split; [exact Hlines|].
  intros p; now rewrite run_commands_lines, Hlines.
Qed.

(** A command on one line, without a space or tab before it, is run as
    it is. *)
Lemma command_lines_one (c : str) :
  one_line c = true -> starts_plain c = true -> command_lines c = [c].
Proof.
  intros Hone Hplain.
  destruct c as [|a c]; [discriminate|].
  simpl in Hplain; apply negb_true_iff in Hplain.
  assert (Hind : well_indented [] (a :: c) = true).
  { unfold well_indented; simpl; rewrite Hplain; reflexivity. }
  change (a :: c) with (join [LF] [a :: c]) at 1.
  rewrite command_lines_dedent by (apply join_lf_only; now constructor).
  rewrite (dedent_lines_uniform []);
    [|discriminate | reflexivity | now constructor | now constructor].
  simpl; unfold body_of; simpl; rewrite Hplain; reflexivity.
Qed.

(** X3: a block that holds nothing but spaces, tabs and line feeds, the
    empty block among them, runs no command: [run_commands] returns
    without an error and leaves the process as it was. *)
Theorem blank_block_runs_nothing (commands : str) (p : proc W) :
  all_blank commands = true -> run_commands commands p = (Ok tt, p).
Proof.
  intros Hb.
  assert (Hlf : lf_only commands = true).
  { unfold all_blank, lf_only in *; rewrite forallb_forall in *.
    intros c Hc; specialize (Hb c Hc).
    apply orb_prop in Hb as [Hs | Hl]; [|now rewrite Hl, orb_true_r].
    unfold is_sp_tab in Hs; apply orb_prop in Hs as [Hs | Hs];
      apply Ascii.eqb_eq in Hs; subst c; reflexivity. }
  assert (Hnone : command_lines commands = []).
  { rewrite command_lines_dedent by assumption.
    pose proof (dedent_lines_chars _ commands Hb) as Hchars.
    pose proof (dedent_lines_no_lf commands) as Hnolf.
    pose proof (dedent_lines_text commands) as Htext.
    induction (dedent_lines commands) as [|l ls IH]; [reflexivity|].
    inversion Hchars as [|? ? Hc Hcs]; inversion Hnolf as [|? ? Hn Hns];
      inversion Htext as [|? ? Ht Hts]; subst.
    assert (Hl : forallb is_sp_tab l = true).
    { unfold no_lf in Hn; rewrite forallb_forall in *; intros c Hin.
      specialize (Hc c Hin); specialize (Hn c Hin).
      apply negb_true_iff in Hn; now rewrite Hn, orb_false_r in Hc. }
    destruct Ht as [-> | Ht]; [now apply IH|].
    now rewrite (blank_has_no_text l Hl) in Ht. }
  rewrite run_commands_lines, Hnone.
  reflexivity.
Qed.

(** Either every command of a list succeeds, or there is a first one
    that fails. *)
Lemma first_failure (cmds : list str) (w : W) :
  all_succeed cmds w \/
  exists pre c post,
    cmds = pre ++ c :: post /\ all_succeed pre w /\
    fst (sh c (world_after pre w)) <> 0%Z.
Proof.
  revert w; induction cmds as [|c cmds IH]; intros w; [now left|].
  destruct (Z.eq_dec (fst (sh c w)) 0) as [Hc | Hc].
  - destruct (IH (snd (sh c w))) as [Hall | (pre & d & post & -> & Hpre & Hd)].
    + left; now split.
    + right; exists (c :: pre), d, post; repeat split; assumption.
  - right; exists [], c, cmds; repeat split; assumption.
Qed.

(** X1: what the outcome of [run_commands] tells.  When it returns
    normally, every command of the block has been printed and run, in
    order, and has exited with status 0.  When it raises
    [CalledProcessError], the exception carries the first command that
    exited with another status and that status: the commands before it
    exited with status 0, none after it was printed or run, and the world
    is the one that this command left.  Nothing is said of a run that
    ends with another exception. *)
Theorem run_commands_result (commands : str) (p : proc W) :
  match run_commands commands p with
  | (Ok _, p') =>
      all_succeed (command_lines commands) (world p) /\
      world p' = world_after (command_lines commands) (world p) /\
      trace p' = trace p ++ events_of (command_lines commands)
  | (Raise (CalledProcessError status c), p') =>
      exists pre post,
        command_lines commands = pre ++ c :: post /\
        all_succeed pre (world p) /\
        status = fst (sh c (world_after pre (world p))) /\
        status <> 0%Z /\
        world p' = snd (sh c (world_after pre (world p))) /\
        trace p' = trace p ++ events_of pre ++ [Print c; Run c]
  | (Raise (OSError _), _) => True
  end.
Proof.
  rewrite run_commands_lines.
  pose proof (command_lines_nonempty commands) as Hne.
  destruct (first_failure (command_lines commands) (world p))
    as [Hall | (pre & c & post & Hsplit & Hpre & Hc)].
  - rewrite run_lines_ok by assumption; now repeat split.
  - rewrite Hsplit in *.
    rewrite run_lines_fail by assumption.
    exists pre, post; repeat split; assumption.
Qed.

End Blocks.

(** The rough block of the samples, line by line. *)
Lemma block_commands_witness :
  command_lines sample_block = ['"git status"; '"false"; '"git push"].
Proof.
  change sample_block
    with (join [LF] ['"    git status"; []; '"    false"; '"  ";
                     '"    git push"; '"    "]).
  rewrite (proj1 (block_commands (W := sim) '"    "
                    ['"    git status"; []; '"    false"; '"  ";
                     '"    git push"; '"    "] eq_refl eq_refl)).
  reflexivity.
Defined.

(** Spaces, a tab and empty lines run nothing. *)
Lemma blank_block_runs_nothing_witness :
  run_commands ('"  " ++ [LF; TAB; LF; LF]) (start (mkSim 2024 [] []))
  = (Ok tt, start (mkSim 2024 [] [])).
Proof. apply blank_block_runs_nothing; reflexivity. Defined.

(* ================================================================== *)
(** * The operations, step by step *)
(* ================================================================== *)

Section Steps.

Context {W : Type} `{OS W} `{FS W}.

Lemma bind_raise {A B : Type} (m : M W A) (f : A -> M W B) (p p' : proc W)
      (e : exn) :
  m p = (Raise e, p') -> bind m f p = (Raise e, p').
Proof. intros E; unfold bind; now rewrite E. Qed.

(** Computations that agree on every process can stand for each other
    under [bind]. *)
Lemma bind_ext {A B : Type} (m m' : M W A) (f f' : A -> M W B) (p : proc W) :
  (forall q, m q = m' q) -> (forall a q, f a q = f' a q) ->
  bind m f p = bind m' f' p.
Proof.
  intros Hm Hf; unfold bind; rewrite Hm.
  destruct (m' p) as [[a|e] q]; [apply Hf | reflexivity].
Qed.

Lemma mkdir_ok (path : str) (w w1 : W) (c1 c2 : option Z)
      (tr : list event) :
  os_mkdir path w = Some w1 ->
  mkdir path (mkProc w c1 c2 tr) = (Ok tt, mkProc w1 c1 c2 tr).
Proof.
  intros E; unfold mkdir, bind, get_world; cbn [world]; now rewrite E.
Qed.

Lemma rmtree_ok (path : str) (w : W) (c1 c2 : option Z) (tr : list event) :
  rmtree path (mkProc w c1 c2 tr)
  = (Ok tt, mkProc (os_rmtree path w) c1 c2 tr).
Proof. reflexivity. Qed.

Lemma print_step (line : str) (w : W) (c1 c2 : option Z) (tr : list event) :
  print line (mkProc w c1 c2 tr) = (Ok tt, mkProc w c1 c2 (tr ++ [Print line])).
Proof. reflexivity. Qed.

Lemma last_year_cached (w : W) (c1 : option Z) (y : Z) (tr : list event) :
  last_year (mkProc w c1 (Some y) tr) = (Ok y, mkProc w c1 (Some y) tr).
Proof. reflexivity. Qed.

Lemma chdir_fails (path : str) (w : W) (c1 c2 : option Z) (tr : list event) :
  os_chdir path w = None ->
  chdir path (mkProc w c1 c2 tr) = (Raise (OSError path), mkProc w c1 c2 tr).
Proof.
  intros E; unfold chdir, bind, get_world; cbn [world]; now rewrite E.
Qed.

Lemma read_file_fails (path : str) (w : W) (c1 c2 : option Z)
      (tr : list event) :
  read_text path w = None ->
  read_file path (mkProc w c1 c2 tr)
  = (Raise (OSError path), mkProc w c1 c2 tr).
Proof.
  intros E; unfold read_file, bind, get_world; cbn [world]; now rewrite E.
Qed.

(** A block whose commands all succeed. *)
Lemma run_block_ok (commands : str) (cmds : list str) (w : W)
      (c1 c2 : option Z) (tr : list event) :
  command_lines commands = cmds -> all_succeed cmds w ->
  run_commands commands (mkProc w c1 c2 tr)
  = (Ok tt, mkProc (world_after cmds w) c1 c2 (tr ++ events_of cmds)).
Proof.
  intros <- Hall; rewrite run_commands_lines.
  now rewrite run_lines_ok by (apply command_lines_nonempty || assumption).
Qed.

(** A block in which a command fails. *)
Lemma run_block_fail (commands : str) (pre : list str) (c : str)
      (post : list str) (w : W) (c1 c2 : option Z) (tr : list event) :
  command_lines commands = pre ++ c :: post -> all_succeed pre w ->
  fst (sh c (world_after pre w)) <> 0%Z ->
  run_commands commands (mkProc w c1 c2 tr)
  = (Raise (CalledProcessError (fst (sh c (world_after pre w))) c),
     mkProc (snd (sh c (world_after pre w))) c1 c2
            (tr ++ events_of pre ++ [Print c; Run c])).
Proof.
  intros Hsplit Hpre Hc; rewrite run_commands_lines, Hsplit.
  rewrite run_lines_fail; [reflexivity | | assumption..].
  rewrite <- Hsplit; apply command_lines_nonempty.
Qed.

(** ** The command lines of the program *)

Lemma one_line_year (a b : str) (n : Z) :
  one_line a = true -> one_line b = true ->
  one_line (a ++ str_of_int n ++ b) = true.
Proof.
  intros Ha Hb; rewrite !one_line_app, Ha, Hb.
  now rewrite (years_one_line _ (str_of_int_chars n)).
Qed.

Lemma commit_command_line (this last : Z) :
  command_lines ('"git commit -m '" ++ str_of_int last ++ '" -> "
                   ++ str_of_int this ++ '"'")
  = ['"git commit -m '" ++ str_of_int last ++ '" -> "
       ++ str_of_int this ++ '"'"].
Proof.
  apply command_lines_one; [|reflexivity].
  apply one_line_year; [reflexivity|].
  apply (one_line_year '" -> "); reflexivity.
Qed.

Lemma clone_command_line (this : Z) :
  command_lines (clone_command this) = [clone_command this].
Proof.
  apply command_lines_one; [|reflexivity].
  unfold clone_command.
  apply one_line_year; [reflexivity|].
  rewrite <- (app_nil_r (str_of_int this)).
  apply (one_line_year '" /tmp/update-repo/"); reflexivity.
Qed.

Lemma label_clone_line (last : Z) :
  command_lines ('"gh label clone NaNoGenMo/" ++ str_of_int last)
  = ['"gh label clone NaNoGenMo/" ++ str_of_int last].
Proof.
  apply command_lines_one; [|reflexivity].
  rewrite <- (app_nil_r (str_of_int last)).
  apply one_line_year; reflexivity.
Qed.

(** The first block of [create_repo] holds four commands: its two comment
    lines go to the shell as well. *)
Lemma create_repo_block_lines (this last : Z) :
  command_lines (create_repo_block this last)
  = create_repo_commands this last.
Proof.
  assert (Hblock : create_repo_block this last
            = join [LF]
                [ '"    # Create destination repo on GitHub";
                  '"    gh repo create " ++ str_of_int this
                    ++ '" --private";
                  [];
                  '"    # Make a bare clone of the repository";
                  '"    git clone --bare https://github.com/NaNoGenMo/"
                    ++ str_of_int last ++ '".git";
                  '"    " ]).
  { unfold create_repo_block; cbn [join].
    now rewrite <- !app_assoc. }
  assert (Hraws :
    forallb (fun raw => one_line raw && well_indented '"    " raw)
      [ '"    # Create destination repo on GitHub";
        '"    gh repo create " ++ str_of_int this ++ '" --private";
        [];
        '"    # Make a bare clone of the repository";
        '"    git clone --bare https://github.com/NaNoGenMo/"
          ++ str_of_int last ++ '".git";
        '"    " ] = true).
  { cbn [forallb]; rewrite !one_line_year; reflexivity. }
  rewrite Hblock.
  rewrite (proj1 (block_commands (W := W) '"    " _ eq_refl Hraws)).
  reflexivity.
Qed.

Lemma push_block_lines (this : Z) :
  command_lines (push_block this) = push_commands this.
Proof.
  assert (Hblock : push_block this
            = join [LF]
                [ '"    # Mirror-push to the new repository";
                  '"    git push --mirror https://github.com/hugovk/"
                    ++ str_of_int this ++ '".git";
                  '"    " ]).
  { unfold push_block; cbn [join].
    now rewrite <- !app_assoc. }
  assert (Hraws :
    forallb (fun raw => one_line raw && well_indented '"    " raw)
      [ '"    # Mirror-push to the new repository";
        '"    git push --mirror https://github.com/hugovk/"
          ++ str_of_int this ++ '".git";
        '"    " ] = true).
  { cbn [forallb]; rewrite !one_line_year; reflexivity. }
  rewrite Hblock.
  rewrite (proj1 (block_commands (W := W) '"    " _ eq_refl Hraws)).
  reflexivity.
Qed.

End Steps.

(* ================================================================== *)
(** * README updater, from the file to the push *)
(* ================================================================== *)

Section Readme_run.

Context {W : Type} `{OS W}.

(** X4: a run of [update_readme] in which every step succeeds.  The
    README is rolled forward with the year that the clock showed when the
    run began, printed and written back; then [git add], [git commit]
    and [git push] are run, in this order, and the commit message names
    the same two years, whatever the commands did to the clock
    meanwhile. *)
Theorem update_readme_commits (w w1 w2 : W) (readme : str) :
  os_chdir ('"/tmp/update-repo/" ++ str_of_int (now_year w)) w = Some w1 ->
  read_text '"README.md" w1 = Some readme ->
  write_text '"README.md"
    (update_readme_text (now_year w) (now_year w - 1) readme) w1 = Some w2 ->
  all_succeed (git_commands (now_year w) (now_year w - 1)) w2 ->
  update_readme (start w)
  = (Ok tt,
     mkProc (world_after (git_commands (now_year w) (now_year w - 1)) w2)
            (Some (now_year w)) (Some (now_year w - 1)%Z)
            ([Print (update_readme_text (now_year w) (now_year w - 1) readme);
              Wrote '"README.md"
                (update_readme_text (now_year w) (now_year w - 1) readme)]
               ++ events_of (git_commands (now_year w) (now_year w - 1)))).
Proof.
  intros Hcd Hread Hw Hall.
  destruct Hall as (Hadd & Hcommit & Hpush & _).
  unfold update_readme, start.
  rewrite (bind_ok _ _ _ _ _ (this_year_fresh _ _ _)).
  rewrite (bind_ok _ _ _ _ _ (chdir_ok _ _ _ _ _ _ Hcd)).
  rewrite (bind_ok _ _ _ _ _ (read_file_ok _ _ _ _ _ _ Hread)).
  rewrite (bind_ok _ _ _ _ _ (last_year_first _ _ _)).
  rewrite (bind_ok _ _ _ _ _ (this_year_cached _ _ _ _)).
  rewrite (bind_ok _ _ _ _ _ (print_step _ _ _ _ _)).
  rewrite (bind_ok _ _ _ _ _ (write_file_ok _ _ _ _ _ _ _ Hw)).
  rewrite (bind_ok _ _ _ _ _
             (run_block_ok '"git add README.md" ['"git add README.md"]
                _ _ _ _ eq_refl (conj Hadd I))).
  rewrite (bind_ok _ _ _ _ _ (last_year_cached _ _ _ _)).
  rewrite (bind_ok _ _ _ _ _ (this_year_cached _ _ _ _)).
  rewrite (bind_ok _ _ _ _ _
             (run_block_ok _ _ _ _ _ _ (commit_command_line _ _)
                (conj Hcommit I))).
  rewrite (run_block_ok '"git push" ['"git push"] _ _ _ _ eq_refl
             (conj Hpush I)).
  reflexivity.
Qed.

(** X5: without a working copy or without a README that can be read,
    [update_readme] ends at once with an exception and has printed
    nothing, written nothing and run no command.  When the working copy
    cannot be entered the exception is the [OSError] of [os.chdir] and
    the world is untouched; when the README cannot be read the run ends
    in the working copy, with whatever exception reading raised (the
    statement does not say which). *)
Theorem update_readme_needs_readme (w : W) :
  (os_chdir ('"/tmp/update-repo/" ++ str_of_int (now_year w)) w = None ->
   update_readme (start w)
   = (Raise (OSError ('"/tmp/update-repo/" ++ str_of_int (now_year w))),
      mkProc w (Some (now_year w)) None [])) /\
  (forall w1,
     os_chdir ('"/tmp/update-repo/" ++ str_of_int (now_year w)) w = Some w1 ->
     read_text '"README.md" w1 = None ->
     exists e,
       update_readme (start w)
       = (Raise e, mkProc w1 (Some (now_year w)) None [])).
Proof.
  split; [intros Hcd | intros w1 Hcd Hread]; unfold update_readme, start;
    rewrite (bind_ok _ _ _ _ _ (this_year_fresh _ _ _)).
  - now rewrite (bind_raise _ _ _ _ _ (chdir_fails _ _ _ _ _ Hcd)).
  - rewrite (bind_ok _ _ _ _ _ (chdir_ok _ _ _ _ _ _ Hcd)).
    rewrite (bind_raise _ _ _ _ _ (read_file_fails _ _ _ _ _ Hread)).
    now eexists.
Qed.

(** X6: when [git add] fails, [update_readme] raises its
    [CalledProcessError] and neither commits nor pushes; the rolled
    README is already written by then and stays written. *)
Theorem update_readme_add_fails (w w1 w2 : W) (readme : str) :
  os_chdir ('"/tmp/update-repo/" ++ str_of_int (now_year w)) w = Some w1 ->
  read_text '"README.md" w1 = Some readme ->
  write_text '"README.md"
    (update_readme_text (now_year w) (now_year w - 1) readme) w1 = Some w2 ->
  fst (sh '"git add README.md" w2) <> 0%Z ->
  update_readme (start w)
  = (Raise (CalledProcessError (fst (sh '"git add README.md" w2))
                               '"git add README.md"),
     mkProc (snd (sh '"git add README.md" w2))
            (Some (now_year w)) (Some (now_year w - 1)%Z)
            [Print (update_readme_text (now_year w) (now_year w - 1) readme);
             Wrote '"README.md"
               (update_readme_text (now_year w) (now_year w - 1) readme);
             Print '"git add README.md"; Run '"git add README.md"]).
Proof.
  intros Hcd Hread Hw Hadd.
  unfold update_readme, start.
  rewrite (bind_ok _ _ _ _ _ (this_year_fresh _ _ _)).
  rewrite (bind_ok _ _ _ _ _ (chdir_ok _ _ _ _ _ _ Hcd)).
  rewrite (bind_ok _ _ _ _ _ (read_file_ok _ _ _ _ _ _ Hread)).
  rewrite (bind_ok _ _ _ _ _ (last_year_first _ _ _)).
  rewrite (bind_ok _ _ _ _ _ (this_year_cached _ _ _ _)).
  rewrite (bind_ok _ _ _ _ _ (print_step _ _ _ _ _)).
  rewrite (bind_ok _ _ _ _ _ (write_file_ok _ _ _ _ _ _ _ Hw)).
  rewrite (bind_raise _ _ _ _ _
             (run_block_fail '"git add README.md" [] '"git add README.md" []
                _ _ _ _ eq_refl I Hadd)).
  reflexivity.
Qed.

End Readme_run.

(* ================================================================== *)
(** * The README of 2023 *)
(* ================================================================== *)

Section Readme_2024.

Context {W : Type} `{OS W}.

(** Whether its git commands succeed or not, [update_readme] leaves the
    world that some of them, in order, made of the world with the README
    written. *)
Lemma update_readme_world (w w1 w2 : W) (readme : str) :
  os_chdir ('"/tmp/update-repo/" ++ str_of_int (now_year w)) w = Some w1 ->
  read_text '"README.md" w1 = Some readme ->
  write_text '"README.md"
    (update_readme_text (now_year w) (now_year w - 1) readme) w1 = Some w2 ->
  exists n,
    world (snd (update_readme (start w)))
    = world_after (firstn n (git_commands (now_year w) (now_year w - 1))) w2.
Proof.
  intros Hcd Hread Hw.
  unfold update_readme, start.
  rewrite (bind_ok _ _ _ _ _ (this_year_fresh _ _ _)).
  rewrite (bind_ok _ _ _ _ _ (chdir_ok _ _ _ _ _ _ Hcd)).
  rewrite (bind_ok _ _ _ _ _ (read_file_ok _ _ _ _ _ _ Hread)).
  rewrite (bind_ok _ _ _ _ _ (last_year_first _ _ _)).
  rewrite (bind_ok _ _ _ _ _ (this_year_cached _ _ _ _)).
  rewrite (bind_ok _ _ _ _ _ (print_step _ _ _ _ _)).
  rewrite (bind_ok _ _ _ _ _ (write_file_ok _ _ _ _ _ _ _ Hw)).
  destruct (Z.eq_dec (fst (sh '"git add README.md" w2)) 0) as [Hadd | Hadd].
  - rewrite (bind_ok _ _ _ _ _
               (run_block_ok '"git add README.md" ['"git add README.md"]
                  _ _ _ _ eq_refl (conj Hadd I))).
    rewrite (bind_ok _ _ _ _ _ (last_year_cached _ _ _ _)).
    rewrite (bind_ok _ _ _ _ _ (this_year_cached _ _ _ _)).
    match goal with
    | |- context [bind (run_commands ?c) _ (mkProc ?v _ _ _)] =>
        destruct (Z.eq_dec (fst (sh c v)) 0) as [Hcommit | Hcommit]
    end.
    + rewrite (bind_ok _ _ _ _ _
                 (run_block_ok _ _ _ _ _ _ (commit_command_line _ _)
                    (conj Hcommit I))).
      exists 3.
      match goal with
      | |- context [run_commands '"git push" (mkProc ?v _ _ _)] =>
          destruct (Z.eq_dec (fst (sh '"git push" v)) 0) as [Hpush | Hpush]
      end.
      * now rewrite (run_block_ok '"git push" ['"git push"] _ _ _ _ eq_refl
                       (conj Hpush I)).
      * now rewrite (run_block_fail '"git push" [] '"git push" []
                       _ _ _ _ eq_refl I Hpush).
    + exists 2.
      now rewrite (bind_raise _ _ _ _ _
                     (run_block_fail _ [] _ [] _ _ _ _
                        (commit_command_line _ _) I Hcommit)).
  - exists 1.
    now rewrite (bind_raise _ _ _ _ _
                   (run_block_fail '"git add README.md" []
                      '"git add README.md" [] _ _ _ _ eq_refl I Hadd)).
Qed.

(** C3: in a fresh run whose clock shows 2024, so that last year is 2023,
    with a working copy whose README holds the title of 2023,
    [update_readme] yields a README that holds the title of 2024 and no
    title of 2023.  This text is the one file the run writes, to
    [README.md]; and the world the run leaves is the world in which
    [README.md] was written with this text, after the git commands that
    ran. *)
Theorem update_readme_2023_to_2024 (w w1 w2 : W) (readme : str) :
  now_year w = 2024%Z ->
  os_chdir '"/tmp/update-repo/2024" w = Some w1 ->
  read_text '"README.md" w1 = Some readme ->
  write_text '"README.md" (update_readme_text 2024 2023 readme) w1
  = Some w2 ->
  infix '"# NaNoGenMo 2023" readme = true ->
  infix '"# NaNoGenMo 2024" (update_readme_text 2024 2023 readme) = true /\
  infix '"# NaNoGenMo 2023" (update_readme_text 2024 2023 readme) = false /\
  writes (trace (snd (update_readme (start w))))
  = [('"README.md", update_readme_text 2024 2023 readme)] /\
  exists n,
    world (snd (update_readme (start w)))
    = world_after (firstn n (git_commands 2024 2023)) w2.
Proof.
  intros Hyear Hcd Hread Hw Htitle.
  destruct (title_rolls 2024 readme ltac:(lia) Htitle) as [Hnew Hold].
  assert (Hcd' : os_chdir ('"/tmp/update-repo/" ++ str_of_int (now_year w)) w
                 = Some w1) by (rewrite Hyear; exact Hcd).
  assert (Hw' : write_text '"README.md"
                  (update_readme_text (now_year w) (now_year w - 1) readme) w1
                = Some w2) by (rewrite Hyear; exact Hw).
  split; [exact Hnew|]; split; [exact Hold|]; split.
  - rewrite (update_readme_writes w w1 readme Hcd' Hread);
      [now rewrite Hyear | now rewrite Hw'].
  - destruct (update_readme_world w w1 w2 readme Hcd' Hread Hw') as [n Hn].
    exists n; rewrite Hn, Hyear; reflexivity.
Qed.

End Readme_2024.

(** The sample README of 2023 in the small world: after the run the
    README of the working copy is the text with the title of 2024. *)
Lemma update_readme_2023_to_2024_witness :
  (infix '"# NaNoGenMo 2024" (update_readme_text 2024 2023 sample_readme)
   = true /\
   infix '"# NaNoGenMo 2023" (update_readme_text 2024 2023 sample_readme)
   = false /\
   writes (trace (snd (update_readme (start sample_world))))
   = [('"README.md", update_readme_text 2024 2023 sample_readme)] /\
   exists n,
     world (snd (update_readme (start sample_world)))
     = world_after (firstn n (git_commands 2024 2023)) sample_world_written)
  /\
  read_text '"README.md" (world (snd (update_readme (start sample_world))))
  = Some (update_readme_text 2024 2023 sample_readme).
Proof.
  split.
  - apply (update_readme_2023_to_2024 sample_world sample_world
             sample_world_written sample_readme).
    + reflexivity.
    + reflexivity.
    + reflexivity.
    + reflexivity.
    + vm_compute; reflexivity.
  - vm_compute; reflexivity.
Defined.

(* ================================================================== *)
(** * The other operations *)
(* ================================================================== *)

Section Seeding.

Context {W : Type} `{OS W}.

(** Each command of the issue seeder is one line of its own. *)
Lemma issue_command_line (c : str) :
  In c issue_commands -> command_lines c = [c].
Proof.
  intros [<- | [<- | [<- | []]]]; now apply command_lines_one.
Qed.

(** X7: a run of [create_issues] in which every step succeeds writes the
    two bodies to [/tmp/issue1.txt] and [/tmp/issue2.txt], for the year
    before the one on the clock, and only then runs its three [gh]
    commands: the two issues are created in the order Resources, Press,
    each from its own file, and then listed. *)
Theorem create_issues_creates_both (w w1 w2 w3 : W) :
  os_chdir ('"/tmp/update-repo/" ++ str_of_int (now_year w)) w = Some w1 ->
  write_text '"/tmp/issue1.txt" (issue1_text (now_year w - 1)) w1 = Some w2 ->
  write_text '"/tmp/issue2.txt" (issue2_text (now_year w - 1)) w2 = Some w3 ->
  all_succeed issue_commands w3 ->
  create_issues (start w)
  = (Ok tt,
     mkProc (world_after issue_commands w3)
            (Some (now_year w)) (Some (now_year w - 1)%Z)
            ([Wrote '"/tmp/issue1.txt" (issue1_text (now_year w - 1));
              Wrote '"/tmp/issue2.txt" (issue2_text (now_year w - 1))]
               ++ events_of issue_commands)).
Proof.
  intros Hcd Hw1 Hw2 Hall.
  destruct Hall as (H1 & H2 & H3 & _).
  unfold create_issues, start.
  rewrite (bind_ok _ _ _ _ _ (this_year_fresh _ _ _)).
  rewrite (bind_ok _ _ _ _ _ (chdir_ok _ _ _ _ _ _ Hcd)).
  rewrite (bind_ok _ _ _ _ _ (last_year_first _ _ _)).
  rewrite (bind_ok _ _ _ _ _ (write_file_ok _ _ _ _ _ _ _ Hw1)).
  rewrite (bind_ok _ _ _ _ _ (last_year_cached _ _ _ _)).
  rewrite (bind_ok _ _ _ _ _ (write_file_ok _ _ _ _ _ _ _ Hw2)).
  rewrite (bind_ok _ _ _ _ _
             (run_block_ok _ _ _ _ _ _
                (issue_command_line _ (or_introl eq_refl)) (conj H1 I))).
  rewrite (bind_ok _ _ _ _ _
             (run_block_ok _ _ _ _ _ _
                (issue_command_line _ (or_intror (or_introl eq_refl)))
                (conj H2 I))).
  rewrite (run_block_ok _ _ _ _ _ _
             (issue_command_line _
                (or_intror (or_intror (or_introl eq_refl))))
             (conj H3 I)).
  reflexivity.
Qed.

End Seeding.

Section Repository.

Context {W : Type} `{OS W} `{FS W}.

(** X8: a run of [create_repo] in which every step succeeds.  The lines
    of its two blocks go to the shell one by one, the comment lines too;
    the repository is created and the old one cloned bare for the years
    resolved at the start, the clone is entered and pushed as a mirror,
    and at the end the scratch directory is removed and the address of
    the new repository printed. *)
Theorem create_repo_mirrors (w w1 w2 w4 : W) :
  os_mkdir '"/tmp/create-repo" w = Some w1 ->
  os_chdir '"/tmp/create-repo" w1 = Some w2 ->
  all_succeed (create_repo_commands (now_year w) (now_year w - 1)) w2 ->
  os_chdir ('"/tmp/create-repo/" ++ str_of_int (now_year w - 1) ++ '".git")
           (world_after (create_repo_commands (now_year w) (now_year w - 1))
                        w2)
  = Some w4 ->
  all_succeed (push_commands (now_year w)) w4 ->
  create_repo (start w)
  = (Ok tt,
     mkProc (os_rmtree '"/tmp/create-repo/"
               (world_after (push_commands (now_year w)) w4))
            (Some (now_year w)) (Some (now_year w - 1)%Z)
            ([Print ('"Creating https://github.com/hugovk/"
                       ++ str_of_int (now_year w) ++ '"...");
              Print []]
               ++ events_of (create_repo_commands (now_year w)
                                                  (now_year w - 1))
               ++ events_of (push_commands (now_year w))
               ++ [Print ('"Created: https://github.com/hugovk/"
                            ++ str_of_int (now_year w))])).
Proof.
  intros Hmk Hcd Hall1 Hcd2 Hall2.
  unfold create_repo, start.
  rewrite (bind_ok _ _ _ _ _ (this_year_fresh _ _ _)).
  cbv zeta.
  rewrite (bind_ok _ _ _ _ _ (print_step _ _ _ _ _)).
  rewrite (bind_ok _ _ _ _ _ (print_step _ _ _ _ _)).
  rewrite (bind_ok _ _ _ _ _ (mkdir_ok _ _ _ _ _ _ Hmk)).
  rewrite (bind_ok _ _ _ _ _ (chdir_ok _ _ _ _ _ _ Hcd)).
  rewrite (bind_ok _ _ _ _ _ (this_year_cached _ _ _ _)).
  rewrite (bind_ok _ _ _ _ _ (last_year_first _ _ _)).
  rewrite (bind_ok _ _ _ _ _
             (run_block_ok _ _ _ _ _ _ (create_repo_block_lines _ _) Hall1)).
  rewrite (bind_ok _ _ _ _ _ (last_year_cached _ _ _ _)).
  rewrite (bind_ok _ _ _ _ _ (chdir_ok _ _ _ _ _ _ Hcd2)).
  rewrite (bind_ok _ _ _ _ _ (this_year_cached _ _ _ _)).
  rewrite (bind_ok _ _ _ _ _
             (run_block_ok _ _ _ _ _ _ (push_block_lines _) Hall2)).
  rewrite (bind_ok _ _ _ _ _ (rmtree_ok _ _ _ _ _)).
  rewrite print_step.
  now rewrite <- !app_assoc.
Qed.

(** X9: when a command of the first block of [create_repo] fails, the
    run ends there with its [CalledProcessError].  Nothing is pushed, and
    the scratch directory is not removed: the world is left as the
    failing command left it. *)
Theorem create_repo_stops (w w1 w2 : W) (pre : list str) (c : str)
        (post : list str) :
  os_mkdir '"/tmp/create-repo" w = Some w1 ->
  os_chdir '"/tmp/create-repo" w1 = Some w2 ->
  create_repo_commands (now_year w) (now_year w - 1) = pre ++ c :: post ->
  all_succeed pre w2 ->
  fst (sh c (world_after pre w2)) <> 0%Z ->
  create_repo (start w)
  = (Raise (CalledProcessError (fst (sh c (world_after pre w2))) c),
     mkProc (snd (sh c (world_after pre w2)))
            (Some (now_year w)) (Some (now_year w - 1)%Z)
            ([Print ('"Creating https://github.com/hugovk/"
                       ++ str_of_int (now_year w) ++ '"...");
              Print []]
               ++ events_of pre ++ [Print c; Run c])).
Proof.
  intros Hmk Hcd Hsplit Hpre Hc.
  unfold create_repo, start.
  rewrite (bind_ok _ _ _ _ _ (this_year_fresh _ _ _)).
  cbv zeta.
  rewrite (bind_ok _ _ _ _ _ (print_step _ _ _ _ _)).
  rewrite (bind_ok _ _ _ _ _ (print_step _ _ _ _ _)).
  rewrite (bind_ok _ _ _ _ _ (mkdir_ok _ _ _ _ _ _ Hmk)).
  rewrite (bind_ok _ _ _ _ _ (chdir_ok _ _ _ _ _ _ Hcd)).
  rewrite (bind_ok _ _ _ _ _ (this_year_cached _ _ _ _)).
  rewrite (bind_ok _ _ _ _ _ (last_year_first _ _ _)).
  rewrite (bind_raise _ _ _ _ _
             (run_block_fail _ pre c post _ _ _ _
                (eq_trans (create_repo_block_lines _ _) Hsplit) Hpre Hc)).
  reflexivity.
Qed.

(** X10: [clone_repo] makes the scratch directory first and reads the
    clock after that; when both steps succeed it has run one command, the
    clone of this year's repository into the directory named after the
    year, and has not changed the working directory. *)
Theorem clone_repo_clones (w w1 : W) :
  os_mkdir '"/tmp/update-repo" w = Some w1 ->
  fst (sh (clone_command (now_year w1)) w1) = 0%Z ->
  clone_repo (start w)
  = (Ok tt,
     mkProc (snd (sh (clone_command (now_year w1)) w1))
            (Some (now_year w1)) None
            [Print (clone_command (now_year w1));
             Run (clone_command (now_year w1))]).
Proof.
  intros Hmk Hclone.
  unfold clone_repo, start.
  rewrite (bind_ok _ _ _ _ _ (mkdir_ok _ _ _ _ _ _ Hmk)).
  rewrite (bind_ok _ _ _ _ _ (this_year_fresh _ _ _)).
  rewrite (bind_ok _ _ _ _ _ (this_year_cached _ _ _ _)).
  change ('"git clone https://github.com/hugovk/" ++ str_of_int (now_year w1)
            ++ '" /tmp/update-repo/" ++ str_of_int (now_year w1))
    with (clone_command (now_year w1)).
  rewrite (run_block_ok _ _ _ _ _ _ (clone_command_line _) (conj Hclone I)).
  reflexivity.
Qed.

End Repository.

Section Labels.

Context {W : Type} `{OS W} `{FS W}.

Lemma bind_assoc {A B C : Type} (m : M W A) (f : A -> M W B)
      (g : B -> M W C) (p : proc W) :
  bind (bind m f) g p = bind m (fun a => bind (f a) g) p.
Proof. unfold bind; now destruct (m p) as [[a|e] q]. Qed.

(** Running one list of lines after another is running them as one. *)
Lemma run_lines_app_then {B : Type} (a b : list str) (k : M W B)
      (p : proc W) :
  bind (run_lines (a ++ b)) (fun _ => k) p
  = bind (run_lines a) (fun _ => bind (run_lines b) (fun _ => k)) p.
Proof.
  revert p; induction a as [|c a IH]; intros p; [reflexivity|].
  destruct c as [|x c]; [exact (IH p)|].
  change (((x :: c) :: a) ++ b) with ((x :: c) :: (a ++ b)).
  unfold bind in IH |- *.
  rewrite !run_lines_cons by discriminate; cbv zeta.
  destruct (Z.eqb (fst (sh (x :: c) (world p))) 0); [|reflexivity].
  exact (IH _).
Qed.

Lemma delete_command_line (old : str) :
  one_line old = true ->
  command_lines (delete_command old) = [delete_command old].
Proof.
  intros Hone; apply command_lines_one; [|reflexivity].
  unfold delete_command; rewrite !one_line_app, Hone; reflexivity.
Qed.

(** The loop over the labels runs one delete command per label. *)
Lemma for_each_deletes {B : Type} (labels : list str) (k : M W B)
      (p : proc W) :
  forallb one_line labels = true ->
  bind (for_each (fun old => run_commands (delete_command old)) labels)
       (fun _ => k) p
  = bind (run_lines (map delete_command labels)) (fun _ => k) p.
Proof.
  revert p; induction labels as [|old labels IH]; intros p Hone;
    [reflexivity|].
  cbn [forallb] in Hone; apply andb_true_iff in Hone as [Hold Hrest].
  change (map delete_command (old :: labels))
    with ([delete_command old] ++ map delete_command labels).
  rewrite run_lines_app_then.
  cbn [for_each]; rewrite bind_assoc.
  apply bind_ext;
    [intros q; now rewrite run_commands_lines, (delete_command_line _ Hold)
    | intros [] q; exact (IH q Hrest)].
Qed.

(** [create_labels] sends the lines of [label_commands] to the shell. *)
Lemma create_labels_run (p : proc W) :
  create_labels p
  = (this <- this_year ;;
     chdir ('"/tmp/update-repo/" ++ str_of_int this) ;;
     last <- last_year ;;
     run_lines (label_commands last) ;;
     this <- this_year ;;
     print ('"https://github.com/hugovk/" ++ str_of_int this ++ '"/labels"))
      p.
Proof.
  unfold create_labels.
  apply bind_ext; [reflexivity | intros this q].
  apply bind_ext; [reflexivity | intros [] q1].
  apply bind_ext; [reflexivity | intros last q2].
  unfold label_commands.
  change ([ '"gh label clone NaNoGenMo/" ++ str_of_int last; '"gh label list" ]
            ++ map delete_command default_labels ++ [ '"gh label list" ])
    with ([ '"gh label clone NaNoGenMo/" ++ str_of_int last ]
            ++ [ '"gh label list" ]
            ++ map delete_command default_labels ++ [ '"gh label list" ]).
  rewrite run_lines_app_then.
  apply bind_ext;
    [intros q3; now rewrite run_commands_lines, label_clone_line
    | intros [] q3].
  rewrite run_lines_app_then.
  apply bind_ext; [reflexivity | intros [] q4].
  rewrite for_each_deletes by reflexivity.
  rewrite run_lines_app_then.
  apply bind_ext; [reflexivity | intros [] q5].
  apply bind_ext; reflexivity.
Qed.

Lemma label_commands_nonempty (last : Z) :
  Forall (fun c => c <> []) (label_commands last).
Proof.
  unfold label_commands; apply Forall_forall; intros c Hc.
  apply in_app_or in Hc as [Hc | Hc].
  - destruct Hc as [<- | [<- | []]]; discriminate.
  - apply in_app_or in Hc as [Hc | [<- | []]]; [|discriminate].
    apply in_map_iff in Hc as (old & <- & _); discriminate.
Qed.

(** X11: a run of [create_labels] in which every command succeeds clones
    last year's labels, lists them, deletes the nine default labels one
    by one in the order of the source, lists the labels again and prints
    the address of the labels page. *)
Theorem create_labels_deletes_defaults (w w1 : W) :
  os_chdir ('"/tmp/update-repo/" ++ str_of_int (now_year w)) w = Some w1 ->
  all_succeed (label_commands (now_year w - 1)) w1 ->
  create_labels (start w)
  = (Ok tt,
     mkProc (world_after (label_commands (now_year w - 1)) w1)
            (Some (now_year w)) (Some (now_year w - 1)%Z)
            (events_of (label_commands (now_year w - 1))
               ++ [Print ('"https://github.com/hugovk/"
                            ++ str_of_int (now_year w) ++ '"/labels")])).
Proof.
  intros Hcd Hall.
  rewrite create_labels_run; unfold start.
  rewrite (bind_ok _ _ _ _ _ (this_year_fresh _ _ _)).
  rewrite (bind_ok _ _ _ _ _ (chdir_ok _ _ _ _ _ _ Hcd)).
  rewrite (bind_ok _ _ _ _ _ (last_year_first _ _ _)).
  rewrite (bind_ok _ _ _ _ _
             (run_lines_ok _ (mkProc w1 _ _ _)
                (label_commands_nonempty _) Hall)).
  cbn [world this_year_cache last_year_cache trace].
  rewrite (bind_ok _ _ _ _ _ (this_year_cached _ _ _ _)).
  now rewrite print_step.
Qed.

(** X12: the first command of [create_labels] that fails, for one a
    delete of a default label the repository does not have, ends the run
    with its [CalledProcessError]: the labels after it are not deleted,
    the labels are not listed again and no address is printed. *)
Theorem create_labels_stops (w w1 : W) (pre : list str) (c : str)
        (post : list str) :
  os_chdir ('"/tmp/update-repo/" ++ str_of_int (now_year w)) w = Some w1 ->
  label_commands (now_year w - 1) = pre ++ c :: post ->
  all_succeed pre w1 ->
  fst (sh c (world_after pre w1)) <> 0%Z ->
  create_labels (start w)
  = (Raise (CalledProcessError (fst (sh c (world_after pre w1))) c),
     mkProc (snd (sh c (world_after pre w1)))
            (Some (now_year w)) (Some (now_year w - 1)%Z)
            (events_of pre ++ [Print c; Run c])).
Proof.
  intros Hcd Hsplit Hpre Hc.
  rewrite create_labels_run; unfold start.
  rewrite (bind_ok _ _ _ _ _ (this_year_fresh _ _ _)).
  rewrite (bind_ok _ _ _ _ _ (chdir_ok _ _ _ _ _ _ Hcd)).
  rewrite (bind_ok _ _ _ _ _ (last_year_first _ _ _)).
  rewrite Hsplit.
  assert (Hne : Forall (fun c => c <> []) (pre ++ c :: post))
    by (rewrite <- Hsplit; apply label_commands_nonempty).
  rewrite (bind_raise _ _ _ _ _
             (run_lines_fail pre c post (mkProc w1 _ _ _) Hne Hpre Hc)).
  reflexivity.
Qed.

End Labels.

(* ================================================================== *)
(** * From one year to the next *)
(* ================================================================== *)

Lemma infix_within (p q s : str) :
  infix p q = true -> infix q s = true -> infix p s = true.
Proof.
  intros Hp Hq.
  destruct (infix_inv _ _ Hq) as (a & b & ->).
  now apply infix_app_r, infix_app_l.
Qed.

Lemma infix_same (p : str) : infix p p = true.
Proof. apply infix_startswith, startswith_refl. Qed.

Section Carry.

Variables pairs next : list (str * str).
Hypothesis ok : pairs_ok pairs = true.
Hypothesis carry : carry_ok pairs next = true.

Lemma carry_facts (k : nat) :
  k < 5 ->
  infix (old_of next k) (new_of pairs k) = true /\
  (forall j, j < k -> apart (old_of pairs k) (old_of pairs j) = true) /\
  (forall j, k < j < 5 -> apart (old_of next k) (old_of pairs j) = true).
Proof.
  intros Hk; pose proof carry as Hc; unfold carry_ok in Hc.
  rewrite forallb_forall in Hc.
  specialize (Hc k ltac:(apply in_seq; lia)).
  apply andb_true_iff in Hc as [Hin Hap]; rewrite forallb_forall in Hap.
  repeat match goal with |- _ /\ _ => split end.
  - exact Hin.
  - intros j Hj; specialize (Hap j ltac:(apply in_seq; lia)).
    apply Nat.ltb_lt in Hj; now rewrite Hj in Hap.
  - intros j Hj; specialize (Hap j ltac:(apply in_seq; lia)).
    assert (Hjk : Nat.ltb j k = false) by (apply Nat.ltb_ge; lia).
    assert (Hkj : Nat.ltb k j = true) by (apply Nat.ltb_lt; lia).
    now rewrite Hjk, Hkj in Hap.
Qed.

(** An old text of the README is still there when its turn comes. *)
Lemma stage_keeps_old (k m : nat) (r : str) :
  k < 5 -> m <= k -> infix (old_of pairs k) r = true ->
  infix (old_of pairs k) (stage pairs m r) = true.
Proof.
  intros Hk; induction m as [|m IH]; intros Hm Hr; [exact Hr|].
  rewrite stage_S by (rewrite (pairs_length pairs ok); lia).
  apply replace_keeps;
    [apply (old_nonempty pairs ok); lia
    | apply (carry_facts k Hk); lia
    | apply IH; [lia | exact Hr]].
Qed.

(** Once its round is over, next year's old text stays to the end. *)
Lemma stage_carries (k m : nat) (r : str) :
  k < 5 -> k < m -> m <= 5 -> infix (old_of pairs k) r = true ->
  infix (old_of next k) (stage pairs m r) = true.
Proof.
  intros Hk; induction m as [|m IH]; intros Hkm Hm Hr; [lia|].
  rewrite stage_S by (rewrite (pairs_length pairs ok); lia).
  destruct (Nat.eq_dec m k) as [-> | Hne].
  - apply (infix_within _ (new_of pairs k));
      [apply (carry_facts k Hk)|].
    apply replace_puts_new;
      [apply (old_nonempty pairs ok); lia
      | apply stage_keeps_old; [lia | lia | exact Hr]].
  - apply replace_keeps;
      [apply (old_nonempty pairs ok); lia
      | apply (carry_facts k Hk); lia
      | apply IH; [lia | lia | exact Hr]].
Qed.

Lemma apply_carries (k : nat) (r : str) :
  k < 5 -> infix (old_of pairs k) r = true ->
  infix (old_of next k) (apply_replacements pairs r) = true.
Proof.
  intros Hk Hr; rewrite <- stage_all, (pairs_length pairs ok).
  apply stage_carries; [lia | lia | lia | exact Hr].
Qed.

End Carry.

Section Next_texts.

Variables sP sL sT sU : str.
Hypothesis formats : formatted_ok sP sL sT = true.

Ltac next_step Hprefix :=
  first
  [ rewrite tails_apart_years by (assumption || reflexivity)
  | rewrite (tails_apart_years_end sP) by (assumption || reflexivity)
  | rewrite (tails_apart_years_end sL) by (assumption || reflexivity)
  | rewrite (tails_apart_years_end sT) by (assumption || reflexivity)
  | rewrite agree_same_years
  | rewrite agree_years_lit by (assumption || reflexivity)
  | rewrite agree_lit_years by (assumption || reflexivity)
  | rewrite agree_other_years by (assumption || reflexivity)
  | rewrite Hprefix
  | rewrite (agree_sym sT sL), Hprefix ].

(** Whatever the years are, this year's texts and next year's satisfy
    [carry_ok]. *)
Lemma carry_ok_texts :
  carry_ok (readme_texts sP sL sT) (readme_texts sL sT sU) = true.
Proof.
  destruct (formatted_facts sP sL sT formats)
    as ((HP0 & HP) & (HL0 & HL) & (HT0 & HT) & HPL & HPT & HLT & Hprefix).
  assert (HLP : str_eqb sL sP = false) by now rewrite str_eqb_sym.
  assert (HTP : str_eqb sT sP = false) by now rewrite str_eqb_sym.
  assert (HTL : str_eqb sT sL = false) by now rewrite str_eqb_sym.
  unfold carry_ok.
  cbn [forallb seq Nat.ltb Nat.leb].
  unfold old_of, new_of, readme_texts, nth, fst, snd.
  repeat (apply andb_true_intro; split); try reflexivity.
  all: try solve
         [ apply infix_same
         | apply infix_startswith; rewrite !app_assoc;
           repeat first [apply startswith_refl | apply startswith_weaken]
         | do 6 apply infix_app_r; apply infix_same ].
  all: repeat (cbn; try next_step Hprefix); reflexivity.
Qed.

End Next_texts.

(** X13: what one year's update leaves is what the next year's update
    looks for.  In every year of the calendar, when the README holds the
    [k]-th text that this year's update replaces, the updated README
    holds the [k]-th text that the update of the year after replaces. *)
Theorem next_year_finds_its_texts (this : Z) (readme : str) (k : nat) :
  (1 <= this <= 9999)%Z -> k < 5 ->
  infix (old_text this k) readme = true ->
  infix (old_text (this + 1) k)
        (update_readme_text this (this - 1) readme) = true.
Proof.
  intros Hy Hk Hr.
  assert (Hf : formatted_ok (str_of_int (this - 1 - 1))
                 (str_of_int (this - 1)) (str_of_int this) = true).
  { pose proof datetime_years_formats as Hall.
    rewrite forallb_forall in Hall; apply Hall.
    apply upto_In; lia. }
  unfold old_text, update_readme_text in *.
  replace (this + 1 - 1)%Z with this by lia.
  apply (apply_carries
           (readme_texts (str_of_int (this - 1 - 1)) (str_of_int (this - 1))
                         (str_of_int this))
           (readme_texts (str_of_int (this - 1)) (str_of_int this)
                         (str_of_int (this + 1))));
    [now apply pairs_ok_texts | now apply carry_ok_texts | exact Hk
    | exact Hr].
Qed.

(* ================================================================== *)
(** * The operations in one run *)
(* ================================================================== *)

Section Main.

Context {W : Type} `{OS W} `{FS W}.

(** ** The year of a run *)

Lemma keeps_bind {A B : Type} (m : M W A) (f : A -> M W B) :
  keeps_year m -> (forall a, keeps_year (f a)) -> keeps_year (bind m f).
Proof.
  intros Hm Hf y p Hs; unfold bind.
  specialize (Hm y p Hs).
  destruct (m p) as [[a|e] q]; [now apply Hf | exact Hm].
Qed.

Lemma keeps_ret {A : Type} (a : A) : keeps_year (ret a : M W A).
Proof. now intros y p Hs. Qed.

Lemma keeps_this_year : keeps_year (this_year : M W _).
Proof. intros y p Hs; now rewrite (this_year_settled y p Hs). Qed.

Lemma keeps_last_year : keeps_year (last_year : M W _).
Proof.
  intros y p Hs.
  now destruct (last_year_settled y p Hs) as (p' & -> & Hp' & _).
Qed.

Lemma keeps_print (line : str) : keeps_year (print line : M W _).
Proof. now intros y p Hs. Qed.

Lemma keeps_subprocess_run (c : str) :
  keeps_year (subprocess_run c : M W _).
Proof.
  intros y p Hs; unfold subprocess_run, bind, get_world, set_world, emit.
  cbn [fst snd]; destruct (sh c (world p)) as [status w'].
  now destruct (Z.eqb status 0).
Qed.

Lemma keeps_run_lines (lines : list str) :
  keeps_year (run_lines lines : M W _).
Proof.
  induction lines as [|c lines IH]; [apply keeps_ret|].
  destruct c as [|x c]; [exact IH|].
  change (run_lines ((x :: c) :: lines))
    with (print (x :: c) ;; subprocess_run (x :: c) ;; run_lines lines).
  apply keeps_bind; [apply keeps_print | intros _].
  apply keeps_bind; [apply keeps_subprocess_run | intros _; exact IH].
Qed.

Lemma keeps_run_commands (commands : str) :
  keeps_year (run_commands commands : M W _).
Proof. apply keeps_run_lines. Qed.

Lemma keeps_chdir (path : str) : keeps_year (chdir path : M W _).
Proof.
  intros y p Hs; unfold chdir, bind, get_world, set_world, raise.
  cbn [fst snd]; now destruct (os_chdir path (world p)).
Qed.

Lemma keeps_mkdir (path : str) : keeps_year (mkdir path : M W _).
Proof.
  intros y p Hs; unfold mkdir, bind, get_world, set_world, raise.
  cbn [fst snd]; now destruct (os_mkdir path (world p)).
Qed.

Lemma keeps_rmtree (path : str) : keeps_year (rmtree path : M W _).
Proof. now intros y p Hs. Qed.

Lemma keeps_read_file (path : str) : keeps_year (read_file path : M W _).
Proof.
  intros y p Hs; unfold read_file, bind, get_world, ret, raise.
  cbn [fst snd]; now destruct (read_text path (world p)).
Qed.

Lemma keeps_write_file (path text : str) :
  keeps_year (write_file path text : M W _).
Proof.
  intros y p Hs; unfold write_file, bind, get_world, set_world, emit, raise.
  cbn [fst snd]; now destruct (write_text path text (world p)).
Qed.

Lemma keeps_for_each {A : Type} (body : A -> M W unit) (items : list A) :
  (forall x, keeps_year (body x)) -> keeps_year (for_each body items).
Proof.
  intros Hbody; induction items as [|x items IH]; [apply keeps_ret|].
  apply keeps_bind; [apply Hbody | intros _; exact IH].
Qed.

Ltac keeps_step :=
  lazymatch goal with
  | |- keeps_year this_year => apply keeps_this_year
  | |- keeps_year last_year => apply keeps_last_year
  | |- keeps_year (print _) => apply keeps_print
  | |- keeps_year (run_commands _) => apply keeps_run_commands
  | |- keeps_year (chdir _) => apply keeps_chdir
  | |- keeps_year (mkdir _) => apply keeps_mkdir
  | |- keeps_year (rmtree _) => apply keeps_rmtree
  | |- keeps_year (read_file _) => apply keeps_read_file
  | |- keeps_year (write_file _ _) => apply keeps_write_file
  | |- keeps_year (for_each _ _) => apply keeps_for_each; intros ?
  | |- keeps_year (bind _ _) => apply keeps_bind; [|intros ?]
  end.

Lemma keeps_when (flag : bool) (operation : M W unit) :
  keeps_year operation -> keeps_year (when flag operation).
Proof. intros Hop; destruct flag; [exact Hop | apply keeps_ret]. Qed.

(** X15: one run has one year.  Whatever operations are selected and
    however the run ends, a year that is resolved when [main] begins is
    still the resolved year when it ends: no operation of the program
    reads the clock a second time, whatever the commands it runs do to
    the clock. *)
Theorem main_keeps_year (a : args) (y : Z) (p : proc W) :
  settled y p -> settled y (snd (main a p)).
Proof.
  revert y p; change (keeps_year (main a)); unfold main.
  repeat (apply keeps_bind; [apply keeps_when | intros _]);
    [ unfold create_repo | unfold clone_repo | unfold update_readme
    | unfold create_labels | apply keeps_when; unfold create_issues ];
    cbv zeta; repeat keeps_step.
Qed.

(** ** Cloning, then updating *)

Lemma update_readme_settled (y : Z) (w w1 w2 : W) (readme : str)
      (tr : list event) :
  os_chdir ('"/tmp/update-repo/" ++ str_of_int y) w = Some w1 ->
  read_text '"README.md" w1 = Some readme ->
  write_text '"README.md" (update_readme_text y (y - 1) readme) w1
  = Some w2 ->
  all_succeed (git_commands y (y - 1)) w2 ->
  update_readme (mkProc w (Some y) None tr)
  = (Ok tt,
     mkProc (world_after (git_commands y (y - 1)) w2)
            (Some y) (Some (y - 1)%Z)
            (tr ++ [Print (update_readme_text y (y - 1) readme);
                    Wrote '"README.md"
                      (update_readme_text y (y - 1) readme)]
                ++ events_of (git_commands y (y - 1)))).
Proof.
  intros Hcd Hread Hw Hall.
  destruct Hall as (Hadd & Hcommit & Hpush & _).
  unfold update_readme.
  rewrite (bind_ok _ _ _ _ _ (this_year_cached _ _ _ _)).
  rewrite (bind_ok _ _ _ _ _ (chdir_ok _ _ _ _ _ _ Hcd)).
  rewrite (bind_ok _ _ _ _ _ (read_file_ok _ _ _ _ _ _ Hread)).
  rewrite (bind_ok _ _ _ _ _ (last_year_first _ _ _)).
  rewrite (bind_ok _ _ _ _ _ (this_year_cached _ _ _ _)).
  rewrite (bind_ok _ _ _ _ _ (print_step _ _ _ _ _)).
  rewrite (bind_ok _ _ _ _ _ (write_file_ok _ _ _ _ _ _ _ Hw)).
  rewrite (bind_ok _ _ _ _ _
             (run_block_ok '"git add README.md" ['"git add README.md"]
                _ _ _ _ eq_refl (conj Hadd I))).
  rewrite (bind_ok _ _ _ _ _ (last_year_cached _ _ _ _)).
  rewrite (bind_ok _ _ _ _ _ (this_year_cached _ _ _ _)).
  rewrite (bind_ok _ _ _ _ _
             (run_block_ok _ _ _ _ _ _ (commit_command_line _ _)
                (conj Hcommit I))).
  rewrite (run_block_ok '"git push" ['"git push"] _ _ _ _ eq_refl
             (conj Hpush I)).
  cbn [events_of git_commands flat_map app].
  now rewrite <- !app_assoc.
Qed.

Lemma clone_repo_fresh (w w1 : W) (tr : list event) :
  os_mkdir '"/tmp/update-repo" w = Some w1 ->
  fst (sh (clone_command (now_year w1)) w1) = 0%Z ->
  clone_repo (mkProc w None None tr)
  = (Ok tt,
     mkProc (snd (sh (clone_command (now_year w1)) w1))
            (Some (now_year w1)) None
            (tr ++ [Print (clone_command (now_year w1));
                    Run (clone_command (now_year w1))])).
Proof.
  intros Hmk Hclone.
  unfold clone_repo.
  rewrite (bind_ok _ _ _ _ _ (mkdir_ok _ _ _ _ _ _ Hmk)).
  rewrite (bind_ok _ _ _ _ _ (this_year_fresh _ _ _)).
  rewrite (bind_ok _ _ _ _ _ (this_year_cached _ _ _ _)).
  change ('"git clone https://github.com/hugovk/" ++ str_of_int (now_year w1)
            ++ '" /tmp/update-repo/" ++ str_of_int (now_year w1))
    with (clone_command (now_year w1)).
  now rewrite (run_block_ok _ _ _ _ _ _ (clone_command_line _)
                 (conj Hclone I)).
Qed.

(** X14: [--clone-repo --update-readme] in one run.  The updater enters
    the directory that the clone was made into and rolls the README with
    the year that was read for the clone, whatever the clock shows by
    then; no other operation runs. *)
Theorem clone_then_update (w w1 w3 w4 : W) (readme : str) :
  os_mkdir '"/tmp/update-repo" w = Some w1 ->
  fst (sh (clone_command (now_year w1)) w1) = 0%Z ->
  os_chdir ('"/tmp/update-repo/" ++ str_of_int (now_year w1))
           (snd (sh (clone_command (now_year w1)) w1)) = Some w3 ->
  read_text '"README.md" w3 = Some readme ->
  write_text '"README.md"
    (update_readme_text (now_year w1) (now_year w1 - 1) readme) w3
  = Some w4 ->
  all_succeed (git_commands (now_year w1) (now_year w1 - 1)) w4 ->
  main (mkArgs false true true false false) (start w)
  = (Ok tt,
     mkProc (world_after (git_commands (now_year w1) (now_year w1 - 1)) w4)
            (Some (now_year w1)) (Some (now_year w1 - 1)%Z)
            ([Print (clone_command (now_year w1));
              Run (clone_command (now_year w1));
              Print (update_readme_text (now_year w1) (now_year w1 - 1)
                                        readme);
              Wrote '"README.md"
                (update_readme_text (now_year w1) (now_year w1 - 1) readme)]
               ++ events_of (git_commands (now_year w1) (now_year w1 - 1)))).
Proof.
  intros Hmk Hclone Hcd Hread Hw Hall.
  unfold main, when, start; cbn [arg_create_repo arg_clone_repo
    arg_update_readme arg_create_labels arg_create_issues].
  rewrite (bind_ok _ _ (mkProc w None None []) (mkProc w None None []) tt
             eq_refl).
  rewrite (bind_ok _ _ _ _ _ (clone_repo_fresh _ _ _ Hmk Hclone)).
  rewrite (bind_ok _ _ _ _ _
             (update_readme_settled _ _ _ _ _ _ Hcd Hread Hw Hall)).
  reflexivity.
Qed.

End Main.

(* ================================================================== *)
(** * The issue texts, year by year *)
(* ================================================================== *)

Lemma range_down_empty (start stop : Z) :
  (start <= stop)%Z -> range_down start stop = [].
Proof.
  intros Hle; unfold range_down.
  now replace (Z.to_nat (start - stop)) with 0 by lia.
Qed.

(** One year later the range has one more year, at its head. *)
Lemma range_down_grows (start stop : Z) :
  (stop <= start)%Z ->
  range_down (start + 1) stop = (start + 1)%Z :: range_down start stop.
Proof.
  intros Hle; unfold range_down.
  replace (Z.to_nat (start + 1 - stop)) with (S (Z.to_nat (start - stop)))
    by lia.
  cbn [seq map]; f_equal; [lia|].
  rewrite <- seq_shift, map_map.
  apply map_ext; intros i; lia.
Qed.

(** The range ends with the year above its bound. *)
Lemma range_down_last (start stop : Z) :
  (stop < start)%Z ->
  range_down start stop = range_down start (stop + 1) ++ [(stop + 1)%Z].
Proof.
  intros Hlt; unfold range_down.
  replace (Z.to_nat (start - stop))
    with (S (Z.to_nat (start - (stop + 1)))) by lia.
  rewrite seq_S, map_app; cbn [map Nat.add]; do 2 f_equal; lia.
Qed.

Lemma flat_map_lines (lines : list str) :
  flat_map (fun line => line) lines = List.concat lines.
Proof. now rewrite flat_map_concat_map, map_id. Qed.

(** X16: from one year to the next each of the two issue texts gains one
    line, for the new previous year, directly below its introduction;
    everything else is as it was.  This holds from 2015 on, the year
    below the first one of the loop. *)
Theorem issue_texts_grow (last : Z) :
  (2015 <= last)%Z ->
  issue1_text (last + 1)
  = dedent issue1_intro ++ issue1_line (last + 1)
      ++ skipn (length (dedent issue1_intro)) (issue1_text last)
  /\
  issue2_text (last + 1)
  = ('"Links to previous years:" ++ [LF; LF]) ++ issue2_line (last + 1)
      ++ skipn (length ('"Links to previous years:" ++ [LF; LF]))
               (issue2_text last).
Proof.
  intros Hy; split.
  - rewrite !issue1_text_shape, range_down_grows by exact Hy.
    rewrite startswith_skipn.
    cbn [flat_map]; now rewrite <- !app_assoc.
  - rewrite !issue2_text_shape, range_down_grows by exact Hy.
    rewrite !(app_assoc '"Links to previous years:" [LF; LF]).
    rewrite startswith_skipn.
    cbn [flat_map]; now rewrite <- !app_assoc.
Qed.

(** X17: when the previous year is before 2016 the loops add nothing:
    each issue text is its introduction followed by its three fixed
    lines. *)
Theorem issue_texts_before_2016 (last : Z) :
  (last < 2016)%Z ->
  issue1_text last = dedent issue1_intro ++ List.concat issue1_fixed /\
  issue2_text last
  = '"Links to previous years:" ++ [LF; LF] ++ List.concat issue2_fixed.
Proof.
  intros Hy.
  rewrite issue1_text_shape, issue2_text_shape, !flat_map_lines.
  now rewrite range_down_empty by lia.
Qed.

(** X18: the last lines of the two lists, for every previous year from
    2016 on.  Both loops end with their line for 2016.  In the Resources
    issue the fixed line for 2015 follows it; in the Press issue the
    fixed lines begin with 2016 again, so the text has two entries for
    2016, one after the other. *)
Theorem issue_texts_at_2016 (last : Z) :
  (2016 <= last)%Z ->
  (exists pre post,
     issue1_text last
     = pre
         ++ ('"* [2016](https://github.com/NaNoGenMo/2016/issues/1)" ++ [LF])
         ++ ('"* [2015](https://github.com/dariusk/NaNoGenMo-2015/issues/1)"
               ++ [LF])
         ++ post) /\
  (exists pre post,
     issue2_text last
     = pre
         ++ ('"* [2016](https://github.com/NaNoGenMo/2016/issues/2)" ++ [LF])
         ++ ('"* [2016](https://github.com/NaNoGenMo/2016/issues/5)" ++ [LF])
         ++ post).
Proof.
  intros Hy; split.
  - rewrite issue1_text_shape, range_down_last by lia.
    rewrite flat_map_app.
    exists (dedent issue1_intro
              ++ flat_map issue1_line (range_down last (2015 + 1))).
    exists (List.concat (tl issue1_fixed)).
    rewrite <- !app_assoc; reflexivity.
  - rewrite issue2_text_shape, range_down_last by lia.
    rewrite flat_map_app.
    exists ('"Links to previous years:" ++ [LF; LF]
              ++ flat_map issue2_line (range_down last (2015 + 1))).
    exists (List.concat (tl issue2_fixed)).
    rewrite <- !app_assoc; reflexivity.
Qed.

(* ================================================================== *)
(** * The operations in the sample worlds *)
(* ================================================================== *)

(** The update of the sample working copy: three git commands, and the
    commit message names 2023 and 2024. *)
Lemma update_readme_commits_witness :
  fst (update_readme (start sample_world)) = Ok tt /\
  sim_ran (world (snd (update_readme (start sample_world))))
  = ['"git add README.md"; '"git commit -m '2023 -> 2024'"; '"git push"].
Proof.
  rewrite (update_readme_commits sample_world sample_world
             sample_world_written sample_readme).
  - split; reflexivity.
  - reflexivity.
  - reflexivity.
  - reflexivity.
  - repeat split.
Defined.

(** A working copy without a README. *)
Lemma update_readme_needs_readme_witness :
  exists e,
    update_readme (start (mkSim 2024 [] []))
    = (Raise e, mkProc (mkSim 2024 [] []) (Some 2024%Z) None []).
Proof.
  change (Some 2024%Z) with (Some (now_year (mkSim 2024 [] []))).
  apply (proj2 (update_readme_needs_readme (mkSim 2024 [] []))
               (mkSim 2024 [] [])); reflexivity.
Defined.

(** A working copy in which [git add] fails: one command has run, and
    the README is the updated one. *)
Lemma update_readme_add_fails_witness :
  fst (update_readme
         (start (mkRough sample_world ['"git add README.md"] [])))
  = Raise (CalledProcessError 1 '"git add README.md") /\
  sim_ran (rough_sim (world (snd (update_readme
             (start (mkRough sample_world ['"git add README.md"] []))))))
  = ['"git add README.md"].
Proof.
  rewrite (update_readme_add_fails
             (mkRough sample_world ['"git add README.md"] [])
             (mkRough sample_world ['"git add README.md"] [])
             (mkRough sample_world_written ['"git add README.md"] [])
             sample_readme).
  - split; reflexivity.
  - reflexivity.
  - reflexivity.
  - reflexivity.
  - discriminate.
Defined.

(** Seeding the issues in 2024: both files are written for 2023, then the
    three commands run. *)
Lemma create_issues_creates_both_witness :
  fst (create_issues (start (mkSim 2024 [] []))) = Ok tt /\
  sim_files (world (snd (create_issues (start (mkSim 2024 [] [])))))
  = [('"/tmp/issue2.txt", issue2_text 2023);
     ('"/tmp/issue1.txt", issue1_text 2023)] /\
  sim_ran (world (snd (create_issues (start (mkSim 2024 [] [])))))
  = issue_commands.
Proof.
  rewrite (create_issues_creates_both (mkSim 2024 [] []) (mkSim 2024 [] [])
             (mkSim 2024 [('"/tmp/issue1.txt", issue1_text 2023)] [])
             (mkSim 2024 [('"/tmp/issue2.txt", issue2_text 2023);
                          ('"/tmp/issue1.txt", issue1_text 2023)] [])).
  - repeat match goal with |- _ /\ _ => split end; reflexivity.
  - reflexivity.
  - reflexivity.
  - reflexivity.
  - repeat split.
Defined.

(** Creating the repository of 2024: the six lines of the two blocks go
    to the shell, the comments among them. *)
Lemma create_repo_mirrors_witness :
  fst (create_repo (start (mkSim 2024 [] []))) = Ok tt /\
  sim_ran (world (snd (create_repo (start (mkSim 2024 [] [])))))
  = [ '"# Create destination repo on GitHub";
      '"gh repo create 2024 --private";
      '"# Make a bare clone of the repository";
      '"git clone --bare https://github.com/NaNoGenMo/2023.git";
      '"# Mirror-push to the new repository";
      '"git push --mirror https://github.com/hugovk/2024.git" ].
Proof.
  rewrite (create_repo_mirrors (mkSim 2024 [] []) (mkSim 2024 [] [])
             (mkSim 2024 [] [])
             (world_after (create_repo_commands 2024 2023)
                          (mkSim 2024 [] []))).
  - split; reflexivity.
  - reflexivity.
  - reflexivity.
  - repeat split.
  - reflexivity.
  - repeat split.
Defined.

(** The repository of 2024 exists already: [gh repo create] fails after
    the comment line before it has run, and nothing is cloned. *)
Lemma create_repo_stops_witness :
  fst (create_repo
         (start (mkRough (mkSim 2024 [] [])
                         ['"gh repo create 2024 --private"] [])))
  = Raise (CalledProcessError 1 '"gh repo create 2024 --private") /\
  sim_ran (rough_sim (world (snd (create_repo
             (start (mkRough (mkSim 2024 [] [])
                             ['"gh repo create 2024 --private"] []))))))
  = [ '"# Create destination repo on GitHub";
      '"gh repo create 2024 --private" ].
Proof.
  rewrite (create_repo_stops
             (mkRough (mkSim 2024 [] [])
                      ['"gh repo create 2024 --private"] [])
             (mkRough (mkSim 2024 [] [])
                      ['"gh repo create 2024 --private"] [])
             (mkRough (mkSim 2024 [] [])
                      ['"gh repo create 2024 --private"] [])
             ['"# Create destination repo on GitHub"]
             '"gh repo create 2024 --private"
             ['"# Make a bare clone of the repository";
              '"git clone --bare https://github.com/NaNoGenMo/2023.git"]).
  - split; reflexivity.
  - reflexivity.
  - reflexivity.
  - reflexivity.
  - repeat split.
  - discriminate.
Defined.

(** Cloning in 2024. *)
Lemma clone_repo_clones_witness :
  fst (clone_repo (start (mkSim 2024 [] []))) = Ok tt /\
  sim_ran (world (snd (clone_repo (start (mkSim 2024 [] [])))))
  = ['"git clone https://github.com/hugovk/2024 /tmp/update-repo/2024"].
Proof.
  rewrite (clone_repo_clones (mkSim 2024 [] []) (mkSim 2024 [] [])).
  - split; reflexivity.
  - reflexivity.
  - reflexivity.
Defined.

(** The labels of 2024: twelve commands, nine of them deletes. *)
Lemma create_labels_deletes_defaults_witness :
  fst (create_labels (start (mkSim 2024 [] []))) = Ok tt /\
  sim_ran (world (snd (create_labels (start (mkSim 2024 [] [])))))
  = label_commands 2023 /\
  length (label_commands 2023) = 12.
Proof.
  rewrite (create_labels_deletes_defaults (mkSim 2024 [] [])
             (mkSim 2024 [] [])).
  - repeat match goal with |- _ /\ _ => split end; reflexivity.
  - reflexivity.
  - repeat split.
Defined.

(** The repository has no label [duplicate]: its delete fails, and the
    six labels after it are not deleted. *)
Lemma create_labels_stops_witness :
  fst (create_labels
         (start (mkRough (mkSim 2024 [] [])
                         [delete_command '"duplicate"] [])))
  = Raise (CalledProcessError 1 (delete_command '"duplicate")) /\
  sim_ran (rough_sim (world (snd (create_labels
             (start (mkRough (mkSim 2024 [] [])
                             [delete_command '"duplicate"] []))))))
  = [ '"gh label clone NaNoGenMo/2023"; '"gh label list";
      delete_command '"bug"; delete_command '"documentation";
      delete_command '"duplicate" ].
Proof.
  rewrite (create_labels_stops
             (mkRough (mkSim 2024 [] []) [delete_command '"duplicate"] [])
             (mkRough (mkSim 2024 [] []) [delete_command '"duplicate"] [])
             [ '"gh label clone NaNoGenMo/2023"; '"gh label list";
               delete_command '"bug"; delete_command '"documentation" ]
             (delete_command '"duplicate")
             (map delete_command
                  ['"enhancement"; '"good first issue"; '"help wanted";
                   '"invalid"; '"question"; '"wontfix"]
                ++ ['"gh label list"])).
  - split; reflexivity.
  - reflexivity.
  - reflexivity.
  - repeat split.
  - discriminate.
Defined.

(** The list of past years in the sample README: after the update of
    2024 the line that the update of 2025 looks for is there. *)
Lemma next_year_finds_its_texts_witness :
  infix (old_text (2024 + 1) 3)
        (update_readme_text 2024 (2024 - 1) sample_readme) = true.
Proof.
  apply (next_year_finds_its_texts 2024 sample_readme 3);
    [lia | lia | vm_compute; reflexivity].
Defined.

(** New Year's Eve: the clock moves on to 2025 while the clone runs.  The
    README is still rolled from 2023 to 2024, in the directory of 2024. *)
Lemma clone_then_update_witness :
  fst (main (mkArgs false true true false false)
            (start (mkRough sample_world [] [clone_command 2024])))
  = Ok tt /\
  now_year (world (snd (main (mkArgs false true true false false)
              (start (mkRough sample_world [] [clone_command 2024])))))
  = 2025%Z /\
  sim_ran (rough_sim (world (snd (main (mkArgs false true true false false)
             (start (mkRough sample_world [] [clone_command 2024]))))))
  = [ '"git clone https://github.com/hugovk/2024 /tmp/update-repo/2024";
      '"git add README.md"; '"git commit -m '2023 -> 2024'"; '"git push" ].
Proof.
  rewrite (clone_then_update
             (mkRough sample_world [] [clone_command 2024])
             (mkRough sample_world [] [clone_command 2024])
             (snd (sh (clone_command 2024)
                      (mkRough sample_world [] [clone_command 2024])))
             (mkRough
                (mkSim 2025
                   [('"README.md", update_readme_text 2024 2023 sample_readme);
                    ('"README.md", sample_readme)]
                   [clone_command 2024])
                [] [clone_command 2024])
             sample_readme).
  - repeat match goal with |- _ /\ _ => split end; reflexivity.
  - reflexivity.
  - reflexivity.
  - reflexivity.
  - reflexivity.
  - reflexivity.
  - repeat split.
Defined.

(** A run with every operation selected that begins with 2024 resolved
    while the clock shows 2025. *)
Lemma main_keeps_year_witness :
  settled 2024
    (snd (main (mkArgs true true true true true)
               (mkProc (mkSim 2025 [] []) (Some 2024%Z) None []))).
Proof.
  apply main_keeps_year; split; [reflexivity | now left].
Defined.

(** From 2023 to 2024 as the previous year. *)
Lemma issue_texts_grow_witness :
  issue1_text (2023 + 1)
  = dedent issue1_intro ++ issue1_line (2023 + 1)
      ++ skipn (length (dedent issue1_intro)) (issue1_text 2023).
Proof. apply (issue_texts_grow 2023); lia. Defined.

(** The Resources issue for 2015 as the previous year. *)
Lemma issue_texts_before_2016_witness :
  issue1_text 2015 = dedent issue1_intro ++ List.concat issue1_fixed.
Proof. apply (issue_texts_before_2016 2015); lia. Defined.

(** The Press issue for 2024 as the previous year. *)
Lemma issue_texts_at_2016_witness :
  exists pre post,
    issue2_text 2024
    = pre
        ++ ('"* [2016](https://github.com/NaNoGenMo/2016/issues/2)" ++ [LF])
        ++ ('"* [2016](https://github.com/NaNoGenMo/2016/issues/5)" ++ [LF])
        ++ post.
Proof. apply (issue_texts_at_2016 2024); lia. Defined.

(* ================================================================== *)
(** * The lines that a block runs *)
(* ================================================================== *)

(** ** The margin loop finds the longest common prefix *)

Lemma startswith_trans (x y z : str) :
  startswith x y = true -> startswith y z = true -> startswith x z = true.
Proof.
  intros Hxy Hyz.
  destruct (startswith_inv _ _ Hxy) as [t ->].
  destruct (startswith_inv _ _ Hyz) as [u ->].
  rewrite <- app_assoc; apply startswith_app.
Qed.

Lemma startswith_length (x y : str) :
  startswith x y = true -> length x <= length y.
Proof.
  intros H; destruct (startswith_inv _ _ H) as [t ->].
  rewrite length_app; lia.
Qed.

Lemma common_prefix_l (a b : str) : startswith (common_prefix a b) a = true.
Proof.
  revert b; induction a as [|x a IH]; intros [|y b]; try reflexivity.
  simpl; destruct (Ascii.eqb x y); [|reflexivity].
  simpl; now rewrite Ascii.eqb_refl, IH.
Qed.

Lemma common_prefix_r (a b : str) : startswith (common_prefix a b) b = true.
Proof.
  revert b; induction a as [|x a IH]; intros [|y b]; try reflexivity.
  simpl; destruct (Ascii.eqb x y) eqn:E; [|reflexivity].
  simpl; now rewrite E, IH.
Qed.

Lemma common_prefix_greatest (p a b : str) :
  startswith p a = true -> startswith p b = true ->
  startswith p (common_prefix a b) = true.
Proof.
  revert a b; induction p as [|c p IH]; intros [|x a] [|y b] Ha Hb;
    try reflexivity; try discriminate.
  simpl in Ha, Hb.
  apply andb_prop in Ha as [Hx Ha]; apply andb_prop in Hb as [Hy Hb].
  apply Ascii.eqb_eq in Hx, Hy; subst x y.
  simpl; rewrite Ascii.eqb_refl; simpl; rewrite Ascii.eqb_refl.
  now apply IH.
Qed.

Lemma common_prefix_of_prefix (a b : str) :
  startswith a b = true -> common_prefix a b = a.
Proof.
  revert b; induction a as [|x a IH]; intros [|y b] H; try reflexivity;
    try discriminate.
  simpl in H; apply andb_prop in H as [Hxy H].
  apply Ascii.eqb_eq in Hxy; subst y.
  simpl; now rewrite Ascii.eqb_refl, IH.
Qed.

Lemma common_prefix_comm (a b : str) : common_prefix a b = common_prefix b a.
Proof.
  revert b; induction a as [|x a IH]; intros [|y b]; try reflexivity.
  simpl; rewrite (Ascii.eqb_sym y x).
  destruct (Ascii.eqb x y) eqn:E; [|reflexivity].
  apply Ascii.eqb_eq in E; subst y; now rewrite IH.
Qed.

(** Each round of the margin loop keeps the common prefix. *)
Lemma margin_step_common (m indent : str) :
  margin_step (Some m) indent = Some (common_prefix m indent).
Proof.
  unfold margin_step.
  destruct (startswith m indent) eqn:E1;
    [now rewrite common_prefix_of_prefix|].
  destruct (startswith indent m) eqn:E2; [|reflexivity].
  now rewrite common_prefix_comm, common_prefix_of_prefix.
Qed.

Lemma fold_margin_common (indents : list str) (m : str) :
  fold_left margin_step indents (Some m)
  = Some (fold_left common_prefix indents m).
Proof.
  revert m; induction indents as [|i indents IH]; intros m; [reflexivity|].
  cbn [fold_left]; rewrite margin_step_common; apply IH.
Qed.

Lemma fold_common_lower (indents : list str) (m : str) :
  startswith (fold_left common_prefix indents m) m = true /\
  Forall (fun i => startswith (fold_left common_prefix indents m) i = true)
         indents.
Proof.
  revert m; induction indents as [|i indents IH]; intros m.
  - split; [apply startswith_refl | constructor].
  - destruct (IH (common_prefix m i)) as [Hm Hall]; simpl.
    split; [|constructor; [|exact Hall]].
    + exact (startswith_trans _ _ _ Hm (common_prefix_l m i)).
    + exact (startswith_trans _ _ _ Hm (common_prefix_r m i)).
Qed.

Lemma fold_common_greatest (p : str) (indents : list str) (m : str) :
  startswith p m = true ->
  Forall (fun i => startswith p i = true) indents ->
  startswith p (fold_left common_prefix indents m) = true.
Proof.
  revert m; induction indents as [|i indents IH]; intros m Hm Hall;
    [exact Hm|].
  inversion Hall; subst; simpl.
  apply IH; [now apply common_prefix_greatest | assumption].
Qed.

(** ** Lines and their indentation *)

Lemma has_text_not_blank (l : str) :
  has_text l = negb (forallb is_sp_tab l).
Proof.
  induction l as [|c l IH]; [reflexivity|].
  unfold has_text in *; simpl; rewrite IH.
  now destruct (is_sp_tab c).
Qed.

Lemma indent_of_prefix (l : str) : startswith (indent_of l) l = true.
Proof.
  induction l as [|c l IH]; [reflexivity|].
  simpl; destruct (is_sp_tab c); [|reflexivity].
  simpl; now rewrite Ascii.eqb_refl.
Qed.

(** A run of spaces and tabs at the head of a line is within its
    indentation. *)
Lemma startswith_indent (m l : str) :
  forallb is_sp_tab m = true -> startswith m l = true ->
  startswith m (indent_of l) = true.
Proof.
  revert l; induction m as [|c m IH]; intros [|x l] Hm Hl;
    try reflexivity; try discriminate.
  simpl in Hm, Hl.
  apply andb_prop in Hm as [Hc Hm]; apply andb_prop in Hl as [Hx Hl].
  apply Ascii.eqb_eq in Hx; subst x.
  simpl; rewrite Hc; simpl; rewrite Ascii.eqb_refl; now apply IH.
Qed.

Lemma startswith_app_l (a b l : str) :
  startswith (a ++ b) l = true -> startswith a l = true.
Proof.
  intros H; destruct (startswith_inv _ _ H) as [t ->].
  rewrite <- app_assoc; apply startswith_app.
Qed.

Lemma lines_nonblank (raws : list str) :
  filter nonempty (map blank_to_empty raws) = filter has_text raws.
Proof.
  induction raws as [|raw raws IH]; [reflexivity|].
  cbn [map filter]; rewrite has_text_not_blank, <- IH.
  unfold blank_to_empty at 1 2.
  destruct (forallb is_sp_tab raw) eqn:E; [reflexivity|].
  destruct raw as [|c raw]; [discriminate | reflexivity].
Qed.

(** The margin of the lines is what the margin loop finds. *)
Lemma margin_found (m first : str) (rest : list str) :
  is_margin m (first :: rest) = true ->
  fold_left margin_step (map indent_of (first :: rest)) None = Some m.
Proof.
  intros Hm; unfold is_margin in Hm.
  apply andb_prop in Hm as [Hm Hmax]; apply andb_prop in Hm as [Hblank Hall].
  apply andb_prop in Hmax as [Hsp Htab].
  apply negb_true_iff in Hsp, Htab.
  rewrite forallb_forall in Hall.
  cbn [map fold_left margin_step]; rewrite fold_margin_common; f_equal.
  set (M := fold_left common_prefix (map indent_of rest) (indent_of first)).
  destruct (fold_common_lower (map indent_of rest) (indent_of first))
    as [Hfirst Hrest]; fold M in Hfirst, Hrest.
  assert (Hlines : forall l, In l (first :: rest) -> startswith M l = true).
  { intros l [<- | Hl].
    - exact (startswith_trans _ _ _ Hfirst (indent_of_prefix _)).
    - rewrite Forall_forall in Hrest.
      exact (startswith_trans _ _ _ (Hrest _ (in_map indent_of _ _ Hl))
               (indent_of_prefix l)). }
  assert (HmM : startswith m M = true).
  { apply fold_common_greatest.
    - apply startswith_indent; [exact Hblank | apply Hall; now left].
    - apply Forall_forall; intros i Hi.
      apply in_map_iff in Hi as (l & <- & Hl).
      apply startswith_indent; [exact Hblank | apply Hall; now right]. }
  destruct (startswith_inv _ _ HmM) as [t Ht].
  destruct t as [|c t]; [now rewrite app_nil_r in Ht|exfalso].
  assert (Hc : is_sp_tab c = true).
  { assert (HM : forallb is_sp_tab M = true).
    { pose proof (indent_of_blank first) as Hb.
      destruct (startswith_inv _ _ Hfirst) as [u Hu].
      rewrite Hu, forallb_app in Hb; now apply andb_prop in Hb. }
    rewrite Ht, forallb_app in HM; apply andb_prop in HM as [_ HM].
    simpl in HM; now apply andb_prop in HM. }
  assert (Hext : forallb (startswith (m ++ [c])) (first :: rest) = true).
  { apply forallb_forall; intros l Hl.
    apply (startswith_app_l _ t).
    rewrite <- app_assoc; change ([c] ++ t) with (c :: t).
    rewrite <- Ht; now apply Hlines. }
  unfold is_sp_tab in Hc; apply orb_prop in Hc as [Hc | Hc];
    apply Ascii.eqb_eq in Hc; subst c; congruence.
Qed.

(** Behind a margin of spaces and tabs a line with text has text. *)
Lemma has_text_behind (m l : str) :
  forallb is_sp_tab m = true -> startswith m l = true ->
  has_text l = true -> has_text (skipn (length m) l) = true.
Proof.
  intros Hm Hl Ht; destruct (startswith_inv _ _ Hl) as [t ->].
  rewrite startswith_skipn.
  now rewrite has_text_app, (blank_has_no_text _ Hm) in Ht.
Qed.

Lemma has_text_nonempty (l : str) : has_text l = true -> nonempty l = true.
Proof. now destruct l. Qed.

(** With the margin cut off, the lines that are left are the lines with
    text behind the margin. *)
Lemma strip_margin_lines (m : str) (raws : list str) :
  forallb is_sp_tab m = true ->
  forallb (startswith m) (filter has_text raws) = true ->
  filter nonempty (map (strip_margin m) (map blank_to_empty raws))
  = map (skipn (length m)) (filter has_text raws).
Proof.
  intros Hm; induction raws as [|raw raws IH]; intros Hall; [reflexivity|].
  cbn [map filter] in *.
  pose proof (has_text_not_blank raw) as Ht.
  destruct (forallb is_sp_tab raw) eqn:E; cbn [negb] in Ht; rewrite Ht in *.
  - assert (Hb : blank_to_empty raw = [])
      by (unfold blank_to_empty; now rewrite E).
    assert (Hs : strip_margin m [] = [])
      by (unfold strip_margin; now destruct m).
    rewrite Hb, Hs; exact (IH Hall).
  - cbn [forallb] in Hall; apply andb_prop in Hall as [Hraw Hall].
    assert (Hb : blank_to_empty raw = raw)
      by (unfold blank_to_empty; now rewrite E).
    assert (Hs : strip_margin m raw = skipn (length m) raw)
      by (unfold strip_margin; now rewrite Hraw).
    rewrite Hb, Hs.
    rewrite (has_text_nonempty _ (has_text_behind m raw Hm Hraw Ht)).
    cbn [map]; now rewrite (IH Hall).
Qed.

Lemma strip_nothing (lines : list str) : map (strip_margin []) lines = lines.
Proof. rewrite <- (map_id lines) at 2; now apply map_ext. Qed.

(** Where LF is the only line terminator, the commands of a block are its
    lines with text, without their common margin. *)
Lemma command_lines_margin (commands m : str) :
  lf_only commands = true ->
  is_margin m (nonblank_lines commands) = true ->
  command_lines commands
  = map (skipn (length m)) (nonblank_lines commands).
Proof.
  intros Hlf Hm; rewrite (command_lines_dedent _ Hlf).
  unfold dedent_lines, nonblank_lines in *.
  change (fun l : str => negb (Nat.eqb (length l) 0)) with nonempty.
  rewrite lines_nonblank.
  destruct (filter has_text (split_nl commands)) as [|first rest] eqn:Enb.
  - cbn [map fold_left]; rewrite lines_nonblank, Enb; reflexivity.
  - rewrite (margin_found m first rest Hm).
    unfold is_margin in Hm.
    apply andb_prop in Hm as [Hm _]; apply andb_prop in Hm as [Hblank Hall].
    rewrite <- Enb in Hall |- *.
    destruct m as [|c m].
    + rewrite <- (strip_nothing (map blank_to_empty (split_nl commands))).
      now apply strip_margin_lines.
    + now apply strip_margin_lines.
Qed.

(** Every list of lines has a margin. *)
Lemma margin_exists (lines : list str) : exists m, is_margin m lines = true.
Proof.
  destruct lines as [|first rest]; [now exists []|].
  set (M := fold_left common_prefix (map indent_of rest) (indent_of first)).
  destruct (fold_common_lower (map indent_of rest) (indent_of first))
    as [Hfirst Hrest]; fold M in Hfirst, Hrest.
  assert (HM : forallb is_sp_tab M = true).
  { pose proof (indent_of_blank first) as Hb.
    destruct (startswith_inv _ _ Hfirst) as [u Hu].
    rewrite Hu, forallb_app in Hb; now apply andb_prop in Hb. }
  assert (Hext : forall c, is_sp_tab c = true ->
            forallb (startswith (M ++ [c])) (first :: rest) = false).
  { intros c Hc.
    destruct (forallb (startswith (M ++ [c])) (first :: rest)) eqn:E;
      [exfalso | reflexivity].
    rewrite forallb_forall in E.
    assert (Hblank : forallb is_sp_tab (M ++ [c]) = true)
      by (rewrite forallb_app, HM; simpl; now rewrite Hc).
    assert (Hge : startswith (M ++ [c]) M = true).
    { apply fold_common_greatest.
      - apply startswith_indent; [exact Hblank | apply E; now left].
      - apply Forall_forall; intros i Hi.
        apply in_map_iff in Hi as (l & <- & Hl).
        apply startswith_indent; [exact Hblank | apply E; now right]. }
    apply startswith_length in Hge.
    rewrite length_app in Hge; simpl in Hge; lia. }
  exists M; unfold is_margin.
  rewrite HM, (Hext SP eq_refl), (Hext TAB eq_refl), !andb_true_r.
  apply forallb_forall; intros l [<- | Hl].
  - exact (startswith_trans _ _ _ Hfirst (indent_of_prefix _)).
  - rewrite Forall_forall in Hrest.
    exact (startswith_trans _ _ _ (Hrest _ (in_map indent_of _ _ Hl))
             (indent_of_prefix l)).
Qed.

Section Nonblank.

Context {W : Type} `{OS W}.


End Nonblank.


